(** * bookstack-markdown-export: the Markdown transformation pipeline

    A shallow embedding of [bookstack_markdown_export/main.py] and of the
    record of [dao.py], with the library operations the code relies on
    ([str] slicing and [replace], the [re] module on the constructs the two
    templates and [header_re] use, [pathlib] joins on POSIX, [requests]
    status checks) written out as executable definitions.

    Text is a list of characters; a character is one of the 256 code points
    of Latin-1, which is the alphabet this development covers. *)

From Stdlib Require Import Ascii String.
From Stdlib Require Import List Bool Arith ZArith Lia.
Import ListNotations.

Set Implicit Arguments.

Definition text := list ascii.

(** String literals are written [str "..."]. *)
Definition str (s : string) : text := list_ascii_of_string s.
Arguments str s%_string.

Definition newline : ascii := "010"%char.
Definition hash : ascii := "#"%char.
Definition space : ascii := " "%char.
Definition slash : ascii := "/"%char.

(** ** Python [str] operations *)

Module PyStr.

Definition eqc (a b : ascii) : bool := Ascii.eqb a b.

(** [s.startswith(p)] *)
Fixpoint starts_with (p s : text) : bool :=
  match p, s with
  | [], _ => true
  | a :: p', b :: s' => eqc a b && starts_with p' s'
  | _ :: _, [] => false
  end.

(** [c * n] for a one-character string [c] *)
Definition times (c : ascii) (n : nat) : text := repeat c n.

(** A slice index as Python normalises it: a negative index counts from the
    end, and the result is clamped to [0, len]. *)
Definition norm_index (len : nat) (i : Z) : nat :=
  let l := Z.of_nat len in
  if (i <? 0)%Z then Z.to_nat (Z.max 0 (i + l)) else Z.to_nat (Z.min i l).

(** [s[lo:hi]]; [None] stands for an omitted bound. *)
Definition slice (s : text) (lo hi : option Z) : text :=
  let len := length s in
  let a := match lo with Some i => norm_index len i | None => 0 end in
  let b := match hi with Some i => norm_index len i | None => len end in
  firstn (b - a) (skipn a s).

(** [s.replace(old, new)]: every non-overlapping occurrence, left to right.
    [skip] counts the characters of an occurrence still to be passed over. *)
Fixpoint replace_from (old new s : text) (skip : nat) : text :=
  match s with
  | [] => []
  | c :: s' =>
      match skip with
      | S k => replace_from old new s' k
      | O => if starts_with old s
             then new ++ replace_from old new s' (length old - 1)
             else c :: replace_from old new s' 0
      end
  end.

Definition replace (old new s : text) : text :=
  match old with
  | [] => new ++ flat_map (fun c => c :: new) s
  | _ :: _ => replace_from old new s 0
  end.

(** [s.rstrip(cs)] for a one-character set *)
Fixpoint rstrip (c : ascii) (s : text) : text :=
  match s with
  | [] => []
  | a :: s' =>
      match rstrip c s' with
      | [] => if eqc a c then [] else [a]
      | r => a :: r
      end
  end.

(** The line boundaries of [str.splitlines]: LF, VT, FF, CR, FS, GS, RS and
    NEL (the Latin-1 ones); CR LF counts as one. *)
Definition is_linebreak (c : ascii) : bool :=
  let n := nat_of_ascii c in
  ((10 <=? n) && (n <=? 13)) || ((28 <=? n) && (n <=? 30)) || (n =? 133).

Definition is_cr (c : ascii) : bool := nat_of_ascii c =? 13.
Definition is_lf (c : ascii) : bool := nat_of_ascii c =? 10.

(** [splitlines_from s cur]: [cur] is the line being read, reversed. *)
Fixpoint splitlines_from (s : text) (cur : text) (after_cr : bool) : list text :=
  match s with
  | [] => match cur with [] => [] | _ => [rev cur] end
  | c :: s' =>
      if after_cr && is_lf c then splitlines_from s' cur false
      else if is_linebreak c then rev cur :: splitlines_from s' [] (is_cr c)
      else splitlines_from s' (c :: cur) false
  end.

Definition splitlines (s : text) : list text := splitlines_from s [] false.

End PyStr.

(** ** The [re] module, on the fragment the program uses

    Patterns are compiled from their text, as [re.compile] does, into a small
    syntax tree, and matched by backtracking with the priorities of [re]:
    a greedy repeat tries to take one more character first, a lazy one tries
    to stop first.  The fragment has literal characters, [.], [\w], sets of
    literal characters, the anchors [^] and [$], capture groups, and the
    quantifiers [*], [+], [?] and [{n}] (greedy or lazy) on a one-character
    item.  A pattern outside the fragment compiles to [Unsupported]. *)

Module Re.

Inductive charset : Type :=
| CsLit (c : ascii)
| CsAny
| CsWord
| CsSet (neg : bool) (members : list ascii).

(** [\w] on Latin-1: letters, digits (also superscripts and fractions) and
    the underscore. *)
Definition is_word (c : ascii) : bool :=
  let n := nat_of_ascii c in
  let between a b := (a <=? n) && (n <=? b) in
  between 48 57 || between 65 90 || (n =? 95) || between 97 122
  || (n =? 170) || between 178 179 || (n =? 181) || between 185 186
  || between 188 190 || between 192 214 || between 216 246 || between 248 255.

Definition cs_match (cs : charset) (c : ascii) : bool :=
  match cs with
  | CsLit a => PyStr.eqc a c
  | CsAny => negb (PyStr.eqc c newline)
  | CsWord => is_word c
  | CsSet neg members => xorb neg (existsb (PyStr.eqc c) members)
  end.

Inductive regex : Type :=
| REps
| RChar (cs : charset)
| RRep (greedy : bool) (lo : nat) (hi : option nat) (cs : charset)
| RBol (multiline : bool)
| REol (multiline : bool)
| RGroup (n : nat) (r : regex)
| RSeq (r1 r2 : regex).

(** The matcher's position in the subject: the offset, the character before
    it, the text from it on, and the spans of the groups closed so far (the
    latest first). *)
Record mstate : Type := MState {
  ms_pos : nat;
  ms_prev : option ascii;
  ms_rest : text;
  ms_caps : list (nat * (nat * nat))
}.

Definition at_bol (multiline : bool) (prev : option ascii) : bool :=
  match prev with
  | None => true
  | Some c => multiline && PyStr.eqc c newline
  end.

Definition at_eol (multiline : bool) (rest : text) : bool :=
  match rest with
  | [] => true
  | c :: rest' =>
      PyStr.eqc c newline && (multiline || match rest' with [] => true | _ => false end)
  end.

Definition hi_allows (hi : option nat) : bool :=
  match hi with Some O => false | _ => true end.

Section Matcher.
Variable A : Type.

(** [cs{lo,hi}] from [rest]; [k] continues after the repeat. *)
Fixpoint rep (greedy : bool) (cs : charset) (lo : nat) (hi : option nat)
    (rest : text) (pos : nat) (prev : option ascii)
    (k : nat -> option ascii -> text -> option A) {struct rest} : option A :=
  let stop (_ : unit) := match lo with O => k pos prev rest | S _ => None end in
  let more (_ : unit) :=
    match rest with
    | c :: rest' =>
        if cs_match cs c && hi_allows hi
        then rep greedy cs (pred lo) (option_map pred hi) rest' (S pos) (Some c) k
        else None
    | [] => None
    end in
  if greedy
  then match more tt with Some a => Some a | None => stop tt end
  else match stop tt with Some a => Some a | None => more tt end.

Fixpoint m (r : regex) (st : mstate) (k : mstate -> option A) : option A :=
  match r with
  | REps => k st
  | RChar cs =>
      match ms_rest st with
      | c :: rest' =>
          if cs_match cs c
          then k (MState (S (ms_pos st)) (Some c) rest' (ms_caps st))
          else None
      | [] => None
      end
  | RRep greedy lo hi cs =>
      rep greedy cs lo hi (ms_rest st) (ms_pos st) (ms_prev st)
          (fun pos prev rest => k (MState pos prev rest (ms_caps st)))
  | RBol ml => if at_bol ml (ms_prev st) then k st else None
  | REol ml => if at_eol ml (ms_rest st) then k st else None
  | RGroup n r' =>
      m r' st (fun st' =>
        k (MState (ms_pos st') (ms_prev st') (ms_rest st')
                  ((n, (ms_pos st, ms_pos st')) :: ms_caps st')))
  | RSeq r1 r2 => m r1 st (fun st' => m r2 st' k)
  end.

End Matcher.

(** A match object: [start()], [end()] and the group spans. *)
Record rmatch : Type := RMatch {
  m_start : nat;
  m_end : nat;
  m_caps : list (nat * (nat * nat))
}.

Definition match_at (r : regex) (pos : nat) (prev : option ascii) (rest : text)
  : option rmatch :=
  m r (MState pos prev rest [])
    (fun st' => Some (RMatch pos (ms_pos st') (ms_caps st'))).

(** [pattern.finditer(s)]: the leftmost match, then the leftmost match from
    its end on, and so on.  [skip] counts the characters still inside the
    match found last.  (After an empty match the scan moves on by one
    character; the patterns of this program never match the empty text.) *)
Fixpoint finditer_from (r : regex) (rest : text) (pos : nat) (prev : option ascii)
    (skip : nat) : list rmatch :=
  let here := match skip with O => match_at r pos prev rest | S _ => None end in
  match here with
  | Some mt =>
      mt :: match rest with
            | [] => []
            | c :: rest' => finditer_from r rest' (S pos) (Some c) (m_end mt - pos - 1)
            end
  | None =>
      match rest with
      | [] => []
      | c :: rest' => finditer_from r rest' (S pos) (Some c) (pred skip)
      end
  end.

Definition finditer (r : regex) (s : text) : list rmatch :=
  finditer_from r s 0 None 0.

(** [pattern.search(s)] *)
Fixpoint search_from (r : regex) (rest : text) (pos : nat) (prev : option ascii)
  : option rmatch :=
  match match_at r pos prev rest with
  | Some mt => Some mt
  | None =>
      match rest with
      | [] => None
      | c :: rest' => search_from r rest' (S pos) (Some c)
      end
  end.

Definition search (r : regex) (s : text) : option rmatch := search_from r s 0 None.

(** [pattern.sub(repl, s)] for a replacement without backslashes. *)
Fixpoint sub_from (r : regex) (repl rest : text) (pos : nat) (prev : option ascii)
    (skip : nat) : text :=
  let here := match skip with O => match_at r pos prev rest | S _ => None end in
  match here with
  | Some mt =>
      repl ++ match rest with
              | [] => []
              | c :: rest' =>
                  (if m_end mt =? pos then [c] else [])
                  ++ sub_from r repl rest' (S pos) (Some c) (m_end mt - pos - 1)
              end
  | None =>
      match rest with
      | [] => []
      | c :: rest' =>
          match skip with O => [c] | S _ => [] end
          ++ sub_from r repl rest' (S pos) (Some c) (pred skip)
      end
  end.

Definition sub (r : regex) (repl s : text) : text := sub_from r repl s 0 None 0.

(** [match.group(n)] on the subject [s]; [None] when the pattern has no
    such group (Python raises [IndexError]). *)
Fixpoint lookup_group (n : nat) (caps : list (nat * (nat * nat))) : option (nat * nat) :=
  match caps with
  | [] => None
  | (g, span) :: caps' => if g =? n then Some span else lookup_group n caps'
  end.

Definition group (s : text) (mt : rmatch) (n : nat) : option text :=
  match lookup_group n (m_caps mt) with
  | Some (a, b) => Some (firstn (b - a) (skipn a s))
  | None => None
  end.

(** *** [re.compile]

    The pattern text is read one character at a time.  [ps_items] holds the
    items of the sequence being read, the last one first; [ps_stack] the
    groups that are open, each with its number and the items read before
    its parenthesis. *)

Inductive mode : Type :=
| MNormal
| MEscape
| MBrace (digits : option nat)
| MSetStart
| MSet (neg : bool) (members : list ascii).

Record pstate : Type := PState {
  ps_items : list regex;
  ps_stack : list (nat * list regex);
  ps_groups : nat;
  ps_mode : mode
}.

Inductive compiled : Type :=
| Compiled (r : regex)
| ReError
| Unsupported.

Inductive stepres : Type :=
| Next (ps : pstate)
| Stop (o : compiled).

Definition seq_of_items (items : list regex) : regex :=
  fold_left (fun acc r => RSeq r acc) items REps.

Definition push (ps : pstate) (r : regex) : stepres :=
  Next (PState (r :: ps_items ps) (ps_stack ps) (ps_groups ps) MNormal).

Definition quantify (ps : pstate) (lo : nat) (hi : option nat) : stepres :=
  match ps_items ps with
  | RChar cs :: items =>
      Next (PState (RRep true lo hi cs :: items) (ps_stack ps) (ps_groups ps) MNormal)
  | _ => Stop Unsupported
  end.

Definition question (ps : pstate) : stepres :=
  match ps_items ps with
  | RChar cs :: items =>
      Next (PState (RRep true 0 (Some 1) cs :: items) (ps_stack ps) (ps_groups ps) MNormal)
  | RRep true lo hi cs :: items =>
      Next (PState (RRep false lo hi cs :: items) (ps_stack ps) (ps_groups ps) MNormal)
  | _ => Stop Unsupported
  end.

Definition digit_of (c : ascii) : option nat :=
  let n := nat_of_ascii c in
  if (48 <=? n) && (n <=? 57) then Some (n - 48) else None.

Definition is_ascii_alnum (c : ascii) : bool :=
  let n := nat_of_ascii c in
  ((48 <=? n) && (n <=? 57)) || ((65 <=? n) && (n <=? 90)) || ((97 <=? n) && (n <=? 122)).

(** The characters that are operators of the pattern language. *)
Definition is_special (c : ascii) : bool :=
  existsb (PyStr.eqc c) (str ".^$*+?{}[]\|()").

Definition step_normal (ml : bool) (ps : pstate) (c : ascii) : stepres :=
  if PyStr.eqc c "\" then Next (PState (ps_items ps) (ps_stack ps) (ps_groups ps) MEscape)
  else if PyStr.eqc c "." then push ps (RChar CsAny)
  else if PyStr.eqc c "^" then push ps (RBol ml)
  else if PyStr.eqc c "$" then push ps (REol ml)
  else if PyStr.eqc c "(" then
    Next (PState [] ((S (ps_groups ps), ps_items ps) :: ps_stack ps) (S (ps_groups ps)) MNormal)
  else if PyStr.eqc c ")" then
    match ps_stack ps with
    | (n, before) :: stack =>
        Next (PState (RGroup n (seq_of_items (ps_items ps)) :: before) stack
                     (ps_groups ps) MNormal)
    | [] => Stop ReError
    end
  else if PyStr.eqc c "*" then quantify ps 0 None
  else if PyStr.eqc c "+" then quantify ps 1 None
  else if PyStr.eqc c "?" then question ps
  else if PyStr.eqc c "{" then
    Next (PState (ps_items ps) (ps_stack ps) (ps_groups ps) (MBrace None))
  else if PyStr.eqc c "[" then
    Next (PState (ps_items ps) (ps_stack ps) (ps_groups ps) MSetStart)
  else if PyStr.eqc c "|" then Stop Unsupported
  else push ps (RChar (CsLit c)).

Definition step_set (ps : pstate) (neg : bool) (members : list ascii) (c : ascii)
  : stepres :=
  if PyStr.eqc c "]" then
    match members with
    | [] => Stop Unsupported
    | _ :: _ => push ps (RChar (CsSet neg (rev members)))
    end
  else if PyStr.eqc c "\" || PyStr.eqc c "-" || PyStr.eqc c "[" then Stop Unsupported
  else Next (PState (ps_items ps) (ps_stack ps) (ps_groups ps) (MSet neg (c :: members))).

Definition step (ml : bool) (ps : pstate) (c : ascii) : stepres :=
  match ps_mode ps with
  | MNormal => step_normal ml ps c
  | MEscape =>
      if PyStr.eqc c "w" then push ps (RChar CsWord)
      else if is_ascii_alnum c then Stop Unsupported
      else push ps (RChar (CsLit c))
  | MBrace digits =>
      match digit_of c, digits with
      | Some d, None => Next (PState (ps_items ps) (ps_stack ps) (ps_groups ps) (MBrace (Some d)))
      | Some d, Some n =>
          Next (PState (ps_items ps) (ps_stack ps) (ps_groups ps) (MBrace (Some (10 * n + d))))
      | None, Some n => if PyStr.eqc c "}" then quantify ps n (Some n) else Stop Unsupported
      | None, None => Stop Unsupported
      end
  | MSetStart =>
      if PyStr.eqc c "^" then
        Next (PState (ps_items ps) (ps_stack ps) (ps_groups ps) (MSet true []))
      else step_set ps false [] c
  | MSet neg members => step_set ps neg members c
  end.

Definition finish (ps : pstate) : compiled :=
  match ps_mode ps, ps_stack ps with
  | MNormal, [] => Compiled (seq_of_items (ps_items ps))
  | MBrace _, _ => Unsupported
  | _, _ => ReError
  end.

Fixpoint parse (ml : bool) (s : text) (ps : pstate) : compiled :=
  match s with
  | [] => finish ps
  | c :: s' =>
      match step ml ps c with
      | Next ps' => parse ml s' ps'
      | Stop o => o
      end
  end.

(** [re.compile(pattern)], and with [flags=re.MULTILINE] when [ml]. *)
Definition compile (ml : bool) (pattern : text) : compiled :=
  parse ml pattern (PState [] [] 0 MNormal).

End Re.

(** ** [pathlib] on POSIX

    A path is its anchor (empty, [/] or [//]) and its components.  Parsing a
    string drops empty components and [.] components; joining a path with an
    absolute string gives that string's path. *)

Module PathLib.

Record path : Type := Path {
  anchor : text;
  parts : list text
}.

Fixpoint split_slash (s : text) (cur : text) : list text :=
  match s with
  | [] => [rev cur]
  | c :: s' =>
      if PyStr.eqc c slash then rev cur :: split_slash s' []
      else split_slash s' (c :: cur)
  end.

Definition keep_segment (seg : text) : bool :=
  match seg with
  | [] => false
  | [c] => negb (PyStr.eqc c ".")
  | _ => true
  end.

Definition segments (s : text) : list text :=
  filter keep_segment (split_slash s []).

Definition anchor_of (s : text) : text :=
  match s with
  | a :: b :: c :: _ =>
      if PyStr.eqc a slash
      then if PyStr.eqc b slash && negb (PyStr.eqc c slash) then str "//" else str "/"
      else []
  | [a; b] =>
      if PyStr.eqc a slash then if PyStr.eqc b slash then str "//" else str "/" else []
  | [a] => if PyStr.eqc a slash then str "/" else []
  | [] => []
  end.

Definition parse (s : text) : path := Path (anchor_of s) (segments s).

(** [p / s] *)
Definition joinpath (p : path) (s : text) : path :=
  let q := parse s in
  match anchor q with
  | [] => Path (anchor p) (parts p ++ parts q)
  | _ :: _ => q
  end.

End PathLib.

(** ** [dao.PageDetails] *)

Module Dao.

Record PageDetails : Type := mkPage {
  shelf : text;
  book : text;
  page_title : text;
  page_markdown : text;
  draft : bool
}.

Definition set_markdown (doc : PageDetails) (md : text) : PageDetails :=
  mkPage (shelf doc) (book doc) (page_title doc) md (draft doc).

End Dao.

(** ** The outside world

    What the program does to the world is recorded as a list of events, in
    the order they happen.  What the world answers is given by an
    environment: the response to a GET, and whether creating a directory or
    opening a file for writing succeeds. *)

Module World.

Inductive colour : Type :=
| Plain | Blue | Green | BrightMagenta | BrightYellowOnBlack.

Inductive event : Type :=
| EvMakedirs (p : PathLib.path)
| EvEcho (c : colour) (msg : text)
| EvGet (url : text)
| EvWriteBytes (p : PathLib.path) (content : list Byte.byte)
| EvWriteText (p : PathLib.path) (content : text).

Inductive http_result : Type :=
| ConnectionFailed
| Response (status_code : Z) (content : list Byte.byte).

Record env : Type := Env {
  http_get : text -> http_result;
  makedirs_ok : PathLib.path -> bool;
  open_ok : PathLib.path -> bool
}.

Inductive exn : Type :=
| OSError
| RequestException
| HTTPError (status_code : Z)
| IndexError
| ReCompileError.

Inductive result (A : Type) : Type :=
| Ok (a : A)
| Raised (e : exn).
Arguments Ok {A} a.
Arguments Raised {A} e.

(** A computation: the events it caused and how it ended. *)
Definition M (A : Type) : Type := (list event * result A)%type.

Definition ret {A} (a : A) : M A := ([], Ok a).
Definition raise {A} (e : exn) : M A := ([], Raised e).
Definition emit (ev : event) : M unit := ([ev], Ok tt).

Definition bind {A B} (c : M A) (k : A -> M B) : M B :=
  match c with
  | (evs, Ok a) => let (evs', r) := k a in (evs ++ evs', r)
  | (evs, Raised e) => (evs, Raised e)
  end.

(** [for x in xs: s = body(s, x)] *)
Fixpoint for_each {X S} (xs : list X) (body : S -> X -> M S) (s : S) : M S :=
  match xs with
  | [] => ret s
  | x :: xs' => bind (body s x) (for_each xs' body)
  end.

Definition events {A} (c : M A) : list event := fst c.
Definition outcome {A} (c : M A) : result A := snd c.

(** [os.makedirs(p, exist_ok=True)] *)
Definition makedirs (e : env) (p : PathLib.path) : M unit :=
  if makedirs_ok e p then emit (EvMakedirs p) else raise OSError.

(** [requests.get(url, verify=False)] *)
Definition requests_get (e : env) (url : text) : M (Z * list Byte.byte) :=
  bind (emit (EvGet url)) (fun _ =>
    match http_get e url with
    | ConnectionFailed => raise RequestException
    | Response st body => ret (st, body)
    end).

(** [response.raise_for_status()]: client and server error codes raise. *)
Definition is_error_status (st : Z) : bool := ((400 <=? st) && (st <? 600))%Z.

Definition raise_for_status (st : Z) : M unit :=
  if is_error_status st then raise (HTTPError st) else ret tt.

(** [with open(p, "wb") as f: f.write(content)] and the same with ["w"] *)
Definition write_bytes (e : env) (p : PathLib.path) (content : list Byte.byte) : M unit :=
  if open_ok e p then emit (EvWriteBytes p content) else raise OSError.

Definition write_text (e : env) (p : PathLib.path) (content : text) : M unit :=
  if open_ok e p then emit (EvWriteText p content) else raise OSError.

Definition echo (c : colour) (msg : text) : M unit := emit (EvEcho c msg).

End World.

Notation "x <- c ;; k" := (World.bind c (fun x => k))
  (at level 61, c at next level, right associativity).
Notation "c ;;; k" := (World.bind c (fun _ => k))
  (at level 61, right associativity).

(** ** [main.py] *)

Module Main.
Import Dao World.

Definition LOWEST_HEADER_LEVEL : nat := 8.

Definition IMAGE_LINK_REGEX_TEMPLATE : text :=
  str "\[\!\[.+\]\(__BASE_URL__/uploads/.*?\.\w{3}\)\]\((__BASE_URL__/uploads/.*?/([^/]*?\.\w{3}))\)".

Definition INTERNAL_LINK_REGEX_TEMPLATE : text :=
  str "__BASE_URL__/books/(.+?)/page/(.+?)\)".

(** [range(a, b)] *)
Definition range (a b : nat) : list nat := seq a (b - a).

Definition header_text (level : nat) : text :=
  PyStr.times hash level ++ str " ".

(** The pattern of [header_re] always compiles (see [header_re_compiles]);
    the last branch is never taken. *)
Definition header_re (level : nat) : Re.regex :=
  match Re.compile true (str "^" ++ header_text level) with
  | Re.Compiled r => r
  | _ => Re.REps
  end.

Fixpoint first_header_level (levels : list nat) (md : text) : option nat :=
  match levels with
  | [] => None
  | level :: levels' =>
      match Re.search (header_re level) md with
      | Some _ => Some level
      | None => first_header_level levels' md
      end
  end.

Definition get_top_level_header (md : text) : option nat :=
  first_header_level (range 1 LOWEST_HEADER_LEVEL) md.

(** *** [export_doc], stage by stage *)

Definition lift_group (g : option text) : M text :=
  match g with
  | Some s => ret s
  | None => raise IndexError
  end.

(** The body of the image loop.  [md0] is the text the matches were found
    in; the slices are taken from the text as it is now. *)
Definition inline_image (e : env) (path_to_book : PathLib.path) (md0 : text)
    (doc : PageDetails) (mt : Re.rmatch) : M PageDetails :=
  image_url <- lift_group (Re.group md0 mt 1) ;;
  image_filename <- lift_group (Re.group md0 mt 2) ;;
  echo Blue (str "Found embedded image in " ++ book doc ++ str " => "
             ++ page_title doc ++ str ": " ++ image_filename) ;;;
  response <- requests_get e image_url ;;
  raise_for_status (fst response) ;;;
  write_bytes e (PathLib.joinpath path_to_book image_filename) (snd response) ;;;
  ret (set_markdown doc
         (PyStr.slice (page_markdown doc) None (Some (Z.of_nat (Re.m_start mt)))
          ++ str "![](" ++ image_filename ++ str ")"
          ++ PyStr.slice (page_markdown doc) (Some (Z.of_nat (Re.m_end mt) + 1)%Z) None)).

Definition inline_images (e : env) (path_to_book : PathLib.path)
    (image_link_regex : Re.regex) (doc : PageDetails) : M PageDetails :=
  for_each (rev (Re.finditer image_link_regex (page_markdown doc)))
           (inline_image e path_to_book (page_markdown doc)) doc.

Definition replacements (original_top_level : nat) : list (Re.regex * text) :=
  map (fun x => (header_re x, header_text (x - original_top_level + 1)))
      (range original_top_level LOWEST_HEADER_LEVEL).

Definition apply_replacements (rs : list (Re.regex * text)) (md : text) : text :=
  fold_left (fun md fr => Re.sub (fst fr) (snd fr) md) rs md.

Definition normalize_headers (md : text) : text :=
  match get_top_level_header md with
  | Some original_top_level =>
      if original_top_level =? 1 then md
      else apply_replacements (replacements original_top_level) md
  | None => md
  end.

Definition title_heading (doc : PageDetails) : text :=
  str "# " ++ (if draft doc then str "DRAFT: " else []) ++ page_title doc
  ++ [newline; newline].

Definition add_title (doc : PageDetails) : PageDetails :=
  set_markdown doc (title_heading doc ++ page_markdown doc).

(** The body of the internal-link loop; the loop's state is
    [internal_links_found]. *)
Definition report_link (doc : PageDetails) (found : bool) (internal_link : Re.rmatch)
  : M bool :=
  g1 <- lift_group (Re.group (page_markdown doc) internal_link 1) ;;
  g2 <- lift_group (Re.group (page_markdown doc) internal_link 2) ;;
  echo BrightMagenta (str ">> Internal link found in [" ++ page_title doc
                      ++ str "] to [" ++ g1 ++ str "]/[" ++ g2 ++ str "]") ;;;
  let snippet :=
    PyStr.slice (page_markdown doc)
                (Some (Z.of_nat (Re.m_start internal_link) - 60)%Z)
                (Some (Z.of_nat (Re.m_start internal_link))) in
  for_each (PyStr.splitlines snippet)
           (fun (_ : unit) snippet_line => echo Plain (str "    " ++ snippet_line)) tt ;;;
  ret true.

Definition find_internal_links (internal_link_regex : Re.regex) (doc : PageDetails)
  : M bool :=
  for_each (Re.finditer internal_link_regex (page_markdown doc)) (report_link doc) false.

Definition page_file (path_to_book : PathLib.path) (doc : PageDetails) : PathLib.path :=
  let safe_page_title := PyStr.replace (str "/") (str "-") (page_title doc) in
  PathLib.joinpath path_to_book (safe_page_title ++ str ".md").

Definition book_dir (export_path : PathLib.path) (doc : PageDetails) : PathLib.path :=
  PathLib.joinpath (PathLib.joinpath export_path (shelf doc)) (book doc).

(** [export_doc] returns the flag; the page it was given is changed in
    place, so the changed page is returned with it. *)
Definition export_doc (e : env) (export_path : PathLib.path) (doc : PageDetails)
    (image_link_regex internal_link_regex : Re.regex) : M (PageDetails * bool) :=
  let path_to_book := book_dir export_path doc in
  makedirs e path_to_book ;;;
  doc <- inline_images e path_to_book image_link_regex doc ;;
  let doc := set_markdown doc (normalize_headers (page_markdown doc)) in
  let doc := add_title doc in
  internal_links_found <- find_internal_links internal_link_regex doc ;;
  write_text e (page_file path_to_book doc) (page_markdown doc) ;;;
  ret (doc, internal_links_found).

(** *** [main]

    The pages come from the database, which is outside this development:
    [documents] is what [dao.get_all_pages] returned.  The progress bar's
    own output is left out. *)

Definition export_all (e : env) (export_path : PathLib.path)
    (image_link_regex internal_link_regex : Re.regex)
    (documents : list PageDetails) : M bool :=
  for_each documents
    (fun manual_required doc =>
       r <- export_doc e export_path doc image_link_regex internal_link_regex ;;
       ret (snd r || manual_required))
    false.

Definition compile_template (template bookstack_url_root : text) : Re.compiled :=
  Re.compile false (PyStr.replace (str "__BASE_URL__") bookstack_url_root template).

Definition run (e : env) (export_path : PathLib.path)
    (image_link_regex internal_link_regex : Re.regex)
    (documents : list PageDetails) : M unit :=
  echo Green (str "> Connecting to DB") ;;;
  echo Green (str "> Retrieving all documents from db") ;;;
  echo Green (str "> Exporting all documents as markdown") ;;;
  manual_required <- export_all e export_path image_link_regex internal_link_regex documents ;;
  if manual_required
  then echo BrightYellowOnBlack (str "Manual cleanup required. See '>>' messages above.")
  else ret tt.

(** [None] when a pattern is outside the fragment of [Re]. *)
Definition main (e : env) (bookstack_url_root : text) (export_path : PathLib.path)
    (documents : list PageDetails) : option (M unit) :=
  let bookstack_url_root := PyStr.rstrip slash bookstack_url_root in
  match compile_template IMAGE_LINK_REGEX_TEMPLATE bookstack_url_root with
  | Re.Compiled image_link_regex =>
      match compile_template INTERNAL_LINK_REGEX_TEMPLATE bookstack_url_root with
      | Re.Compiled internal_link_regex =>
          Some (run e export_path image_link_regex internal_link_regex documents)
      | Re.ReError => Some (raise ReCompileError)
      | Re.Unsupported => None
      end
  | Re.ReError => Some (raise ReCompileError)
  | Re.Unsupported => None
  end.

End Main.

(** ** Lines and heading levels

    The vocabulary of the specification: the lines of a text are what lies
    between its newline characters, and a heading of level [n] is a line that
    begins with [n] hashes followed by a space. *)

Module Lines.

Fixpoint lines (s : text) : list text :=
  match s with
  | [] => [[]]
  | c :: s' =>
      if PyStr.eqc c newline then [] :: lines s'
      else match lines s' with
           | l :: ls => (c :: l) :: ls
           | [] => [[c]]
           end
  end.

Fixpoint unlines (ls : list text) : text :=
  match ls with
  | [] => []
  | [l] => l
  | l :: ls' => l ++ newline :: unlines ls'
  end.

Fixpoint leading_hashes (l : text) : nat :=
  match l with
  | c :: l' => if PyStr.eqc c hash then S (leading_hashes l') else 0
  | [] => 0
  end.

Definition heading_level (l : text) : option nat :=
  match leading_hashes l with
  | O => None
  | S n =>
      match skipn (S n) l with
      | c :: _ => if PyStr.eqc c space then Some (S n) else None
      | [] => None
      end
  end.

(** The rewrite as the specification words it: the new level of every
    heading is computed from the original line, for every level from [t] to
    7, and the lines are rewritten in one pass.  A heading of level [L] from
    [t] to 7 gets [L - t + 1] hashes and a space in place of its [L] hashes
    and space; every other line stays. *)
Definition shift_line (t : nat) (l : text) : text :=
  match heading_level l with
  | Some L =>
      if (t <=? L) && (L <=? 7)
      then (repeat hash (L - t + 1) ++ [space]) ++ skipn (L + 1) l
      else l
  | None => l
  end.

Definition rewrite_one_pass (t : nat) (md : text) : text :=
  unlines (map (shift_line t) (lines md)).

(** The level a heading of level [x] has after the rewrite for top level
    [t]; levels from 8 on stay. *)
Definition new_level (t x : nat) : nat :=
  if x <? Main.LOWEST_HEADER_LEVEL then x - t + 1 else x.

End Lines.

(** * Vocabulary of the statements

    The definitions the properties below are stated and proved with. *)

Import Dao World Main Lines.

(** ** Patterns as trees *)

Definition lit (c : ascii) : Re.regex := Re.RChar (Re.CsLit c).

Definition seq_list (rs : list Re.regex) : Re.regex := fold_right Re.RSeq Re.REps rs.

Definition header_tree (level : nat) : Re.regex :=
  Re.RSeq (Re.RBol true) (seq_list (map lit (header_text level))).

(** ** Lines *)

Definition no_newline (l : text) : Prop := ~ In newline l.

(** ** One heading pattern, line by line *)

(** What [header_re(x).sub(header_text(y), _)] does to one line. *)
Definition rw (x y : nat) (l : text) : text :=
  if PyStr.starts_with (header_text x) l then header_text y ++ skipn (x + 1) l else l.

Definition map_first {X} (b : bool) (f : X -> X) (ls : list X) : list X :=
  match ls with
  | [] => []
  | l :: ls' => (if b then f l else l) :: map f ls'
  end.

Fixpoint after_skip (x y skip : nat) (prev : option ascii) (rest : text) : text :=
  match skip with
  | O => unlines (map_first (Re.at_bol true prev) (rw x y) (lines rest))
  | S k =>
      match rest with
      | [] => []
      | c :: rest' => after_skip x y k (Some c) rest'
      end
  end.

Definition is_some {X} (o : option X) : bool :=
  match o with Some _ => true | None => false end.

Definition exists_first {X} (b : bool) (f : X -> bool) (ls : list X) : bool :=
  match ls with
  | [] => false
  | l :: ls' => (b && f l) || existsb f ls'
  end.

(** A text has a heading of level [n] when one of its lines is one. *)
Definition has_level (n : nat) (md : text) : bool :=
  existsb (PyStr.starts_with (header_text n)) (lines md).

(** ** The substitutions in turn *)

(** The substitutions for the levels [a], [a+1], ... applied in turn to one
    line rewrite it at most once, by the level it had at first. *)
Definition rw_levels (t : nat) (levels : list nat) (l : text) : text :=
  fold_left (fun l x => rw x (x - t + 1) l) levels l.

Definition sub_levels (t : nat) (levels : list nat) (md : text) : text :=
  fold_left (fun md x => Re.sub (header_re x) (header_text (x - t + 1)) md) levels md.

(** ** What a pattern matches

    [Matches r st st'] says that [r] can match from the state [st] and leave
    the matcher in [st']. *)

Definition hi_ok (hi : option nat) (n : nat) : Prop :=
  match hi with Some h => n <= h | None => True end.

Definition advance (st : Re.mstate) (l rest' : text) : Re.mstate :=
  Re.MState (Re.ms_pos st + length l) (last (map Some l) (Re.ms_prev st)) rest'
            (Re.ms_caps st).

Inductive Matches : Re.regex -> Re.mstate -> Re.mstate -> Prop :=
| M_eps st : Matches Re.REps st st
| M_char cs c rest' st :
    Re.ms_rest st = c :: rest' -> Re.cs_match cs c = true ->
    Matches (Re.RChar cs) st (advance st [c] rest')
| M_rep greedy lo hi cs l rest' st :
    Re.ms_rest st = l ++ rest' -> forallb (Re.cs_match cs) l = true ->
    lo <= length l -> hi_ok hi (length l) ->
    Matches (Re.RRep greedy lo hi cs) st (advance st l rest')
| M_bol ml st : Re.at_bol ml (Re.ms_prev st) = true -> Matches (Re.RBol ml) st st
| M_eol ml st : Re.at_eol ml (Re.ms_rest st) = true -> Matches (Re.REol ml) st st
| M_group n r st st' :
    Matches r st st' ->
    Matches (Re.RGroup n r) st
            (Re.MState (Re.ms_pos st') (Re.ms_prev st') (Re.ms_rest st')
                       ((n, (Re.ms_pos st, Re.ms_pos st')) :: Re.ms_caps st'))
| M_seq r1 r2 st st1 st2 :
    Matches r1 st st1 -> Matches r2 st1 st2 -> Matches (Re.RSeq r1 r2) st st2.

(** The matcher's state at the end of [pre], with [rest] still to read. *)
Definition start_state (pre rest : text) : Re.mstate :=
  Re.MState (length pre) (last (map Some pre) None) rest [].

(** The pattern matches somewhere in the text. *)
Definition match_exists (r : Re.regex) (s : text) : Prop :=
  exists pre rest st', s = pre ++ rest /\ Matches r (start_state pre rest) st'.

(** The pattern has a group numbered [n]. *)
Fixpoint defines_group (n : nat) (r : Re.regex) : bool :=
  match r with
  | Re.RGroup g r' => (g =? n) || defines_group n r'
  | Re.RSeq r1 r2 => defines_group n r1 || defines_group n r2
  | _ => false
  end.

(** ** Computations *)

Definition is_page_write (ev : event) : bool :=
  match ev with EvWriteText _ _ => true | _ => false end.

Definition is_echo (ev : event) : bool :=
  match ev with EvEcho _ _ => true | _ => false end.

Definition raises {X} (c : M X) : Prop := exists e, snd c = Raised e.

(** ** The groups of a pattern being read *)

Fixpoint steps (ml : bool) (s : text) (ps : Re.pstate) : Re.stepres :=
  match s with
  | [] => Re.Next ps
  | c :: s' =>
      match Re.step ml ps c with
      | Re.Next ps' => steps ml s' ps'
      | Re.Stop o => Re.Stop o
      end
  end.

Definition frame_has (n : nat) (fr : nat * list Re.regex) : bool :=
  (fst fr =? n) || existsb (defines_group n) (snd fr).

(** Group [n] is open, or closed and among the items read. *)
Definition known (n : nat) (ps : Re.pstate) : bool :=
  existsb (defines_group n) (Re.ps_items ps) || existsb (frame_has n) (Re.ps_stack ps).

Definition groups_known (ps : Re.pstate) : Prop :=
  forall n, 1 <= n <= Re.ps_groups ps -> known n ps = true.

Definition step_keeps (ps ps' : Re.pstate) : Prop :=
  (forall n, known n ps = true -> known n ps' = true)
  /\ (Re.ps_groups ps' = Re.ps_groups ps
      \/ (Re.ps_groups ps' = S (Re.ps_groups ps) /\ known (S (Re.ps_groups ps)) ps' = true)).

Definition internal_tail : text := str "/books/(.+?)/page/(.+?)\)".

(** ** Events *)

Definition echo_only (ev : event) : Prop := is_echo ev = true.

Definition no_page_write (ev : event) : Prop := is_page_write ev = false.

(** The image loop changes the text of the page and nothing else of it. *)
Definition same_page (doc doc' : PageDetails) : Prop :=
  shelf doc' = shelf doc /\ book doc' = book doc
  /\ page_title doc' = page_title doc /\ draft doc' = draft doc.

(** ** Worked pages *)

Definition pattern_of (c : Re.compiled) : Re.regex :=
  match c with Re.Compiled r => r | _ => Re.REps end.

Definition example_base : text := str "http://w.x".

Definition example_image_re : Re.regex :=
  pattern_of (compile_template IMAGE_LINK_REGEX_TEMPLATE example_base).

Definition example_link_re : Re.regex :=
  pattern_of (compile_template INTERNAL_LINK_REGEX_TEMPLATE example_base).

Definition example_root : PathLib.path := PathLib.parse (str "export").

(** A world in which every request is answered with status 200 and every
    file operation succeeds, and one in which every request is answered 404. *)
Definition env_ok : env := Env (fun _ => Response 200 []) (fun _ => true) (fun _ => true).

Definition env_404 : env := Env (fun _ => Response 404 []) (fun _ => true) (fun _ => true).

(** C8, the claim as stated: the success statuses are those from 200 to 299,
    every other status is a non-success status. *)
Definition is_success_status (st : Z) : bool := ((200 <=? st) && (st <? 300))%Z.

(** A world in which every request is answered with status 304. *)
Definition env_304 : env := Env (fun _ => Response 304 []) (fun _ => true) (fun _ => true).

(** What the specification says of the image loop: all matched spans of the
    original text are replaced at once, each by the bare embed of its file
    name. *)
Fixpoint splice (s : text) (cur : nat) (spans : list (nat * nat * text)) : text :=
  match spans with
  | [] => skipn cur s
  | (a, b, r) :: spans' => firstn (a - cur) (skipn cur s) ++ r ++ splice s b spans'
  end.

Definition bare_embed (md : text) (mt : Re.rmatch) : text :=
  str "![](" ++ match Re.group md mt 2 with Some f => f | None => [] end ++ str ")".

Definition spec_inline_images (r : Re.regex) (md : text) : text :=
  splice md 0 (map (fun mt => (Re.m_start mt, Re.m_end mt, bare_embed md mt))
                   (Re.finditer r md)).

(** What the specification says of the context of a link: the characters
    before the match start, 60 of them at most, split into lines. *)
Definition spec_context (md : text) (start : nat) : list text :=
  PyStr.splitlines (skipn (start - 60) (firstn start md)).

Definition image_page : PageDetails :=
  mkPage (str "S") (str "B") (str "Intro")
         (str "[![a](http://w.x/uploads/t.png)](http://w.x/uploads/i/f.png)
next line") false.

Definition link_page : PageDetails :=
  mkPage (str "S") (str "B") (str "T")
         (str "See [p](http://w.x/books/b/page/p) and then the rest of a page that is long.")
         false.

Definition hello_page : PageDetails :=
  mkPage (str "S") (str "B") (str "Intro") (str "## Hello") false.

(** C3, the claim as stated: no line of the content after the first is a
    level-1 heading. *)
Definition single_top_heading (content : text) : Prop :=
  forall i l, nth_error (lines content) i = Some l -> heading_level l = Some 1 -> i = 0.

Definition example_image_match : Re.rmatch :=
  Re.RMatch 0 60 [(1, (33, 59)); (2, (54, 59))].

(** ** The output path *)

Definition dash (c : ascii) : ascii := if PyStr.eqc c slash then "-"%char else c.

Definition safe_file_name (title : text) : text := map dash title ++ str ".md".

Definition output_path (export_path : PathLib.path) (doc : PageDetails) : PathLib.path :=
  page_file (book_dir export_path doc) doc.

(** C9, the claim as stated: a slash in the shelf or in the book makes the
    output path deeper than root, shelf, book and file name. *)
Definition slash_nests (export_path : PathLib.path) (doc : PageDetails) : Prop :=
  In slash (shelf doc) \/ In slash (book doc) ->
  length (PathLib.parts export_path) + 3
  < length (PathLib.parts (output_path export_path doc)).

(** ** Base URLs as patterns *)

Definition is_substring (p s : text) : Prop := exists pre post, s = pre ++ p ++ post.

(** C10, the claim for one template and one base URL: some text without the
    base URL in it is matched by the compiled pattern. *)
Definition matches_without_base (template base : text) : Prop :=
  exists r s,
    compile_template template base = Re.Compiled r
    /\ ~ is_substring base s /\ match_exists r s.

(** A character that is literal in a pattern, or the dot. *)
Definition simple (c : ascii) : bool := negb (Re.is_special c) || PyStr.eqc c ".".

Definition atom (c : ascii) : Re.regex :=
  if PyStr.eqc c "." then Re.RChar Re.CsAny else lit c.

(** The base URL with its dots replaced. *)
Definition undot (c : ascii) : ascii := if PyStr.eqc c "." then "x"%char else c.

(** ** The internal-link pattern of a simple base URL *)

Definition internal_tail_items : list Re.regex :=
  Eval vm_compute in
    match steps false internal_tail (Re.PState [] [] 0 Re.MNormal) with
    | Re.Next ps => rev (Re.ps_items ps)
    | Re.Stop _ => []
    end.

Definition internal_regex (base : text) : Re.regex :=
  seq_list (map atom base ++ internal_tail_items).

(** ** The image pattern of a simple base URL *)

Definition image_pre : text := str "\[\!\[.+\]\(".

Definition image_mid : text := str "/uploads/.*?\.\w{3}\)\]\((".

Definition image_post : text := str "/uploads/.*?/([^/]*?\.\w{3}))\)".

Definition image_pre_items : list Re.regex :=
  [lit "["; lit "!"; lit "["; Re.RRep true 1 None Re.CsAny; lit "]"; lit "("].

Definition image_mid_items : list Re.regex :=
  map lit (str "/uploads/")
  ++ [Re.RRep false 0 None Re.CsAny; lit "."; Re.RRep true 3 (Some 3) Re.CsWord;
      lit ")"; lit "]"; lit "("].

Definition image_in_items : list Re.regex :=
  map lit (str "/uploads/") ++ [Re.RRep false 0 None Re.CsAny; lit "/"].

Definition image_name_items : list Re.regex :=
  [Re.RRep false 0 None (Re.CsSet true [slash]); lit ".";
   Re.RRep true 3 (Some 3) Re.CsWord].

Definition image_group (base : text) : Re.regex :=
  Re.RGroup 1 (seq_list (map atom base ++ image_in_items
                         ++ [Re.RGroup 2 (seq_list image_name_items)])).

Definition image_regex (base : text) : Re.regex :=
  seq_list (image_pre_items ++ map atom base ++ image_mid_items
            ++ [image_group base; lit ")"]).

(** A letter other than the given character. *)
Definition pick (avoid : option ascii) : ascii :=
  match avoid with
  | Some c => if PyStr.eqc c "a" then "b"%char else "a"%char
  | None => "a"%char
  end.

(** The character before the first dot of a text, and the one after it. *)
Fixpoint first_dot_prev (prev : option ascii) (b : text) : option ascii :=
  match b with
  | [] => None
  | c :: b' => if PyStr.eqc c "." then prev else first_dot_prev (Some c) b'
  end.

Fixpoint first_dot_next (b : text) : option ascii :=
  match b with
  | [] => None
  | c :: b' => if PyStr.eqc c "." then hd_error b' else first_dot_next b'
  end.

Definition file_name (base : text) : text :=
  let s := pick (first_dot_prev None base) in
  let e := pick (first_dot_next base) in
  [s; "."%char; e; e; e].

(** A text the image pattern matches: the base URL with its dots replaced,
    and file names whose dot has neighbours the first dot of the base URL
    does not have. *)
Definition image_text (base : text) : text :=
  str "[![a](" ++ map undot base ++ str "/uploads/" ++ file_name base ++ str ")]("
  ++ map undot base ++ str "/uploads/i/" ++ file_name base ++ str ")".

Definition opt_eqc (a b : option ascii) : bool :=
  match a, b with
  | Some x, Some y => PyStr.eqc x y
  | None, None => true
  | _, _ => false
  end.

(** Every dot of [t] has [s] before it and [e] after it. *)
Fixpoint guarded (s e : ascii) (prev : option ascii) (t : text) : bool :=
  match t with
  | [] => true
  | c :: t' =>
      (if PyStr.eqc c "."
       then opt_eqc prev (Some s) && opt_eqc (hd_error t') (Some e)
       else true)
      && guarded s e (Some c) t'
  end.

(** ** A base URL that ends with a dollar sign *)

Definition dollar_base : text := str "w.x$".

Definition dollar_internal_re : Re.regex :=
  Eval vm_compute in
    pattern_of (compile_template INTERNAL_LINK_REGEX_TEMPLATE dollar_base).

Definition dollar_image_re : Re.regex :=
  Eval vm_compute in
    pattern_of (compile_template IMAGE_LINK_REGEX_TEMPLATE dollar_base).


(** ** What the loops do, match by match *)

Definition group_text (s : text) (mt : Re.rmatch) (n : nat) : text :=
  match Re.group s mt n with Some g => g | None => [] end.

Definition response_content (e : env) (url : text) : list Byte.byte :=
  match http_get e url with Response _ content => content | ConnectionFailed => [] end.

(** The events of one round of the image loop that ends well: the notice,
    the request, the write of the image into the page's directory. *)
Definition image_events (e : env) (dir : PathLib.path) (doc : PageDetails)
    (mt : Re.rmatch) : list event :=
  let md := page_markdown doc in
  [EvEcho Blue (str "Found embedded image in " ++ book doc ++ str " => "
                ++ page_title doc ++ str ": " ++ group_text md mt 2);
   EvGet (group_text md mt 1);
   EvWriteBytes (PathLib.joinpath dir (group_text md mt 2))
                (response_content e (group_text md mt 1))].

(** The span a round of the image loop replaces, and what it puts there. *)
Definition eaten_span (md : text) (mt : Re.rmatch) : nat * nat * text :=
  (Re.m_start mt, S (Re.m_end mt), bare_embed md mt).

(** No match starts where the one before it ends. *)
Fixpoint spaced (ms : list Re.rmatch) : Prop :=
  match ms with
  | m :: (m' :: _) as ms' => Re.m_end m < Re.m_start m' /\ spaced ms'
  | _ => True
  end.

(** The events of one round of the link loop. *)
Definition link_events (doc : PageDetails) (mt : Re.rmatch) : list event :=
  let md := page_markdown doc in
  EvEcho BrightMagenta (str ">> Internal link found in [" ++ page_title doc
                        ++ str "] to [" ++ group_text md mt 1 ++ str "]/["
                        ++ group_text md mt 2 ++ str "]")
  :: map (fun snippet_line => EvEcho Plain (str "    " ++ snippet_line))
         (PyStr.splitlines
            (PyStr.slice md (Some (Z.of_nat (Re.m_start mt) - 60)%Z)
                            (Some (Z.of_nat (Re.m_start mt))))).

Definition is_get (ev : event) : bool :=
  match ev with EvGet _ => true | _ => false end.

Definition is_notice (ev : event) : bool :=
  match ev with EvEcho BrightMagenta _ => true | _ => false end.

(** The flag [export_doc] returns for a page, [false] when it raises. *)
Definition page_flag (e : env) (export_path : PathLib.path)
    (ire lre : Re.regex) (doc : PageDetails) : bool :=
  match snd (export_doc e export_path doc ire lre) with
  | Ok (_, found) => found
  | Raised _ => false
  end.

Definition set_title (doc : PageDetails) (title : text) : PageDetails :=
  mkPage (shelf doc) (book doc) title (page_markdown doc) (draft doc).

(** A page with two embedded images, on two lines. *)
Definition gallery_page : PageDetails :=
  mkPage (str "S") (str "B") (str "Gallery")
         (str "One [![a](http://w.x/uploads/t.png)](http://w.x/uploads/i/f.png) and
[![b](http://w.x/uploads/u.png)](http://w.x/uploads/j/g.jpg) end")
         false.

(** Where the snippet printed for a link starting at [start] begins, in a
    text of [len] characters: [start - 60] counts from the end of the text
    when it is negative. *)
Definition context_offset (len start : nat) : nat :=
  if 60 <=? start then start - 60 else len + start - 60.

Definition context_of (md : text) (start : nat) : text :=
  skipn (context_offset (length md) start) (firstn start md).

(** A page whose link starts later than offset 60. *)
Definition far_link_page : PageDetails :=
  mkPage (str "S") (str "B") (str "T")
         (str "The first line of the page.
A second line long enough to push the link past offset sixty: [p](http://w.x/books/b/page/p) end.")
         false.

Definition far_link_match : Re.rmatch :=
  Re.RMatch 94 120 [(2, (118, 119)); (1, (111, 112))].

(** The three progress lines [main] prints before the pages, and the line
    it prints at the end of a run with a flagged page. *)
Definition progress_lines : list event :=
  [EvEcho Green (str "> Connecting to DB");
   EvEcho Green (str "> Retrieving all documents from db");
   EvEcho Green (str "> Exporting all documents as markdown")].

Definition cleanup_line : event :=
  EvEcho BrightYellowOnBlack (str "Manual cleanup required. See '>>' messages above.").




(** Two pages of one book whose titles differ in a slash and a dash. *)
Definition slash_page : PageDetails :=
  mkPage (str "S") (str "B") (str "A/B") (str "one") false.

Definition dash_page : PageDetails :=
  mkPage (str "S") (str "B") (str "A-B") (str "two") false.

(** A character of the text fits a character of a simple base URL: a dot
    of the base URL stands for any character but a newline, every other
    character for itself. *)
Definition fits (p c : ascii) : Prop :=
  if PyStr.eqc p "." then c <> newline else c = p.

(** A text with headings of the levels 2, 3, 7 and 8. *)
Definition nested_headings : text :=
  str "## A
text
### B
####### G
######## H".

(** * Properties *)

(** ** Characters and prefixes *)

Lemma eqc_eq (a b : ascii) : PyStr.eqc a b = true <-> a = b.
Proof. unfold PyStr.eqc. apply Ascii.eqb_eq. Qed.

Lemma eqc_neq (a b : ascii) : PyStr.eqc a b = false <-> a <> b.
Proof. unfold PyStr.eqc. apply Ascii.eqb_neq. Qed.

Lemma eqc_refl (a : ascii) : PyStr.eqc a a = true.
Proof. apply eqc_eq. reflexivity. Qed.

Lemma eqc_sym (a b : ascii) : PyStr.eqc a b = PyStr.eqc b a.
Proof. unfold PyStr.eqc. apply Ascii.eqb_sym. Qed.

Lemma starts_with_app (p s : text) : PyStr.starts_with p (p ++ s) = true.
Proof. induction p as [|a p IH]; simpl; [reflexivity|]. now rewrite eqc_refl. Qed.

Lemma starts_with_split (p s : text) :
  PyStr.starts_with p s = true -> s = p ++ skipn (length p) s.
Proof.
  revert s. induction p as [|a p IH]; intros [|b s]; simpl; try discriminate; auto.
  intros H. apply andb_prop in H as [Hab Hps].
  apply eqc_eq in Hab. subst b. f_equal. now apply IH.
Qed.

(** ** Compiling patterns made of plain characters *)

Lemma seq_of_items_rev (items : list Re.regex) :
  Re.seq_of_items items = seq_list (rev items).
Proof.
  unfold Re.seq_of_items, seq_list. generalize Re.REps.
  induction items as [|r items IH]; intros acc; simpl; [reflexivity|].
  rewrite fold_right_app. simpl. apply IH.
Qed.

Lemma step_normal_plain (ml : bool) (ps : Re.pstate) (c : ascii) :
  Re.is_special c = false ->
  Re.step_normal ml ps c = Re.push ps (lit c).
Proof.
  unfold Re.is_special. simpl. intros H.
  repeat (apply orb_false_elim in H as [?H H]).
  unfold Re.step_normal.
  repeat match goal with
         | E : PyStr.eqc c ?x = false |- context [PyStr.eqc c ?x] => rewrite E
         end.
  reflexivity.
Qed.

Lemma parse_plain (ml : bool) (l rest : text) :
  forallb (fun c => negb (Re.is_special c)) l = true ->
  forall items stack groups,
    Re.parse ml (l ++ rest) (Re.PState items stack groups Re.MNormal)
    = Re.parse ml rest (Re.PState (rev (map lit l) ++ items) stack groups Re.MNormal).
Proof.
  induction l as [|c l IH]; intros Hl items stack groups; [reflexivity|].
  simpl in Hl. apply andb_prop in Hl as [Hc Hl]. apply negb_true_iff in Hc.
  simpl. unfold Re.step. simpl. rewrite (step_normal_plain _ _ _ Hc).
  unfold Re.push. simpl. rewrite (IH Hl). now rewrite <- app_assoc.
Qed.

Lemma header_text_plain (level : nat) :
  forallb (fun c => negb (Re.is_special c)) (header_text level) = true.
Proof.
  unfold header_text, PyStr.times. rewrite forallb_app. apply andb_true_intro. split.
  - induction level; simpl; auto.
  - reflexivity.
Qed.

Lemma header_re_compiles (level : nat) :
  Re.compile true (str "^" ++ header_text level) = Re.Compiled (header_tree level).
Proof.
  unfold Re.compile. cbn [str list_ascii_of_string app].
  cbn [Re.parse]. unfold Re.step at 1. cbn.
  rewrite <- (app_nil_r (header_text level)).
  rewrite (parse_plain true _ [] (header_text_plain level)).
  cbn [Re.parse Re.finish Re.ps_mode Re.ps_stack Re.ps_items].
  rewrite seq_of_items_rev, rev_app_distr, rev_involutive. reflexivity.
Qed.

Lemma header_re_tree (level : nat) : header_re level = header_tree level.
Proof. unfold header_re. now rewrite header_re_compiles. Qed.

(** ** Matching a literal prefix *)

Lemma last_cons {X} (x d : X) (l : list X) : last (x :: l) d = last l x.
Proof.
  revert x d. induction l as [|y l IH]; intros x d; [reflexivity|].
  change (last (x :: y :: l) d) with (last (y :: l) d). now rewrite !IH.
Qed.

Lemma m_lits {X} (l : text) : forall (st : Re.mstate) (k : Re.mstate -> option X),
  Re.m (seq_list (map lit l)) st k
  = if PyStr.starts_with l (Re.ms_rest st)
    then k (Re.MState (Re.ms_pos st + length l)
                      (last (map Some l) (Re.ms_prev st))
                      (skipn (length l) (Re.ms_rest st))
                      (Re.ms_caps st))
    else None.
Proof.
  induction l as [|a l IH]; intros [pos prev rest caps] k.
  - simpl. now rewrite Nat.add_0_r.
  - cbn [map seq_list fold_right Re.m lit Re.ms_rest Re.ms_pos Re.ms_prev Re.ms_caps].
    destruct rest as [|c rest]; [reflexivity|].
    cbn [PyStr.starts_with Re.cs_match].
    destruct (PyStr.eqc a c) eqn:E; [|reflexivity].
    apply eqc_eq in E. subst c.
    fold (seq_list (map lit l)). rewrite IH. cbn [andb Re.ms_rest Re.ms_pos Re.ms_prev Re.ms_caps].
    destruct (PyStr.starts_with l rest); [|reflexivity].
    cbn [length skipn]. rewrite last_cons. f_equal. f_equal. lia.
Qed.

Lemma header_text_length (level : nat) : length (header_text level) = level + 1.
Proof. unfold header_text, PyStr.times. now rewrite length_app, repeat_length. Qed.

Lemma match_at_header (level pos : nat) (prev : option ascii) (rest : text) :
  Re.match_at (header_re level) pos prev rest
  = if Re.at_bol true prev && PyStr.starts_with (header_text level) rest
    then Some (Re.RMatch pos (pos + (level + 1)) [])
    else None.
Proof.
  rewrite header_re_tree. unfold Re.match_at, header_tree.
  cbn [Re.m Re.ms_prev]. destruct (Re.at_bol true prev); [|reflexivity].
  rewrite m_lits. cbn [andb Re.ms_rest Re.ms_pos Re.ms_caps].
  now rewrite header_text_length.
Qed.

(** ** Lines *)

Lemma lines_nonempty (s : text) : lines s <> [].
Proof.
  induction s as [|c s IH]; simpl; [discriminate|].
  destruct (PyStr.eqc c newline); [discriminate|].
  destruct (lines s); discriminate.
Qed.

Lemma unlines_cons (l : text) (ls : list text) :
  ls <> [] -> unlines (l :: ls) = l ++ newline :: unlines ls.
Proof. destruct ls; [congruence|reflexivity]. Qed.

Lemma unlines_lines (s : text) : unlines (lines s) = s.
Proof.
  induction s as [|c s IH]; [reflexivity|].
  simpl lines. destruct (PyStr.eqc c newline) eqn:E.
  - apply eqc_eq in E. subst c.
    rewrite unlines_cons by apply lines_nonempty. simpl. now rewrite IH.
  - pose proof (lines_nonempty s) as Hne.
    destruct (lines s) as [|l ls]; [congruence|].
    destruct ls as [|l' ls]; simpl in *; now rewrite <- IH.
Qed.

Lemma lines_no_newline (s : text) : Forall no_newline (lines s).
Proof.
  induction s as [|c s IH]; simpl.
  - constructor; [intros []|constructor].
  - destruct (PyStr.eqc c newline) eqn:E.
    + constructor; [intros []|assumption].
    + apply eqc_neq in E.
      destruct (lines s) as [|l ls]; [repeat constructor; intros [H|[]]; congruence|].
      inversion IH; subst. constructor; [|assumption].
      intros [H|H]; [congruence|contradiction].
Qed.

Lemma lines_line (l : text) : no_newline l -> lines l = [l].
Proof.
  induction l as [|c l IH]; intros H; [reflexivity|].
  simpl. destruct (PyStr.eqc c newline) eqn:E.
  - apply eqc_eq in E. subst c. exfalso. apply H. now left.
  - rewrite IH; [reflexivity|]. intros Hin. apply H. now right.
Qed.

Lemma lines_app_newline (l s : text) :
  no_newline l -> lines (l ++ newline :: s) = l :: lines s.
Proof.
  induction l as [|c l IH]; intros H.
  - reflexivity.
  - simpl. destruct (PyStr.eqc c newline) eqn:E.
    + apply eqc_eq in E. subst c. exfalso. apply H. now left.
    + rewrite IH; [reflexivity|]. intros Hin. apply H. now right.
Qed.

Lemma lines_unlines (ls : list text) :
  ls <> [] -> Forall no_newline ls -> lines (unlines ls) = ls.
Proof.
  induction ls as [|l ls IH]; intros Hne Hall; [congruence|].
  inversion Hall; subst.
  destruct ls as [|l' ls].
  - simpl. now apply lines_line.
  - rewrite unlines_cons by discriminate.
    rewrite lines_app_newline by assumption.
    f_equal. apply IH; [discriminate|assumption].
Qed.

Lemma lines_cons_other (c : ascii) (s : text) :
  c <> newline -> lines (c :: s) = (c :: hd [] (lines s)) :: tl (lines s).
Proof.
  intros H. apply eqc_neq in H. simpl. rewrite H.
  pose proof (lines_nonempty s). destruct (lines s); [congruence|reflexivity].
Qed.

Lemma lines_app_prefix (p s : text) :
  no_newline p -> lines (p ++ s) = (p ++ hd [] (lines s)) :: tl (lines s).
Proof.
  induction p as [|c p IH]; intros H.
  - simpl. pose proof (lines_nonempty s). destruct (lines s); [congruence|reflexivity].
  - assert (Hc : c <> newline) by (intros ->; apply H; now left).
    assert (Hp : no_newline p) by (intros Hin; apply H; now right).
    change ((c :: p) ++ s) with (c :: (p ++ s)).
    rewrite lines_cons_other by assumption. now rewrite IH.
Qed.

Lemma unlines_app_first (p l : text) (ls : list text) :
  unlines ((p ++ l) :: ls) = p ++ unlines (l :: ls).
Proof. destruct ls; simpl; [reflexivity|]. now rewrite <- app_assoc. Qed.

Lemma starts_with_first_line (p s : text) :
  no_newline p -> PyStr.starts_with p s = PyStr.starts_with p (hd [] (lines s)).
Proof.
  revert s. induction p as [|a p IH]; intros s H; [reflexivity|].
  assert (Ha : a <> newline) by (intros ->; apply H; now left).
  assert (Hp : no_newline p) by (intros Hin; apply H; now right).
  destruct s as [|c s]; [reflexivity|].
  destruct (PyStr.eqc c newline) eqn:E.
  - simpl. rewrite E. simpl. apply eqc_eq in E. subst c.
    apply eqc_neq in Ha. now rewrite Ha.
  - apply eqc_neq in E. rewrite lines_cons_other by assumption.
    simpl. now rewrite (IH s Hp).
Qed.

Lemma header_text_no_newline (level : nat) : no_newline (header_text level).
Proof.
  unfold no_newline, header_text, PyStr.times. intros H.
  apply in_app_or in H as [H|H].
  - apply repeat_spec in H. discriminate.
  - destruct H as [H|[]]. discriminate.
Qed.

Lemma header_text_S (level : nat) : header_text (S level) = hash :: header_text level.
Proof. reflexivity. Qed.

Lemma header_text_last (level : nat) (d : option ascii) :
  last (map Some (header_text level)) d = Some space.
Proof.
  unfold header_text. rewrite map_app. cbn [str list_ascii_of_string map].
  now rewrite last_last.
Qed.

(** ** [sub] and [search] with a heading pattern, line by line *)

Lemma map_first_true {X} (f : X -> X) (ls : list X) : map_first true f ls = map f ls.
Proof. destruct ls; reflexivity. Qed.

Lemma rw_nil (x y : nat) : rw x y [] = [].
Proof. unfold rw. destruct x; reflexivity. Qed.

Lemma after_skip_app (x y : nat) (p tail : text) : forall prev,
  p <> [] ->
  after_skip x y (length p) prev (p ++ tail)
  = after_skip x y 0 (last (map Some p) prev) tail.
Proof.
  induction p as [|c p IH]; intros prev Hne; [congruence|].
  cbn [length app after_skip]. destruct p as [|c' p].
  - reflexivity.
  - rewrite IH by discriminate. cbn [map]. now rewrite (last_cons (Some c)).
Qed.

Lemma sub_from_header (x y : nat) (rest : text) : forall pos prev skip,
  Re.sub_from (header_re (S x)) (header_text y) rest pos prev skip
  = after_skip (S x) y skip prev rest.
Proof.
  induction rest as [|c rest IH]; intros pos prev skip.
  - destruct skip as [|k]; cbn [Re.sub_from after_skip]; [|reflexivity].
    rewrite match_at_header. cbn [PyStr.starts_with header_text_S].
    rewrite andb_false_r. cbn [lines map_first map unlines].
    rewrite rw_nil. now destruct (Re.at_bol true prev).
  - destruct skip as [|k].
    2:{ cbn [Re.sub_from after_skip pred app]. apply IH. }
    cbn [Re.sub_from after_skip]. rewrite match_at_header.
    destruct (Re.at_bol true prev && PyStr.starts_with (header_text (S x)) (c :: rest))
      eqn:Hm.
    + apply andb_prop in Hm as [Hb Hs]. rewrite Hb.
      cbn [Re.m_end]. 
      replace (pos + (S x + 1) =? pos) with false by (symmetry; apply Nat.eqb_neq; lia).
      replace (pos + (S x + 1) - pos - 1) with (S x) by lia.
      cbn [app]. rewrite IH.
      pose proof (starts_with_split _ _ Hs) as Hsplit.
      rewrite header_text_length in Hsplit.
      set (tail := skipn (S x + 1) (c :: rest)) in *.
      rewrite header_text_S in Hsplit. injection Hsplit as Hc Hrest.
      rewrite Hrest.
      replace (S x) with (length (header_text x)) at 2 by (rewrite header_text_length; lia).
      rewrite after_skip_app
        by (intros E; apply (f_equal (@length _)) in E; rewrite header_text_length in E;
            simpl in E; lia).
      rewrite header_text_last. cbn [after_skip Re.at_bol andb].
      change (PyStr.eqc space newline) with false.
      change (c :: header_text x ++ tail) with ((c :: header_text x) ++ tail).
      rewrite Hc, <- header_text_S.
      rewrite lines_app_prefix by apply header_text_no_newline.
      pose proof (lines_nonempty tail) as Hne.
      destruct (lines tail) as [|l ls]; [congruence|].
      cbn [hd tl map_first]. unfold rw at 2.
      rewrite starts_with_app.
      replace (skipn (S x + 1) (header_text (S x) ++ l)) with l
        by (rewrite <- (header_text_length (S x)), skipn_app, skipn_all, Nat.sub_diag;
            reflexivity).
      symmetry. apply unlines_app_first.
    + cbn [app pred]. rewrite IH. cbn [after_skip].
      destruct (PyStr.eqc c newline) eqn:E.
      * cbn [lines]. rewrite E. cbn [map_first].
        assert (Hrw : (if Re.at_bol true prev then rw (S x) y [] else []) = [])
          by (rewrite rw_nil; now destruct (Re.at_bol true prev)).
        rewrite Hrw. cbn [Re.at_bol]. rewrite E. cbn [andb].
        rewrite map_first_true.
        apply eqc_eq in E. subst c.
        rewrite unlines_cons; [reflexivity|].
        pose proof (lines_nonempty rest). destruct (lines rest); [congruence|discriminate].
      * cbn [Re.at_bol]. rewrite E. cbn [andb].
        apply eqc_neq in E. rewrite lines_cons_other by assumption.
        pose proof (lines_nonempty rest) as Hne.
        rewrite (starts_with_first_line (c :: rest) (header_text_no_newline (S x))) in Hm.
        rewrite lines_cons_other in Hm by assumption.
        destruct (lines rest) as [|l ls]; [congruence|].
        cbn [hd tl map_first] in *.
        assert (Hfirst : (if Re.at_bol true prev then rw (S x) y (c :: l) else c :: l) = c :: l).
        { destruct (Re.at_bol true prev); [|reflexivity].
          cbn [andb] in Hm. unfold rw. now rewrite Hm. }
        rewrite Hfirst. destruct ls; reflexivity.
Qed.

Lemma sub_header (x y : nat) (md : text) :
  Re.sub (header_re (S x)) (header_text y) md = unlines (map (rw (S x) y) (lines md)).
Proof.
  unfold Re.sub. rewrite sub_from_header. cbn [after_skip Re.at_bol].
  now rewrite map_first_true.
Qed.

Lemma exists_first_true {X} (f : X -> bool) (ls : list X) :
  exists_first true f ls = existsb f ls.
Proof. destruct ls; reflexivity. Qed.

Lemma search_from_header (x : nat) (rest : text) : forall pos prev,
  is_some (Re.search_from (header_re (S x)) rest pos prev)
  = exists_first (Re.at_bol true prev) (PyStr.starts_with (header_text (S x))) (lines rest).
Proof.
  induction rest as [|c rest IH]; intros pos prev.
  - cbn [Re.search_from]. rewrite match_at_header.
    cbn [PyStr.starts_with header_text_S]. rewrite andb_false_r.
    cbn [lines exists_first existsb is_some]. now rewrite andb_false_r.
  - cbn [Re.search_from]. rewrite match_at_header.
    rewrite (starts_with_first_line (c :: rest) (header_text_no_newline (S x))).
    destruct (PyStr.eqc c newline) eqn:E.
    + cbn [lines]. rewrite E. cbn [hd PyStr.starts_with header_text_S].
      rewrite andb_false_r. rewrite IH. cbn [Re.at_bol]. rewrite E.
      cbn [andb exists_first orb]. now rewrite andb_false_r, exists_first_true.
    + apply eqc_neq in E. rewrite lines_cons_other by assumption.
      cbn [hd exists_first].
      destruct (Re.at_bol true prev && PyStr.starts_with (header_text (S x)) (c :: hd [] (lines rest)));
        [reflexivity|].
      rewrite IH. cbn [Re.at_bol]. apply eqc_neq in E. rewrite E. cbn [andb orb].
      pose proof (lines_nonempty rest). destruct (lines rest); [congruence|reflexivity].
Qed.

Lemma search_header (x : nat) (md : text) :
  is_some (Re.search (header_re (S x)) md) = has_level (S x) md.
Proof.
  unfold Re.search, has_level. rewrite search_from_header. apply exists_first_true.
Qed.

Lemma first_header_level_some (md : text) (n a t : nat) :
  first_header_level (seq (S a) n) md = Some t <->
  (S a <= t < S a + n /\ has_level t md = true
   /\ forall t', S a <= t' < t -> has_level t' md = false).
Proof.
  revert a. induction n as [|n IH]; intros a.
  - simpl. split; [discriminate|]. intros [H _]. lia.
  - cbn [seq first_header_level]. pose proof (search_header a md) as Hs.
    destruct (Re.search (header_re (S a)) md); cbn [is_some] in Hs.
    + split.
      * intros [= <-]. split; [lia|]. split; [now symmetry|]. intros t' Ht'. lia.
      * intros (Hr & Ht & Hmin). f_equal.
        destruct (Nat.eq_dec t (S a)) as [->|Hne]; [reflexivity|].
        rewrite (Hmin (S a)) in Hs by lia. discriminate.
    + rewrite IH. split.
      * intros (Hr & Ht & Hmin). repeat split; try lia; auto.
        intros t' Ht'. destruct (Nat.eq_dec t' (S a)) as [->|Hne]; [now symmetry|].
        apply Hmin. lia.
      * intros (Hr & Ht & Hmin).
        assert (t <> S a) by (intros ->; congruence).
        repeat split; try lia; auto. intros t' Ht'. apply Hmin. lia.
Qed.

Lemma first_header_level_none (md : text) (n a : nat) :
  first_header_level (seq (S a) n) md = None <->
  (forall t', S a <= t' < S a + n -> has_level t' md = false).
Proof.
  revert a. induction n as [|n IH]; intros a.
  - simpl. split; [intros _ t' Ht'; lia|reflexivity].
  - cbn [seq first_header_level]. pose proof (search_header a md) as Hs.
    destruct (Re.search (header_re (S a)) md); cbn [is_some] in Hs.
    + split; [discriminate|]. intros H. rewrite (H (S a)) in Hs by lia. discriminate.
    + rewrite IH. split.
      * intros H t' Ht'. destruct (Nat.eq_dec t' (S a)) as [->|Hne]; [now symmetry|].
        apply H. lia.
      * intros H t' Ht'. apply H. lia.
Qed.

Lemma get_top_level_header_some (md : text) (t : nat) :
  get_top_level_header md = Some t <->
  (1 <= t <= 7 /\ has_level t md = true
   /\ forall t', 1 <= t' < t -> has_level t' md = false).
Proof.
  unfold get_top_level_header, range, LOWEST_HEADER_LEVEL.
  change (8 - 1) with 7. rewrite first_header_level_some.
  split; intros (Hr & Ht & Hmin); repeat split; try lia; auto.
Qed.

Lemma get_top_level_header_none (md : text) :
  get_top_level_header md = None <->
  (forall t', 1 <= t' <= 7 -> has_level t' md = false).
Proof.
  unfold get_top_level_header, range, LOWEST_HEADER_LEVEL.
  change (8 - 1) with 7. rewrite first_header_level_none.
  split; intros H t' Ht'; apply H; lia.
Qed.

(** ** Heading levels *)

Lemma leading_hashes_repeat (k : nat) (tail : text) :
  leading_hashes (repeat hash k ++ space :: tail) = k.
Proof. induction k as [|k IH]; [reflexivity|]. simpl. now rewrite IH. Qed.

Lemma skipn_repeat_app (k : nat) (c : ascii) (tail : text) :
  skipn k (repeat c k ++ tail) = tail.
Proof. induction k as [|k IH]; [reflexivity|]. simpl. apply IH. Qed.

Lemma heading_level_header_text (n : nat) (tail : text) :
  heading_level (header_text (S n) ++ tail) = Some (S n).
Proof.
  unfold heading_level, header_text, PyStr.times.
  rewrite <- app_assoc. cbn [str list_ascii_of_string app].
  rewrite leading_hashes_repeat, (skipn_repeat_app (S n)). reflexivity.
Qed.

Lemma leading_hashes_split (l : text) :
  l = repeat hash (leading_hashes l) ++ skipn (leading_hashes l) l.
Proof.
  induction l as [|c l IH]; [reflexivity|].
  simpl. destruct (PyStr.eqc c hash) eqn:E; [|reflexivity].
  apply eqc_eq in E. subst c. simpl. now rewrite <- IH.
Qed.

Lemma starts_with_heading (n : nat) (l : text) :
  PyStr.starts_with (header_text (S n)) l = true <-> heading_level l = Some (S n).
Proof.
  split.
  - intros H. apply starts_with_split in H. rewrite H.
    apply heading_level_header_text.
  - unfold heading_level. intros H.
    destruct (leading_hashes l) as [|k] eqn:Ek; [discriminate|].
    destruct (skipn (S k) l) as [|c tail] eqn:Es; [discriminate|].
    destruct (PyStr.eqc c space) eqn:Ec; [|discriminate].
    injection H as ->. apply eqc_eq in Ec. subst c.
    rewrite (leading_hashes_split l), Ek, Es.
    change (repeat hash (S n) ++ space :: tail) with (repeat hash (S n) ++ str " " ++ tail).
    rewrite app_assoc. apply starts_with_app.
Qed.

Lemma has_level_iff (n : nat) (md : text) :
  has_level (S n) md = true <-> exists l, In l (lines md) /\ heading_level l = Some (S n).
Proof.
  unfold has_level. rewrite existsb_exists.
  split; intros (l & Hin & H); exists l; split; auto; now apply starts_with_heading.
Qed.

Lemma has_level_false_iff (n : nat) (md : text) :
  has_level (S n) md = false <-> forall l, In l (lines md) -> heading_level l <> Some (S n).
Proof.
  rewrite <- not_true_iff_false, has_level_iff. split.
  - intros H l Hin Hl. apply H. now exists l.
  - intros H (l & Hin & Hl). now apply (H l).
Qed.

Lemma rw_hit (x y : nat) (l : text) :
  heading_level l = Some (S x) -> rw (S x) y l = header_text y ++ skipn (S x + 1) l.
Proof. intros H. apply starts_with_heading in H. unfold rw. now rewrite H. Qed.

Lemma rw_miss (x y : nat) (l : text) :
  heading_level l <> Some (S x) -> rw (S x) y l = l.
Proof.
  intros H. unfold rw.
  destruct (PyStr.starts_with (header_text (S x)) l) eqn:E; [|reflexivity].
  apply starts_with_heading in E. contradiction.
Qed.

Lemma rw_no_newline (x y : nat) (l : text) : no_newline l -> no_newline (rw x y l).
Proof.
  unfold rw, no_newline. intros H.
  destruct (PyStr.starts_with (header_text x) l); [|assumption].
  intros Hin. apply in_app_or in Hin as [Hin|Hin].
  - now apply (header_text_no_newline y).
  - apply H. rewrite <- (firstn_skipn (x + 1) l). apply in_or_app. now right.
Qed.

Lemma rw_levels_cons (t x : nat) (xs : list nat) (l : text) :
  rw_levels t (x :: xs) l = rw_levels t xs (rw x (x - t + 1) l).
Proof. reflexivity. Qed.

Lemma rw_levels_line (t : nat) (l : text) : forall n a,
  1 <= t <= S a ->
  rw_levels t (seq (S a) n) l
  = match heading_level l with
    | Some L =>
        if (S a <=? L) && (L <? S a + n)
        then header_text (L - t + 1) ++ skipn (L + 1) l
        else l
    | None => l
    end.
Proof.
  intros n. revert l. induction n as [|n IH]; intros l a Ht.
  - cbn [seq rw_levels fold_left].
    destruct (heading_level l) as [L|]; [|reflexivity].
    destruct (Nat.leb_spec (S a) L), (Nat.ltb_spec L (S a + 0)); cbn [andb]; auto; lia.
  - cbn [seq]. rewrite rw_levels_cons.
    destruct (heading_level l) as [L|] eqn:EL.
    + destruct (Nat.eq_dec L (S a)) as [->|Hne].
      * rewrite (rw_hit _ _ EL).
        replace (S a - t + 1) with (S (S a - t)) by lia.
        rewrite IH by lia. rewrite heading_level_header_text.
        destruct (Nat.leb_spec (S (S a)) (S (S a - t))); [lia|]. cbn [andb].
        destruct (Nat.leb_spec (S a) (S a)); [|lia].
        destruct (Nat.ltb_spec (S a) (S a + S n)); [|lia]. reflexivity.
      * rewrite rw_miss by congruence. rewrite IH by lia. rewrite EL.
        destruct (Nat.leb_spec (S (S a)) L), (Nat.ltb_spec L (S (S a) + n)),
          (Nat.leb_spec (S a) L), (Nat.ltb_spec L (S a + S n)); cbn [andb]; auto; lia.
    + rewrite rw_miss by congruence. rewrite IH by lia. now rewrite EL.
Qed.

(** ** The substitutions in turn, on the whole text *)

Lemma apply_replacements_levels (t : nat) (levels : list nat) (md : text) :
  apply_replacements
    (map (fun x => (header_re x, header_text (x - t + 1))) levels) md
  = sub_levels t levels md.
Proof.
  unfold apply_replacements, sub_levels. revert md.
  induction levels as [|x xs IH]; intros md; [reflexivity|]. simpl. apply IH.
Qed.

Lemma sub_levels_cons (t x : nat) (xs : list nat) (md : text) :
  sub_levels t (x :: xs) md
  = sub_levels t xs (Re.sub (header_re x) (header_text (x - t + 1)) md).
Proof. reflexivity. Qed.

Lemma sub_levels_lines (t : nat) (levels : list nat) : forall md,
  Forall (fun x => 1 <= x) levels ->
  sub_levels t levels md = unlines (map (rw_levels t levels) (lines md)).
Proof.
  induction levels as [|x xs IH]; intros md Hpos.
  - unfold sub_levels, rw_levels. simpl. now rewrite map_id, unlines_lines.
  - inversion Hpos as [|? ? Hx Hxs]; subst.
    destruct x as [|x]; [lia|].
    rewrite sub_levels_cons, IH by assumption. rewrite sub_header.
    rewrite lines_unlines.
    + rewrite map_map. reflexivity.
    + pose proof (lines_nonempty md). destruct (lines md); [congruence|discriminate].
    + apply Forall_map. eapply Forall_impl; [|apply lines_no_newline].
      intros l Hl. now apply rw_no_newline.
Qed.

Lemma seq_positive (a n : nat) : Forall (fun x => 1 <= x) (seq (S a) n).
Proof. apply Forall_forall. intros x Hx. apply in_seq in Hx. lia. Qed.

(** The one-pass rewrite of a line, in the terms of the code: its loop
    bound and its heading text. *)
Lemma shift_line_code (t : nat) (l : text) :
  shift_line t l
  = match heading_level l with
    | Some L =>
        if (t <=? L) && (L <? LOWEST_HEADER_LEVEL)
        then header_text (L - t + 1) ++ skipn (L + 1) l
        else l
    | None => l
    end.
Proof. reflexivity. Qed.

Lemma shift_line_levels (t : nat) (l : text) :
  1 <= t -> rw_levels t (range t LOWEST_HEADER_LEVEL) l = shift_line t l.
Proof.
  intros Ht. rewrite shift_line_code. unfold range, LOWEST_HEADER_LEVEL.
  destruct t as [|a]; [lia|]. rewrite rw_levels_line by lia.
  destruct (heading_level l) as [L|]; [|reflexivity].
  destruct (Nat.leb_spec (S a) L), (Nat.ltb_spec L (S a + (8 - S a))), (Nat.ltb_spec L 8);
    cbn [andb]; auto; lia.
Qed.

Lemma apply_replacements_one_pass (t : nat) (md : text) :
  1 <= t -> apply_replacements (replacements t) md = rewrite_one_pass t md.
Proof.
  intros Ht. unfold replacements, rewrite_one_pass.
  rewrite apply_replacements_levels.
  destruct t as [|a]; [lia|].
  rewrite sub_levels_lines by apply seq_positive.
  f_equal. apply map_ext. intros l. now apply shift_line_levels.
Qed.

Lemma normalize_headers_some (md : text) (t : nat) :
  get_top_level_header md = Some t -> 1 < t ->
  normalize_headers md = rewrite_one_pass t md.
Proof.
  intros Ht H1. unfold normalize_headers. rewrite Ht.
  destruct (Nat.eqb_spec t 1); [lia|]. apply apply_replacements_one_pass. lia.
Qed.

Lemma firstn_seq_min (j a n : nat) : firstn j (seq a n) = seq a (Nat.min j n).
Proof.
  revert a n. induction j as [|j IH]; intros a [|n]; try reflexivity.
  simpl. now rewrite IH.
Qed.

(** After the substitutions for the first [j] levels, a line that is a
    heading of the next level is a line of the original text. *)
Lemma partial_sub_untouched (md : text) (t j i : nat) (l : text) :
  1 <= t ->
  nth_error (lines (apply_replacements (firstn j (replacements t)) md)) i = Some l ->
  heading_level l = Some (t + j) ->
  nth_error (lines md) i = Some l.
Proof.
  intros Ht Hnth Hl. unfold replacements, range in Hnth.
  rewrite firstn_map, firstn_seq_min, apply_replacements_levels in Hnth.
  destruct t as [|a]; [lia|].
  remember (Nat.min j (LOWEST_HEADER_LEVEL - S a)) as n eqn:En.
  assert (Hn : n <= j) by lia. clear En.
  rewrite sub_levels_lines in Hnth by apply seq_positive.
  rewrite lines_unlines in Hnth.
  - rewrite nth_error_map in Hnth.
    destruct (nth_error (lines md) i) as [l0|]; [|discriminate].
    cbn [option_map] in Hnth. injection Hnth as Hl0. f_equal.
    rewrite rw_levels_line in Hl0 by lia.
    destruct (heading_level l0) as [L|] eqn:EL; [|exact Hl0].
    destruct ((S a <=? L) && (L <? S a + n)) eqn:Ec; [|exact Hl0].
    apply andb_prop in Ec as [E1 E2].
    apply Nat.leb_le in E1. apply Nat.ltb_lt in E2.
    rewrite <- Hl0 in Hl. replace (L - S a + 1) with (S (L - S a)) in Hl by lia.
    rewrite heading_level_header_text in Hl. injection Hl as Hl. lia.
  - pose proof (lines_nonempty md). destruct (lines md); [congruence|discriminate].
  - apply Forall_map. eapply Forall_impl; [|apply lines_no_newline].
    intros l0 Hl0. unfold rw_levels.
    generalize (seq (S a) n).
    intros xs. revert l0 Hl0. induction xs as [|x xs IH]; intros l0 Hl0; [assumption|].
    simpl. apply IH. now apply rw_no_newline.
Qed.

(** ** Detection followed by the rewrite *)

Lemma heading_level_pos (l : text) (x : nat) : heading_level l = Some x -> 1 <= x.
Proof.
  unfold heading_level. destruct (leading_hashes l); [discriminate|].
  destruct (skipn _ l) as [|c ?]; [discriminate|].
  destruct (PyStr.eqc c space); [|discriminate]. intros [= <-]. lia.
Qed.

Lemma heading_split (l : text) (x : nat) :
  heading_level l = Some x -> l = header_text x ++ skipn (x + 1) l.
Proof.
  intros H. pose proof (heading_level_pos _ H) as Hx.
  destruct x as [|n]; [lia|]. apply starts_with_heading in H.
  apply starts_with_split in H. now rewrite header_text_length in H.
Qed.

Lemma shift_line_1 (l : text) : shift_line 1 l = l.
Proof.
  rewrite shift_line_code. destruct (heading_level l) as [L|] eqn:EL; [|reflexivity].
  destruct ((1 <=? L) && (L <? LOWEST_HEADER_LEVEL)); [|reflexivity].
  replace (L - 1 + 1) with L by (apply heading_level_pos in EL; lia).
  symmetry. now apply heading_split.
Qed.

Lemma shift_line_no_newline (t : nat) (l : text) :
  no_newline l -> no_newline (shift_line t l).
Proof.
  rewrite shift_line_code. unfold no_newline. intros H.
  destruct (heading_level l) as [L|]; [|assumption].
  destruct ((t <=? L) && (L <? LOWEST_HEADER_LEVEL)); [|assumption].
  intros Hin. apply in_app_or in Hin as [Hin|Hin].
  - now apply (header_text_no_newline (L - t + 1)).
  - apply H. rewrite <- (firstn_skipn (L + 1) l). apply in_or_app. now right.
Qed.

Lemma lines_rewrite_one_pass (t : nat) (md : text) :
  lines (rewrite_one_pass t md) = map (shift_line t) (lines md).
Proof.
  unfold rewrite_one_pass. apply lines_unlines.
  - pose proof (lines_nonempty md). destruct (lines md); [congruence|discriminate].
  - apply Forall_map. eapply Forall_impl; [|apply lines_no_newline].
    intros l. apply shift_line_no_newline.
Qed.

Lemma lines_normalize_headers (md : text) (t : nat) :
  get_top_level_header md = Some t ->
  lines (normalize_headers md) = map (shift_line t) (lines md).
Proof.
  intros Ht. pose proof Ht as Hr. apply get_top_level_header_some in Hr as (Hr & _).
  destruct (Nat.eq_dec t 1) as [->|Hne].
  - unfold normalize_headers. rewrite Ht. cbn [Nat.eqb].
    rewrite (map_ext _ (fun l => l) shift_line_1). now rewrite map_id.
  - rewrite normalize_headers_some with (t := t) by (auto; lia).
    apply lines_rewrite_one_pass.
Qed.

Lemma heading_level_shift_line (t : nat) (l : text) (x : nat) :
  1 <= t -> heading_level l = Some x -> t <= x ->
  heading_level (shift_line t l) = Some (new_level t x).
Proof.
  intros Ht Hl Hx. rewrite shift_line_code. unfold new_level. rewrite Hl.
  destruct (Nat.leb_spec t x); [|lia]. cbn [andb].
  destruct (x <? LOWEST_HEADER_LEVEL); [|assumption].
  replace (x - t + 1) with (S (x - t)) by lia. apply heading_level_header_text.
Qed.

Lemma shift_line_plain (t : nat) (l : text) :
  heading_level l = None -> shift_line t l = l.
Proof. intros H. unfold shift_line. now rewrite H. Qed.

Lemma shift_line_deep (t : nat) (l : text) (x : nat) :
  heading_level l = Some x -> LOWEST_HEADER_LEVEL <= x -> shift_line t l = l.
Proof.
  intros H Hx. rewrite shift_line_code, H.
  destruct (Nat.ltb_spec x LOWEST_HEADER_LEVEL); [lia|]. now rewrite andb_false_r.
Qed.

(** C4. When the detected top heading level is [t > 1], the rewrite the code
    performs, one substitution per level from [t] to 7 in ascending order,
    gives the same text as rewriting every heading line of the original text
    in one pass with the mapping L |-> L - t + 1: a line that is a heading of
    a level [L] from [t] to 7 gets [L - t + 1] hashes in place of its [L],
    every line that is no heading or a heading of a level above 7 stays, and
    the lines stay as many.  At each step the lines the next substitution
    matches are lines of the original text, never lines an earlier
    substitution produced. *)
Theorem heading_rewrite_is_one_pass (md : text) (t : nat) :
  get_top_level_header md = Some t -> 1 < t ->
  normalize_headers md = rewrite_one_pass t md
  /\ apply_replacements (replacements t) md = rewrite_one_pass t md
  /\ map snd (replacements t)
     = map (fun L => repeat hash (L - t + 1) ++ [space]) (seq t (8 - t))
  /\ length (lines (normalize_headers md)) = length (lines md)
  /\ (forall i l L,
        nth_error (lines md) i = Some l -> heading_level l = Some L -> t <= L <= 7 ->
        nth_error (lines (normalize_headers md)) i
        = Some ((repeat hash (L - t + 1) ++ [space]) ++ skipn (L + 1) l))
  /\ (forall i l,
        nth_error (lines md) i = Some l ->
        (forall L, heading_level l = Some L -> 7 < L) ->
        nth_error (lines (normalize_headers md)) i = Some l)
  /\ forall j i l,
       nth_error (lines (apply_replacements (firstn j (replacements t)) md)) i = Some l ->
       heading_level l = Some (t + j) ->
       nth_error (lines md) i = Some l.
Proof.
  intros Ht H1.
  pose proof (lines_normalize_headers md Ht) as Hlines.
  split; [now apply normalize_headers_some|].
  split; [apply apply_replacements_one_pass; lia|].
  split; [unfold replacements, range; now rewrite map_map|].
  split; [now rewrite Hlines, length_map|].
  split; [|split].
  - intros i l L Hi HL HtL. rewrite Hlines, nth_error_map, Hi. cbn [option_map].
    unfold shift_line. rewrite HL.
    destruct (Nat.leb_spec t L), (Nat.leb_spec L 7); try lia. reflexivity.
  - intros i l Hi Hdeep. rewrite Hlines, nth_error_map, Hi. cbn [option_map].
    unfold shift_line. destruct (heading_level l) as [L|]; [|reflexivity].
    specialize (Hdeep L eq_refl).
    destruct (Nat.leb_spec L 7); [lia|]. now rewrite andb_false_r.
  - intros j i l. apply partial_sub_untouched. lia.
Qed.

Lemma heading_rewrite_is_one_pass_witness :
  get_top_level_header nested_headings = Some 2
  /\ 1 < 2
  /\ normalize_headers nested_headings
     = str "# A
text
## B
###### G
######## H".
Proof.
  assert (Ht : get_top_level_header nested_headings = Some 2) by (vm_compute; reflexivity).
  assert (H2 : 1 < 2) by lia.
  split; [exact Ht|]. split; [exact H2|].
  rewrite (proj1 (@heading_rewrite_is_one_pass nested_headings 2 Ht H2)).
  vm_compute. reflexivity.
Defined.

Lemma new_level_order (t a b : nat) :
  1 <= t -> t <= a -> t <= b ->
  (a < b <-> new_level t a < new_level t b) /\ (a = b <-> new_level t a = new_level t b).
Proof.
  intros Ht Ha Hb. unfold new_level, LOWEST_HEADER_LEVEL.
  destruct (Nat.ltb_spec a 8), (Nat.ltb_spec b 8); lia.
Qed.

Lemma detected_level (md : text) (L : nat) :
  1 <= L <= 7 ->
  (exists l, In l (lines md) /\ heading_level l = Some L) ->
  (forall l L', In l (lines md) -> heading_level l = Some L' -> L <= L') ->
  get_top_level_header md = Some L.
Proof.
  intros HL Hex Hmin. apply get_top_level_header_some.
  split; [assumption|]. split.
  - destruct L as [|n]; [lia|]. now apply has_level_iff.
  - intros t' Ht'. destruct t' as [|n]; [lia|].
    apply has_level_false_iff. intros l Hin Hl.
    specialize (Hmin l _ Hin Hl). lia.
Qed.

Lemma detected_level_inv (md : text) (t : nat) :
  get_top_level_header md = Some t ->
  1 <= t <= 7
  /\ (exists l, In l (lines md) /\ heading_level l = Some t)
  /\ (forall l L', In l (lines md) -> heading_level l = Some L' -> t <= L').
Proof.
  intros H. apply get_top_level_header_some in H as (Hr & Ht & Hmin).
  split; [assumption|]. split.
  - destruct t as [|n]; [lia|]. now apply has_level_iff.
  - intros l L' Hin Hl.
    destruct (Nat.lt_ge_cases L' t) as [Hlt|]; [|assumption]. exfalso.
    pose proof (heading_level_pos _ Hl) as Hpos.
    destruct L' as [|n]; [lia|].
    specialize (Hmin (S n) ltac:(lia)).
    rewrite has_level_false_iff in Hmin. now apply (Hmin l Hin).
Qed.

Lemma normalized_top_level (md : text) (t : nat) :
  get_top_level_header md = Some t ->
  get_top_level_header (normalize_headers md) = Some 1.
Proof.
  intros Ht. pose proof (detected_level_inv _ Ht) as (Hr & (l & Hin & Hl) & Hmin).
  apply get_top_level_header_some. split; [lia|]. split; [|intros; lia].
  apply has_level_iff. exists (shift_line t l). split.
  - rewrite (lines_normalize_headers _ Ht). now apply in_map.
  - rewrite (heading_level_shift_line (t := t) l (x := t)) by (auto; lia).
    unfold new_level, LOWEST_HEADER_LEVEL.
    destruct (Nat.ltb_spec t 8); [f_equal|]; lia.
Qed.

Lemma normalize_headers_none (md : text) :
  get_top_level_header md = None -> normalize_headers md = md.
Proof. intros H. unfold normalize_headers. now rewrite H. Qed.

Lemma normalize_headers_top_1 (md : text) :
  get_top_level_header md = Some 1 -> normalize_headers md = md.
Proof. intros H. unfold normalize_headers. now rewrite H. Qed.

(** C5. Detection followed by the rewrite.
    (a) When the text has a heading of level [L] (1 <= L <= 7) and none of a
    lower level, [L] is the level detected, the text produced has top level
    exactly 1 and as many lines as before; a heading of level [x] becomes a
    heading of level [new_level L x] on the same line, a line that is no
    heading is left as it is, and of two headings of the original text the
    first is deeper than, as deep as or less deep than the second exactly
    when that holds afterwards.
    (b) When the text has no heading of a level from 1 to 7, nothing is
    detected and the text is unchanged.
    (c) The level detected is always between 1 and 7, and a heading of level
    8 or deeper is left as it is. *)
Theorem heading_normalization (md : text) :
  (forall L,
      1 <= L <= 7 ->
      (exists l, In l (lines md) /\ heading_level l = Some L) ->
      (forall l L', In l (lines md) -> heading_level l = Some L' -> L <= L') ->
      get_top_level_header md = Some L
      /\ get_top_level_header (normalize_headers md) = Some 1
      /\ length (lines (normalize_headers md)) = length (lines md)
      /\ (forall i l, nth_error (lines md) i = Some l ->
            exists l', nth_error (lines (normalize_headers md)) i = Some l'
                       /\ heading_level l' = option_map (new_level L) (heading_level l)
                       /\ (heading_level l = None -> l' = l))
      /\ (forall i j li lj a b,
            nth_error (lines md) i = Some li -> nth_error (lines md) j = Some lj ->
            heading_level li = Some a -> heading_level lj = Some b ->
            exists li' lj' a' b',
              nth_error (lines (normalize_headers md)) i = Some li'
              /\ nth_error (lines (normalize_headers md)) j = Some lj'
              /\ heading_level li' = Some a' /\ heading_level lj' = Some b'
              /\ (a < b <-> a' < b') /\ (a = b <-> a' = b')))
  /\ ((forall l L', In l (lines md) -> heading_level l = Some L' ->
         LOWEST_HEADER_LEVEL <= L') ->
      get_top_level_header md = None /\ normalize_headers md = md)
  /\ (forall t, get_top_level_header md = Some t -> 1 <= t < LOWEST_HEADER_LEVEL)
  /\ (forall i l L',
        nth_error (lines md) i = Some l -> heading_level l = Some L' ->
        LOWEST_HEADER_LEVEL <= L' ->
        nth_error (lines (normalize_headers md)) i = Some l).
Proof.
  split; [|split; [|split]].
  - intros L HL Hex Hmin.
    pose proof (detected_level md HL Hex Hmin) as Ht.
    pose proof (lines_normalize_headers _ Ht) as Hlines.
    assert (Hline : forall i l, nth_error (lines md) i = Some l ->
              nth_error (lines (normalize_headers md)) i = Some (shift_line L l)).
    { intros i l Hi. rewrite Hlines, nth_error_map, Hi. reflexivity. }
    assert (Hlevel : forall i l x, nth_error (lines md) i = Some l ->
              heading_level l = Some x ->
              L <= x /\ heading_level (shift_line L l) = Some (new_level L x)).
    { intros i l x Hi Hx.
      assert (L <= x) by (apply (Hmin l); [eapply nth_error_In; eauto|assumption]).
      split; [assumption|]. apply heading_level_shift_line; auto; lia. }
    split; [assumption|]. split; [now apply normalized_top_level with (t := L)|].
    split; [now rewrite Hlines, length_map|]. split.
    + intros i l Hi. exists (shift_line L l). split; [now apply Hline|].
      destruct (heading_level l) as [x|] eqn:Ex.
      * split; [|discriminate]. now apply (Hlevel i).
      * rewrite (shift_line_plain _ _ Ex). auto.
    + intros i j li lj a b Hi Hj Ha Hb.
      destruct (Hlevel i li a Hi Ha) as [Hla Ha'].
      destruct (Hlevel j lj b Hj Hb) as [Hlb Hb'].
      exists (shift_line L li), (shift_line L lj), (new_level L a), (new_level L b).
      repeat (split; [solve [auto]|]).
      apply new_level_order; lia.
  - intros Hdeep. assert (Hnone : get_top_level_header md = None).
    { apply get_top_level_header_none. intros t' Ht'.
      destruct t' as [|n]; [lia|]. apply has_level_false_iff.
      intros l Hin Hl. specialize (Hdeep l _ Hin Hl). unfold LOWEST_HEADER_LEVEL in Hdeep. lia. }
    split; [assumption|]. now apply normalize_headers_none.
  - intros t Ht. apply get_top_level_header_some in Ht. unfold LOWEST_HEADER_LEVEL. lia.
  - intros i l L' Hi Hl HL'.
    destruct (get_top_level_header md) as [t|] eqn:Ht.
    + rewrite (lines_normalize_headers _ Ht), nth_error_map, Hi. cbn [option_map].
      f_equal. now apply shift_line_deep with (x := L').
    + now rewrite normalize_headers_none.
Qed.

Lemma heading_normalization_witness :
  let md := str "intro
### Setup
######## too deep
#### Details
### Usage" in
  get_top_level_header md = Some 3
  /\ get_top_level_header (normalize_headers md) = Some 1
  /\ normalize_headers md = str "intro
# Setup
######## too deep
## Details
# Usage".
Proof.
  intros md.
  assert (H : get_top_level_header md = Some 3
              /\ get_top_level_header (normalize_headers md) = Some 1).
  { assert (Ha : 1 <= 3 <= 7) by lia.
    assert (Hb : exists l, In l (lines md) /\ heading_level l = Some 3).
    { exists (str "### Setup"). split; [simpl; auto|reflexivity]. }
    assert (Hc : forall l L', In l (lines md) -> heading_level l = Some L' -> 3 <= L').
    { intros l L' Hin Hl. simpl in Hin.
      repeat (destruct Hin as [<-|Hin];
              [vm_compute in Hl; first [discriminate|injection Hl as <-; lia]|]).
      destruct Hin. }
    destruct (proj1 (heading_normalization md) 3 Ha Hb Hc) as (H1 & H2 & _).
    split; assumption. }
  destruct H as [H1 H2]. split; [assumption|]. split; [assumption|reflexivity].
Defined.

(** C6. Applying detection and rewrite twice gives the same text as applying
    them once: after one application the level detected is 1 or none. *)
Theorem normalize_headers_idempotent (md : text) :
  normalize_headers (normalize_headers md) = normalize_headers md
  /\ (get_top_level_header (normalize_headers md) = Some 1
      \/ get_top_level_header (normalize_headers md) = None).
Proof.
  destruct (get_top_level_header md) as [t|] eqn:Ht.
  - pose proof (normalized_top_level _ Ht) as H1.
    split; [now apply normalize_headers_top_1|now left].
  - rewrite (normalize_headers_none _ Ht). rewrite Ht.
    split; [now apply normalize_headers_none|now right].
Qed.

(** ** The matcher and what a pattern matches

    What the backtracking matcher returns is a match in the sense of
    [Matches], and it finds a match whenever there is one. *)

Lemma rep_sound {X} (greedy : bool) (cs : Re.charset) (rest : text) :
  forall lo hi pos prev (k : nat -> option ascii -> text -> option X) a,
    Re.rep greedy cs lo hi rest pos prev k = Some a ->
    exists l rest',
      rest = l ++ rest' /\ forallb (Re.cs_match cs) l = true
      /\ lo <= length l /\ hi_ok hi (length l)
      /\ k (pos + length l) (last (map Some l) prev) rest' = Some a.
Proof.
  induction rest as [|c rest IH]; intros lo hi pos prev k a H.
  - cbn beta iota zeta delta [Re.rep] in H.
    assert (Hk : lo = 0 /\ k pos prev [] = Some a).
    { destruct greedy, lo; cbn in H; try discriminate; split; auto.
      destruct (k pos prev []); congruence. }
    destruct Hk as [-> Hk]. exists [], []. cbn [length app forallb map last].
    rewrite Nat.add_0_r. repeat split; auto. destruct hi; simpl; lia.
  - cbn beta iota zeta delta [Re.rep] in H.
    assert (Hcases :
      (lo = 0 /\ k pos prev (c :: rest) = Some a)
      \/ (Re.cs_match cs c = true /\ Re.hi_allows hi = true
          /\ Re.rep greedy cs (pred lo) (option_map pred hi) rest (S pos) (Some c) k
             = Some a)).
    { destruct (Re.cs_match cs c && Re.hi_allows hi) eqn:E.
      - apply andb_prop in E as [E1 E2].
        destruct greedy.
        + destruct (Re.rep true cs (pred lo) (option_map pred hi) rest (S pos) (Some c) k)
            eqn:Er; [right; now injection H as <-|].
          destruct lo; [now left|discriminate].
        + destruct lo; [|now right].
          destruct (k pos prev (c :: rest)) eqn:Ek; [left; now injection H as <-|now right].
      - destruct greedy.
        + destruct lo; [now left|discriminate].
        + destruct lo; [|discriminate].
          destruct (k pos prev (c :: rest)); [now left|discriminate]. }
    destruct Hcases as [[-> Hk]|(Hc & Hhi & Hr)].
    + exists [], (c :: rest). cbn [length app forallb map last].
      rewrite Nat.add_0_r. repeat split; auto. destruct hi; simpl; lia.
    + apply IH in Hr as (l & rest' & Hrest & Hall & Hlo & Hhi' & Hk).
      exists (c :: l), rest'. cbn [length app forallb map].
      rewrite last_cons, Hc, Hall, Hrest.
      replace (pos + S (length l)) with (S pos + length l) by lia.
      repeat split; auto; [lia|].
      destruct hi as [[|h]|]; simpl in *; try discriminate; auto; lia.
Qed.

Lemma rep_complete {X} (greedy : bool) (cs : Re.charset) (l : text) :
  forall rest' lo hi pos prev (k : nat -> option ascii -> text -> option X),
    forallb (Re.cs_match cs) l = true -> lo <= length l -> hi_ok hi (length l) ->
    k (pos + length l) (last (map Some l) prev) rest' <> None ->
    Re.rep greedy cs lo hi (l ++ rest') pos prev k <> None.
Proof.
  induction l as [|c l IH]; intros rest' lo hi pos prev k Hall Hlo Hhi Hk.
  - cbn [length app map last] in *. rewrite Nat.add_0_r in Hk.
    assert (lo = 0) by lia. subst lo.
    destruct rest' as [|c rest']; cbn beta iota zeta delta [Re.rep].
    + destruct greedy; [assumption|]. destruct (k pos prev []); congruence.
    + destruct greedy.
      * destruct (Re.cs_match cs c && Re.hi_allows hi); [|assumption].
        destruct (Re.rep true cs _ _ rest' (S pos) (Some c) k); [discriminate|assumption].
      * destruct (k pos prev (c :: rest')); [discriminate|congruence].
  - cbn [length app map forallb] in *. rewrite last_cons in Hk.
    apply andb_prop in Hall as [Hc Hall].
    assert (Hallow : Re.hi_allows hi = true)
      by (destruct hi as [[|h]|]; simpl in *; auto; lia).
    assert (Hrec : Re.rep greedy cs (pred lo) (option_map pred hi) (l ++ rest') (S pos)
                     (Some c) k <> None).
    { apply IH; auto; [lia| |].
      - destruct hi as [[|h]|]; simpl in *; auto; lia.
      - now replace (S pos + length l) with (pos + S (length l)) by lia. }
    cbn beta iota zeta delta [Re.rep]. rewrite Hc, Hallow. cbn [andb].
    destruct greedy.
    + destruct (Re.rep true cs _ _ (l ++ rest') (S pos) (Some c) k); [discriminate|congruence].
    + destruct lo; [|assumption].
      destruct (k pos prev (c :: l ++ rest')); [discriminate|assumption].
Qed.

Lemma m_sound {X} (r : Re.regex) : forall st (k : Re.mstate -> option X) a,
  Re.m r st k = Some a -> exists st', Matches r st st' /\ k st' = Some a.
Proof.
  induction r as [|cs|greedy lo hi cs|ml|ml|n r IH|r1 IH1 r2 IH2]; intros st k a H;
    cbn [Re.m] in H.
  - exists st. split; [constructor|assumption].
  - destruct (Re.ms_rest st) as [|c rest'] eqn:Er; [discriminate|].
    destruct (Re.cs_match cs c) eqn:Ec; [|discriminate].
    exists (advance st [c] rest'). split; [now constructor|].
    unfold advance. cbn [length map last]. now rewrite Nat.add_1_r.
  - apply rep_sound in H as (l & rest' & Hrest & Hall & Hlo & Hhi & Hk).
    exists (advance st l rest'). split; [now constructor|assumption].
  - destruct (Re.at_bol ml (Re.ms_prev st)) eqn:E; [|discriminate].
    exists st. split; [now constructor|assumption].
  - destruct (Re.at_eol ml (Re.ms_rest st)) eqn:E; [|discriminate].
    exists st. split; [now constructor|assumption].
  - apply IH in H as (st' & Hm & Hk).
    eexists. split; [apply M_group; eassumption|assumption].
  - apply IH1 in H as (st1 & Hm1 & H). apply IH2 in H as (st2 & Hm2 & Hk).
    exists st2. split; [econstructor; eassumption|assumption].
Qed.

Lemma m_complete {X} (r : Re.regex) (st st' : Re.mstate) :
  Matches r st st' ->
  forall k : Re.mstate -> option X, k st' <> None -> Re.m r st k <> None.
Proof.
  induction 1 as [st|cs c rest' st Hr Hc|greedy lo hi cs l rest' st Hr Hall Hlo Hhi
                  |ml st Hb|ml st He|n r st st' Hm IH|r1 r2 st st1 st2 H1 IH1 H2 IH2];
    intros k Hk; cbn [Re.m].
  - assumption.
  - rewrite Hr, Hc. unfold advance in Hk. cbn [length map last] in Hk.
    now rewrite Nat.add_1_r in Hk.
  - rewrite Hr. now apply rep_complete.
  - now rewrite Hb.
  - now rewrite He.
  - apply IH. assumption.
  - apply IH1. apply IH2. assumption.
Qed.

(** ** Scanning a text for matches *)

Lemma match_at_matches (r : Re.regex) (pos : nat) (prev : option ascii) (rest : text) :
  Re.match_at r pos prev rest <> None
  <-> exists st', Matches r (Re.MState pos prev rest []) st'.
Proof.
  unfold Re.match_at. split.
  - intros H. destruct (Re.m r _ _) as [mt|] eqn:E; [|congruence].
    apply m_sound in E as (st' & Hm & _). now exists st'.
  - intros (st' & Hm). apply (m_complete Hm). discriminate.
Qed.

Lemma search_from_matches (r : Re.regex) (rest : text) : forall pos prev,
  Re.search_from r rest pos prev <> None
  <-> exists pre rest' st',
        rest = pre ++ rest'
        /\ Matches r (Re.MState (pos + length pre) (last (map Some pre) prev) rest' []) st'.
Proof.
  induction rest as [|c rest IH]; intros pos prev; cbn [Re.search_from].
  - split.
    + intros H. destruct (Re.match_at r pos prev []) eqn:E; [|congruence].
      assert (Hm : Re.match_at r pos prev [] <> None) by congruence.
      apply match_at_matches in Hm as (st' & Hm).
      exists [], [], st'. cbn [length map last app]. now rewrite Nat.add_0_r.
    + intros (pre & rest' & st' & Hs & Hm).
      symmetry in Hs. apply app_eq_nil in Hs as [-> ->].
      cbn [length map last] in Hm. rewrite Nat.add_0_r in Hm.
      assert (Hne : Re.match_at r pos prev [] <> None)
        by (apply match_at_matches; now exists st').
      destruct (Re.match_at r pos prev []); congruence.
  - split.
    + intros H. destruct (Re.match_at r pos prev (c :: rest)) eqn:E.
      * assert (Hm : Re.match_at r pos prev (c :: rest) <> None) by congruence.
        apply match_at_matches in Hm as (st' & Hm).
        exists [], (c :: rest), st'. cbn [length map last app]. now rewrite Nat.add_0_r.
      * apply IH in H as (pre & rest' & st' & Hs & Hm).
        exists (c :: pre), rest', st'. cbn [length map app]. rewrite last_cons, Hs.
        split; [reflexivity|].
        now replace (pos + S (length pre)) with (S pos + length pre) by lia.
    + intros (pre & rest' & st' & Hs & Hm).
      destruct (Re.match_at r pos prev (c :: rest)) eqn:E; [discriminate|].
      destruct pre as [|c' pre].
      * cbn [length map last app] in *. rewrite Nat.add_0_r in Hm. subst rest'.
        exfalso. assert (Hne : Re.match_at r pos prev (c :: rest) <> None)
          by (apply match_at_matches; now exists st').
        congruence.
      * cbn [length map app] in *. injection Hs as <- ->. rewrite last_cons in Hm.
        apply IH. exists pre, rest', st'. split; [reflexivity|].
        now replace (S pos + length pre) with (pos + S (length pre)) by lia.
Qed.

Lemma search_match_exists (r : Re.regex) (s : text) :
  Re.search r s <> None <-> match_exists r s.
Proof. unfold Re.search, match_exists. now rewrite search_from_matches. Qed.

Lemma finditer_from_search (r : Re.regex) (rest : text) : forall pos prev,
  Re.finditer_from r rest pos prev 0 = [] <-> Re.search_from r rest pos prev = None.
Proof.
  induction rest as [|c rest IH]; intros pos prev;
    cbn [Re.finditer_from Re.search_from];
    destruct (Re.match_at r pos prev _); cbn [pred]; try rewrite IH;
    split; congruence.
Qed.

Lemma finditer_match_exists (r : Re.regex) (s : text) :
  Re.finditer r s <> [] <-> match_exists r s.
Proof.
  rewrite <- search_match_exists. unfold Re.finditer, Re.search.
  now rewrite finditer_from_search.
Qed.

Lemma finditer_from_match_at (r : Re.regex) (mt : Re.rmatch) (rest : text) :
  forall pos prev skip,
    In mt (Re.finditer_from r rest pos prev skip) ->
    exists pos' prev' rest', Re.match_at r pos' prev' rest' = Some mt.
Proof.
  induction rest as [|c rest IH]; intros pos prev skip Hin;
    cbn [Re.finditer_from] in Hin.
  - destruct skip; [|destruct Hin].
    destruct (Re.match_at r pos prev []) eqn:E; [|destruct Hin].
    destruct Hin as [<-|[]]. eauto.
  - destruct skip.
    + destruct (Re.match_at r pos prev (c :: rest)) eqn:E.
      * destruct Hin as [<-|Hin]; eauto.
      * eauto.
    + eauto.
Qed.

(** *** Groups *)

Lemma matches_caps_kept (r : Re.regex) (st st' : Re.mstate) (n : nat) :
  Matches r st st' ->
  Re.lookup_group n (Re.ms_caps st) <> None -> Re.lookup_group n (Re.ms_caps st') <> None.
Proof.
  induction 1; cbn [advance Re.ms_caps Re.lookup_group]; auto.
  intros H0. destruct (n0 =? n); [discriminate|auto].
Qed.

Lemma matches_defines (r : Re.regex) (st st' : Re.mstate) (n : nat) :
  Matches r st st' -> defines_group n r = true ->
  Re.lookup_group n (Re.ms_caps st') <> None.
Proof.
  induction 1 as [| | | | |g r st st' Hm IH|r1 r2 st st1 st2 H1 IH1 H2 IH2];
    cbn [defines_group]; try discriminate; intros Hd.
  - cbn [Re.ms_caps Re.lookup_group].
    destruct (g =? n) eqn:E; [discriminate|]. cbn [orb] in Hd. auto.
  - apply orb_prop in Hd as [Hd|Hd]; [|auto].
    eapply matches_caps_kept; eauto.
Qed.

Lemma match_at_group (r : Re.regex) (pos : nat) (prev : option ascii) (rest s : text)
    (mt : Re.rmatch) (n : nat) :
  Re.match_at r pos prev rest = Some mt -> defines_group n r = true ->
  exists g, Re.group s mt n = Some g.
Proof.
  unfold Re.match_at. intros H Hd.
  apply m_sound in H as (st' & Hm & [= <-]).
  pose proof (matches_defines n Hm Hd) as Hl.
  unfold Re.group. cbn [Re.m_caps].
  destruct (Re.lookup_group n (Re.ms_caps st')) as [[a b]|]; [eauto|congruence].
Qed.

(** ** Computations *)

Lemma bind_ok {X Y} (c : M X) (k : X -> M Y) (evs : list event) (y : Y) :
  World.bind c k = (evs, Ok y) ->
  exists evs1 x evs2, c = (evs1, Ok x) /\ k x = (evs2, Ok y) /\ evs = evs1 ++ evs2.
Proof.
  unfold World.bind. destruct c as [evs1 [x|e]]; [|discriminate].
  destruct (k x) as [evs2 r] eqn:Ek. intros [= <- ->]. now exists evs1, x, evs2.
Qed.

Lemma bind_events {X Y} (c : M X) (k : X -> M Y) (evs1 : list event) (x : X) :
  c = (evs1, Ok x) -> World.bind c k = (evs1 ++ fst (k x), snd (k x)).
Proof. intros ->. unfold World.bind. now destruct (k x). Qed.

Lemma bind_raised {X Y} (c : M X) (k : X -> M Y) (evs : list event) (e : exn) :
  c = (evs, Raised e) -> World.bind c k = (evs, Raised e).
Proof. now intros ->. Qed.

Lemma bind_forall {X Y} (P : event -> Prop) (c : M X) (k : X -> M Y) :
  Forall P (fst c) -> (forall x, Forall P (fst (k x))) -> Forall P (fst (World.bind c k)).
Proof.
  intros Hc Hk. unfold World.bind. destruct c as [evs [x|e]]; [|assumption].
  specialize (Hk x). destruct (k x). cbn [fst] in *. apply Forall_app. now split.
Qed.

Lemma for_each_forall {X S} (P : event -> Prop) (xs : list X) (body : S -> X -> M S) :
  (forall s x, Forall P (fst (body s x))) ->
  forall s, Forall P (fst (for_each xs body s)).
Proof.
  intros Hb. induction xs as [|x xs IH]; intros s; cbn [for_each].
  - constructor.
  - apply bind_forall; auto.
Qed.

(** When every round of a loop ends well and leaves the state in [I], so
    does the loop; with nothing to go through the state is the initial one. *)
Lemma for_each_ok {X S} (I : S -> Prop) (xs : list X) (body : S -> X -> M S) :
  (forall s x, In x xs -> exists evs s', body s x = (evs, Ok s') /\ I s') ->
  forall s, exists evs s',
    for_each xs body s = (evs, Ok s')
    /\ match xs with [] => s' = s | _ :: _ => I s' end.
Proof.
  induction xs as [|x xs IH]; intros Hb s; cbn [for_each].
  - now exists [], s.
  - destruct (Hb s x (or_introl eq_refl)) as (evs1 & s1 & Hx & HI).
    destruct (IH (fun s x Hin => Hb s x (or_intror Hin)) s1) as (evs2 & s2 & Hxs & HI2).
    exists (evs1 ++ evs2), s2. rewrite (bind_events _ Hx), Hxs. split; [reflexivity|].
    destruct xs; [now subst|assumption].
Qed.

(** A loop raises when one of its rounds raises whatever the state. *)
Lemma for_each_raises {X S} (xs : list X) (body : S -> X -> M S) (x : X) :
  In x xs -> (forall s, raises (body s x)) -> forall s, raises (for_each xs body s).
Proof.
  intros Hin Hx. induction xs as [|y xs IH]; intros s; [destruct Hin|].
  cbn [for_each]. destruct (body s y) as [evs [s1|e]] eqn:Ey.
  - destruct Hin as [->|Hin].
    + destruct (Hx s) as [e He]. rewrite Ey in He. discriminate.
    + destruct (IH Hin s1) as [e He]. exists e.
      unfold World.bind. destruct (for_each xs body s1). exact He.
  - now exists e.
Qed.

(** ** Every group a pattern opens is a group of the compiled pattern *)

Lemma parse_app (ml : bool) (s1 s2 : text) : forall ps,
  Re.parse ml (s1 ++ s2) ps
  = match steps ml s1 ps with
    | Re.Next ps' => Re.parse ml s2 ps'
    | Re.Stop o => o
    end.
Proof.
  induction s1 as [|c s1 IH]; intros ps; [reflexivity|].
  cbn [app Re.parse steps]. destruct (Re.step ml ps c); [apply IH|reflexivity].
Qed.

Lemma defines_seq_list (n : nat) (rs : list Re.regex) :
  defines_group n (seq_list rs) = existsb (defines_group n) rs.
Proof. induction rs as [|r rs IH]; [reflexivity|]. simpl. now rewrite IH. Qed.

Lemma existsb_rev {X} (f : X -> bool) (l : list X) : existsb f (rev l) = existsb f l.
Proof.
  induction l as [|x l IH]; [reflexivity|].
  simpl. rewrite existsb_app, IH. simpl. rewrite orb_false_r. apply orb_comm.
Qed.

Lemma defines_seq_of_items (n : nat) (items : list Re.regex) :
  defines_group n (Re.seq_of_items items) = existsb (defines_group n) items.
Proof. now rewrite seq_of_items_rev, defines_seq_list, existsb_rev. Qed.

Lemma keeps_same (ps : Re.pstate) (md : Re.mode) :
  step_keeps ps (Re.PState (Re.ps_items ps) (Re.ps_stack ps) (Re.ps_groups ps) md).
Proof. split; [auto|now left]. Qed.

Lemma keeps_push (ps : Re.pstate) (r : Re.regex) (ps' : Re.pstate) :
  Re.push ps r = Re.Next ps' -> step_keeps ps ps'.
Proof.
  intros [= <-]. split; [|now left]. unfold known. cbn [Re.ps_items Re.ps_stack existsb].
  intros n H. apply orb_prop in H as [H|H]; rewrite H; now rewrite ?orb_true_r.
Qed.

Lemma keeps_quantify (ps : Re.pstate) (lo : nat) (hi : option nat) (ps' : Re.pstate) :
  Re.quantify ps lo hi = Re.Next ps' -> step_keeps ps ps'.
Proof.
  unfold Re.quantify. destruct (Re.ps_items ps) as [|[] items] eqn:E; try discriminate.
  intros [= <-]. split; [|now left]. unfold known. now rewrite E.
Qed.

Lemma keeps_question (ps ps' : Re.pstate) :
  Re.question ps = Re.Next ps' -> step_keeps ps ps'.
Proof.
  unfold Re.question.
  destruct (Re.ps_items ps) as [|[| |[] | | | |] items] eqn:E; try discriminate;
    intros [= <-]; (split; [|now left]); unfold known; now rewrite E.
Qed.

Lemma keeps_step_set (ps : Re.pstate) (neg : bool) (members : list ascii) (c : ascii)
    (ps' : Re.pstate) :
  Re.step_set ps neg members c = Re.Next ps' -> step_keeps ps ps'.
Proof.
  unfold Re.step_set. destruct (PyStr.eqc c "]").
  - destruct members; [discriminate|]. apply keeps_push.
  - destruct (_ || _); [discriminate|]. intros [= <-]. apply keeps_same.
Qed.

Lemma frame_has_pair (n g : nat) (items : list Re.regex) :
  frame_has n (g, items) = (g =? n) || existsb (defines_group n) items.
Proof. reflexivity. Qed.

Lemma keeps_step_normal (ml : bool) (ps : Re.pstate) (c : ascii) (ps' : Re.pstate) :
  Re.step_normal ml ps c = Re.Next ps' -> step_keeps ps ps'.
Proof.
  unfold Re.step_normal.
  repeat match goal with
         | |- (if ?b then _ else _) = _ -> _ => destruct b
         end;
    try (intros [= <-]; apply keeps_same);
    try apply keeps_push; try apply keeps_quantify; try apply keeps_question;
    try discriminate.
  - destruct ps as [items stack groups md]. cbn [Re.ps_items Re.ps_stack Re.ps_groups].
    intros [= <-]. unfold step_keeps, known.
    cbn [Re.ps_items Re.ps_stack Re.ps_groups existsb orb].
    split.
    + intros n H. rewrite frame_has_pair.
      apply orb_prop in H as [H|H]; rewrite H; now rewrite ?orb_true_r.
    + right. split; [reflexivity|]. now rewrite frame_has_pair, Nat.eqb_refl.
  - destruct ps as [items [|[g before] stack] groups md];
      cbn [Re.ps_items Re.ps_stack Re.ps_groups]; [discriminate|].
    intros [= <-]. unfold step_keeps, known.
    cbn [Re.ps_items Re.ps_stack Re.ps_groups existsb defines_group].
    split; [|now left].
    intros n H. rewrite frame_has_pair in H. rewrite defines_seq_of_items.
    destruct (existsb (defines_group n) items); [now rewrite orb_true_r|].
    cbn [orb] in H. rewrite orb_false_r.
    destruct (g =? n); [reflexivity|]. cbn [orb] in *. exact H.
Qed.

Lemma keeps_step (ml : bool) (ps : Re.pstate) (c : ascii) (ps' : Re.pstate) :
  Re.step ml ps c = Re.Next ps' -> step_keeps ps ps'.
Proof.
  unfold Re.step. destruct (Re.ps_mode ps) as [| |digits| |neg members].
  - apply keeps_step_normal.
  - destruct (PyStr.eqc c "w"); [apply keeps_push|].
    destruct (Re.is_ascii_alnum c); [discriminate|apply keeps_push].
  - destruct (Re.digit_of c), digits; try discriminate;
      try (intros [= <-]; apply keeps_same).
    destruct (PyStr.eqc c "}"); [apply keeps_quantify|discriminate].
  - destruct (PyStr.eqc c "^"); [intros [= <-]; apply keeps_same|apply keeps_step_set].
  - apply keeps_step_set.
Qed.

Lemma steps_keep (ml : bool) (s : text) : forall ps ps',
  steps ml s ps = Re.Next ps' ->
  groups_known ps ->
  groups_known ps' /\ (forall n, known n ps = true -> known n ps' = true).
Proof.
  induction s as [|c s IH]; intros ps ps' H Hk; cbn [steps] in H.
  - injection H as <-. auto.
  - destruct (Re.step ml ps c) as [ps1|] eqn:E; [|discriminate].
    apply keeps_step in E as [Hkeep Hg].
    assert (Hk1 : groups_known ps1).
    { intros n Hn. destruct Hg as [Hg|[Hg Hnew]].
      - apply Hkeep, Hk. lia.
      - destruct (Nat.eq_dec n (S (Re.ps_groups ps))) as [->|Hne]; [assumption|].
        apply Hkeep, Hk. lia. }
    destruct (IH _ _ H Hk1) as [Hk' Hmono]. auto.
Qed.

Lemma step_stop (ml : bool) (ps : Re.pstate) (c : ascii) (o : Re.compiled) :
  Re.step ml ps c = Re.Stop o -> o = Re.ReError \/ o = Re.Unsupported.
Proof.
  unfold Re.step, Re.step_normal, Re.step_set, Re.quantify, Re.question, Re.push.
  repeat match goal with
         | |- context [if ?b then _ else _] => destruct b
         | |- context [match ?x with _ => _ end] => destruct x
         end;
    intros [= <-]; auto.
Qed.

Lemma parse_defines (ml : bool) (s : text) : forall ps r n,
  Re.parse ml s ps = Re.Compiled r -> known n ps = true -> defines_group n r = true.
Proof.
  induction s as [|c s IH]; intros ps r n H Hn; cbn [Re.parse] in H.
  - unfold Re.finish in H. unfold known in Hn.
    destruct (Re.ps_mode ps); try discriminate;
      destruct (Re.ps_stack ps); try discriminate.
    injection H as <-. rewrite defines_seq_of_items.
    cbn [existsb] in Hn. now rewrite orb_false_r in Hn.
  - destruct (Re.step ml ps c) as [ps1|o] eqn:E.
    + apply keeps_step in E as [Hkeep _]. eauto.
    + apply step_stop in E as [->| ->]; discriminate.
Qed.

Lemma steps_stop (ml : bool) (s : text) : forall ps o,
  steps ml s ps = Re.Stop o -> o = Re.ReError \/ o = Re.Unsupported.
Proof.
  induction s as [|c s IH]; intros ps o H; cbn [steps] in H; [discriminate|].
  destruct (Re.step ml ps c) as [ps1|o1] eqn:E; [eauto|].
  injection H as <-. eapply step_stop; eauto.
Qed.

Lemma internal_tail_groups (ps ps1 : Re.pstate) (r : Re.regex) :
  steps false (str "/books/(.+?)/page/(") ps = Re.Next ps1 ->
  Re.parse false (str ".+?)\)") ps1 = Re.Compiled r ->
  2 <= Re.ps_groups ps1.
Proof.
  destruct ps as [items stack g [| |digits| |neg members]]; intros Hs Hp.
  - vm_compute in Hs. injection Hs as <-. cbn. lia.
  - vm_compute in Hs. injection Hs as <-. cbn. lia.
  - destruct digits; vm_compute in Hs; discriminate.
  - vm_compute in Hs. injection Hs as <-. vm_compute in Hp. discriminate.
  - vm_compute in Hs. injection Hs as <-. vm_compute in Hp. discriminate.
Qed.

(** ** The internal-link pattern *)

Lemma internal_template_text (base : text) :
  PyStr.replace (str "__BASE_URL__") base INTERNAL_LINK_REGEX_TEMPLATE
  = base ++ internal_tail.
Proof. reflexivity. Qed.

Lemma groups_known_init : groups_known (Re.PState [] [] 0 Re.MNormal).
Proof. intros n Hn. cbn in Hn. lia. Qed.

Lemma steps_app (ml : bool) (s1 s2 : text) : forall ps ps2,
  steps ml (s1 ++ s2) ps = Re.Next ps2 ->
  exists ps1, steps ml s1 ps = Re.Next ps1 /\ steps ml s2 ps1 = Re.Next ps2.
Proof.
  induction s1 as [|c s1 IH]; intros ps ps2 H.
  - exists ps. split; [reflexivity|exact H].
  - cbn [app steps] in *. destruct (Re.step ml ps c); [|discriminate]. now apply IH.
Qed.

Lemma internal_pattern_groups (base : text) (r : Re.regex) :
  compile_template INTERNAL_LINK_REGEX_TEMPLATE base = Re.Compiled r ->
  defines_group 1 r = true /\ defines_group 2 r = true.
Proof.
  unfold compile_template, Re.compile. rewrite internal_template_text.
  change internal_tail with (str "/books/(.+?)/page/(" ++ str ".+?)\)").
  rewrite app_assoc, parse_app. intros H.
  destruct (steps false (base ++ str "/books/(.+?)/page/(") _) as [ps1|o] eqn:Es.
  - pose proof (steps_keep _ _ Es groups_known_init) as [Hk _].
    apply steps_app in Es as (ps_b & _ & Htail).
    pose proof (@internal_tail_groups ps_b ps1 r Htail H) as Hg.
    split; eapply parse_defines; eauto; apply Hk; lia.
  - apply steps_stop in Es as [->| ->]; discriminate.
Qed.

(** ** The internal-link scan *)

Lemma lift_group_events (P : event -> Prop) (g : option text) : Forall P (fst (lift_group g)).
Proof. destruct g; constructor. Qed.

Lemma report_link_events (doc : PageDetails) (found : bool) (mt : Re.rmatch) :
  Forall echo_only (fst (report_link doc found mt)).
Proof.
  unfold report_link.
  apply bind_forall; [apply lift_group_events|intros g1].
  apply bind_forall; [apply lift_group_events|intros g2].
  apply bind_forall; [repeat constructor|intros _].
  apply bind_forall; [|intros _; constructor].
  apply for_each_forall. intros s x. repeat constructor.
Qed.

Lemma echo_lines_ok (ls : list text) :
  exists evs,
    for_each ls (fun (_ : unit) snippet_line => echo Plain (str "    " ++ snippet_line)) tt
    = (evs, Ok tt).
Proof.
  destruct (for_each_ok (fun _ : unit => True) ls
              (fun (_ : unit) snippet_line => echo Plain (str "    " ++ snippet_line)))
    with (s := tt) as (evs & [] & H & _).
  - intros s x _. eexists _, tt. split; [reflexivity|exact I].
  - now exists evs.
Qed.

Lemma report_link_ok (doc : PageDetails) (found : bool) (mt : Re.rmatch) (g1 g2 : text) :
  Re.group (page_markdown doc) mt 1 = Some g1 ->
  Re.group (page_markdown doc) mt 2 = Some g2 ->
  exists evs, report_link doc found mt = (evs, Ok true).
Proof.
  intros H1 H2. unfold report_link. rewrite H1, H2. cbn [lift_group].
  match goal with
  | |- context [for_each ?ls ?body tt] => destruct (echo_lines_ok ls) as [evs Hl]
  end.
  unfold World.bind at 1. cbn [ret]. unfold World.bind at 1. cbn [ret].
  unfold World.bind at 1. cbn [echo emit].
  unfold World.bind at 1. rewrite Hl. cbn [ret]. eauto.
Qed.

Lemma find_internal_links_spec (r : Re.regex) (doc : PageDetails) :
  defines_group 1 r = true -> defines_group 2 r = true ->
  exists evs found,
    find_internal_links r doc = (evs, Ok found)
    /\ (found = true <-> match_exists r (page_markdown doc))
    /\ Forall echo_only evs.
Proof.
  intros Hg1 Hg2. unfold find_internal_links.
  destruct (for_each_ok (fun b : bool => b = true)
              (Re.finditer r (page_markdown doc)) (report_link doc))
    with (s := false) as (evs & found & Hrun & Hfound).
  - intros s mt Hin. unfold Re.finditer in Hin.
    apply finditer_from_match_at in Hin as (pos & prev & rest & Hm).
    destruct (@match_at_group r pos prev rest (page_markdown doc) mt 1 Hm Hg1) as [g1 H1].
    destruct (@match_at_group r pos prev rest (page_markdown doc) mt 2 Hm Hg2) as [g2 H2].
    destruct (@report_link_ok doc s mt g1 g2 H1 H2) as [evs Hr]. eauto.
  - exists evs, found. split; [assumption|]. split.
    + rewrite <- finditer_match_exists.
      destruct (Re.finditer r (page_markdown doc)); subst; split; congruence.
    + pose proof (@for_each_forall _ _ echo_only (Re.finditer r (page_markdown doc))
                    (report_link doc) (report_link_events doc) false) as Hev.
      now rewrite Hrun in Hev.
Qed.

(** ** [export_doc] *)

Lemma for_each_preserves {X S} (I : S -> Prop) (xs : list X) (body : S -> X -> M S) :
  (forall s x evs s', body s x = (evs, Ok s') -> I s -> I s') ->
  forall s evs s', for_each xs body s = (evs, Ok s') -> I s -> I s'.
Proof.
  intros Hb. induction xs as [|x xs IH]; intros s evs s' H Hs; cbn [for_each] in H.
  - injection H as _ <-. exact Hs.
  - apply bind_ok in H as (evs1 & s1 & evs2 & H1 & H2 & _). eauto.
Qed.

Lemma for_each_app {X S} (xs ys : list X) (body : S -> X -> M S) : forall s,
  for_each (xs ++ ys) body s = World.bind (for_each xs body s) (for_each ys body).
Proof.
  induction xs as [|x xs IH]; intros s; cbn [app for_each].
  - unfold World.bind, ret. now destruct (for_each ys body s).
  - destruct (body s x) as [evs [s1|e]]; [|reflexivity].
    unfold World.bind at 1 3. rewrite IH. unfold World.bind.
    destruct (for_each xs body s1) as [evs1 [s2|e]]; [|reflexivity].
    destruct (for_each ys body s2). now rewrite app_assoc.
Qed.

Lemma bind_raises_l {X Y} (c : M X) (k : X -> M Y) : raises c -> raises (World.bind c k).
Proof. intros [e He]. destruct c as [evs r]. cbn in He. subst r. now exists e. Qed.

Lemma bind_raises_r {X Y} (c : M X) (k : X -> M Y) :
  (forall x, raises (k x)) -> raises (World.bind c k).
Proof.
  intros Hk. destruct c as [evs [x|e]]; [|now exists e].
  destruct (Hk x) as [e He]. exists e. unfold World.bind. now destruct (k x).
Qed.

Lemma bind_raises_any {X Y} (c : M X) (k k' : X -> M Y) :
  raises c -> World.bind c k = World.bind c k'.
Proof. intros [e He]. destruct c as [evs r]. cbn in He. now subst r. Qed.

Lemma bind_raises_events {X Y} (c : M X) (k : X -> M Y) :
  raises c -> fst (World.bind c k) = fst c.
Proof. intros [e He]. destruct c as [evs r]. cbn in He. now subst r. Qed.

Lemma inline_image_events (e : env) (dir : PathLib.path) (md0 : text)
    (doc : PageDetails) (mt : Re.rmatch) :
  Forall no_page_write (fst (inline_image e dir md0 doc mt)).
Proof.
  unfold inline_image.
  apply bind_forall; [apply lift_group_events|intros image_url].
  apply bind_forall; [apply lift_group_events|intros image_filename].
  apply bind_forall; [repeat constructor|intros _].
  apply bind_forall.
  { unfold requests_get. apply bind_forall; [repeat constructor|intros _].
    destruct (http_get e image_url); constructor. }
  intros response. apply bind_forall.
  { unfold raise_for_status. destruct (is_error_status _); constructor. }
  intros _. apply bind_forall; [|intros _; constructor].
  unfold write_bytes. destruct (open_ok e _); repeat constructor.
Qed.

Lemma inline_images_events (e : env) (dir : PathLib.path) (r : Re.regex) (doc : PageDetails) :
  Forall no_page_write (fst (inline_images e dir r doc)).
Proof. apply for_each_forall. intros s x. apply inline_image_events. Qed.

Lemma inline_image_same_page (e : env) (dir : PathLib.path) (md0 : text)
    (doc0 doc doc' : PageDetails) (mt : Re.rmatch) (evs : list event) :
  inline_image e dir md0 doc mt = (evs, Ok doc') -> same_page doc0 doc -> same_page doc0 doc'.
Proof.
  unfold inline_image. intros H Hs.
  repeat (apply bind_ok in H as (? & ? & ? & _ & H & _)).
  injection H as _ <-. exact Hs.
Qed.

Lemma inline_images_same_page (e : env) (dir : PathLib.path) (r : Re.regex)
    (doc doc' : PageDetails) (evs : list event) :
  inline_images e dir r doc = (evs, Ok doc') -> same_page doc doc'.
Proof.
  unfold inline_images. intros H.
  apply (for_each_preserves (same_page doc)
           (rev (Re.finditer r (page_markdown doc)))
           (inline_image e dir (page_markdown doc))) with (s := doc) (evs := evs).
  - intros s x evs1 s1 H1 Hs. eapply inline_image_same_page; eauto.
  - exact H.
  - repeat split.
Qed.

Lemma events_shape {X} (a w w' : X) (l1 l2 : list X) :
  w = w' -> [a] ++ l1 ++ l2 ++ [w] ++ [] = (a :: l1 ++ l2) ++ [w'].
Proof. intros ->. cbn [app]. now rewrite <- app_assoc. Qed.

Lemma export_doc_ok (e : env) (export_path : PathLib.path) (doc : PageDetails)
    (ire lre : Re.regex) (evs : list event) (doc' : PageDetails) (found : bool) :
  export_doc e export_path doc ire lre = (evs, Ok (doc', found)) ->
  exists evs_img doc1 evs_links,
    inline_images e (book_dir export_path doc) ire doc = (evs_img, Ok doc1)
    /\ doc' = add_title (set_markdown doc1 (normalize_headers (page_markdown doc1)))
    /\ find_internal_links lre doc' = (evs_links, Ok found)
    /\ evs = (EvMakedirs (book_dir export_path doc) :: evs_img ++ evs_links)
             ++ [EvWriteText (page_file (book_dir export_path doc) doc') (page_markdown doc')].
Proof.
  unfold export_doc. intros H.
  apply bind_ok in H as (evs0 & [] & evs_a & Hmk & H & ->).
  apply bind_ok in H as (evs_img & doc1 & evs_b & Himg & H & ->).
  apply bind_ok in H as (evs_links & found' & evs_c & Hlinks & H & ->).
  apply bind_ok in H as (evs_w & [] & evs_d & Hw & H & ->).
  injection H as <- <- <-.
  unfold makedirs in Hmk. destruct (makedirs_ok e _); [|discriminate].
  injection Hmk as <-.
  unfold write_text in Hw. destruct (open_ok e _); [|discriminate].
  injection Hw as <-.
  exists evs_img, doc1, evs_links. repeat split; auto.
  apply events_shape. reflexivity.
Qed.

Lemma normalized_top (md : text) :
  get_top_level_header (normalize_headers md) = Some 1
  \/ get_top_level_header (normalize_headers md) = None.
Proof.
  destruct (get_top_level_header md) as [t|] eqn:Ht.
  - left. eapply normalized_top_level; eauto.
  - right. now rewrite normalize_headers_none.
Qed.

(** C7. For the internal-link pattern of any base URL, the scan of a page
    ends normally with a flag that is true exactly when the pattern matches
    somewhere in the text, and all it does is print; in [export_doc] the text
    written to the page's file is the very text that was scanned, and the
    flag returned is the flag of that scan. *)
Theorem internal_link_detector (base : text) (lre : Re.regex) :
  compile_template INTERNAL_LINK_REGEX_TEMPLATE base = Re.Compiled lre ->
  (forall doc, exists evs found,
      find_internal_links lre doc = (evs, Ok found)
      /\ (found = true <-> match_exists lre (page_markdown doc))
      /\ (found = true <-> Re.finditer lre (page_markdown doc) <> [])
      /\ Forall echo_only evs)
  /\ (forall e export_path doc ire evs doc' found,
        export_doc e export_path doc ire lre = (evs, Ok (doc', found)) ->
        exists evs0 evs_links,
          find_internal_links lre doc' = (evs_links, Ok found)
          /\ (found = true <-> match_exists lre (page_markdown doc'))
          /\ evs = evs0 ++ evs_links
                   ++ [EvWriteText (page_file (book_dir export_path doc) doc')
                                   (page_markdown doc')]).
Proof.
  intros Hc. destruct (@internal_pattern_groups base lre Hc) as [Hg1 Hg2].
  assert (Hscan : forall doc, exists evs found,
      find_internal_links lre doc = (evs, Ok found)
      /\ (found = true <-> match_exists lre (page_markdown doc))
      /\ (found = true <-> Re.finditer lre (page_markdown doc) <> [])
      /\ Forall echo_only evs).
  { intros doc.
    destruct (@find_internal_links_spec lre doc Hg1 Hg2) as (evs & found & Hf & Hiff & Hev).
    exists evs, found. split; [assumption|]. split; [assumption|]. split; [|assumption].
    rewrite finditer_match_exists. exact Hiff. }
  split; [exact Hscan|].
  intros e export_path doc ire evs doc' found H.
  apply export_doc_ok in H as (evs_img & doc1 & evs_links & Himg & Hdoc & Hlinks & ->).
  destruct (Hscan doc') as (evs2 & found2 & Hf & Hiff & _).
  rewrite Hlinks in Hf. injection Hf as <- <-.
  exists (EvMakedirs (book_dir export_path doc) :: evs_img), evs_links.
  repeat split; try apply Hiff; auto.
  cbn [app]. now rewrite <- app_assoc.
Qed.

(** C3, as amended.  When [export_doc] ends normally, the one text file it
    wrote is the page's file, and its content is the title heading, [# ]
    then [DRAFT: ] exactly when the page is a draft, then the title and two
    newlines, followed by the body: the page's text after the image loop
    and the heading rewrite.  The first line of the content is a level-1
    heading; the body's own top heading level is 1 or none. *)
Theorem exported_page_begins_with_title (e : env) (export_path : PathLib.path)
    (doc : PageDetails) (ire lre : Re.regex) (evs : list event)
    (doc' : PageDetails) (found : bool) :
  export_doc e export_path doc ire lre = (evs, Ok (doc', found)) ->
  exists evs0 body,
    evs = evs0 ++ [EvWriteText (page_file (book_dir export_path doc) doc)
                               (title_heading doc ++ body)]
    /\ Forall no_page_write evs0
    /\ title_heading doc
       = str "# " ++ (if draft doc then str "DRAFT: " else []) ++ page_title doc
         ++ [newline; newline]
    /\ (exists evs1 doc1,
          inline_images e (book_dir export_path doc) ire doc = (evs1, Ok doc1)
          /\ body = normalize_headers (page_markdown doc1))
    /\ heading_level (hd [] (lines (title_heading doc ++ body))) = Some 1
    /\ (get_top_level_header body = Some 1 \/ get_top_level_header body = None).
Proof.
  intros H.
  apply export_doc_ok in H as (evs_img & doc1 & evs_links & Himg & Hdoc & Hlinks & ->).
  pose proof (@inline_images_same_page _ _ _ _ _ _ Himg) as (Hshelf & Hbook & Htitle & Hdraft).
  set (body := normalize_headers (page_markdown doc1)).
  assert (Hth : title_heading (set_markdown doc1 body) = title_heading doc).
  { unfold title_heading, set_markdown. cbn [draft page_title]. now rewrite Hdraft, Htitle. }
  assert (Hmd : page_markdown doc' = title_heading doc ++ body).
  { subst doc'. unfold add_title, set_markdown at 1. cbn [page_markdown].
    fold body. now rewrite Hth. }
  assert (Hfile : page_file (book_dir export_path doc) doc'
                  = page_file (book_dir export_path doc) doc).
  { subst doc'. unfold page_file, add_title, set_markdown. cbn [page_title].
    now rewrite Htitle. }
  exists (EvMakedirs (book_dir export_path doc) :: evs_img ++ evs_links), body.
  rewrite Hfile, Hmd. split; [reflexivity|]. split.
  { constructor; [reflexivity|]. apply Forall_app. split.
    - pose proof (inline_images_events e (book_dir export_path doc) ire doc) as Hev.
      now rewrite Himg in Hev.
    - assert (Hbody : forall (s : bool) x, Forall no_page_write (fst (report_link doc' s x))).
      { intros s x. eapply Forall_impl; [|apply report_link_events].
        intros [] Hx; try discriminate; reflexivity. }
      pose proof (@for_each_forall _ _ no_page_write
                    (Re.finditer lre (page_markdown doc')) (report_link doc') Hbody false)
        as Hev.
      unfold find_internal_links in Hlinks. now rewrite Hlinks in Hev. }
  split; [reflexivity|]. split; [now exists evs_img, doc1|]. split.
  - unfold title_heading. cbn [str list_ascii_of_string app].
    rewrite lines_cons_other by discriminate. cbn [hd].
    rewrite lines_cons_other by discriminate. reflexivity.
  - apply normalized_top.
Qed.

(** ** A download that fails *)

Lemma bind_raises_ok {X Y} (c : M X) (k : X -> M Y) (evs : list event) (x : X) :
  c = (evs, Ok x) -> raises (k x) -> raises (World.bind c k).
Proof.
  intros -> [e He]. exists e. unfold World.bind. now destruct (k x).
Qed.

Lemma bind_ext {X Y} (c : M X) (k k' : X -> M Y) :
  (forall x, k x = k' x) -> World.bind c k = World.bind c k'.
Proof. intros H. destruct c as [evs [x|e]]; [|reflexivity]. unfold World.bind. now rewrite H. Qed.

Lemma inline_image_raises (e : env) (dir : PathLib.path) (md0 : text)
    (mt : Re.rmatch) (url : text) (st : Z) (content : list Byte.byte) :
  Re.group md0 mt 1 = Some url ->
  http_get e url = Response st content -> is_error_status st = true ->
  forall doc, raises (inline_image e dir md0 doc mt).
Proof.
  intros Hg Hget Hst doc. unfold inline_image. rewrite Hg. cbn [lift_group].
  eapply bind_raises_ok; [reflexivity|].
  destruct (Re.group md0 mt 2) as [image_filename|]; cbn [lift_group].
  - eapply bind_raises_ok; [reflexivity|].
    eapply bind_raises_ok; [reflexivity|].
    eapply bind_raises_ok.
    + unfold requests_get. rewrite Hget. reflexivity.
    + apply bind_raises_l. unfold raise_for_status. cbn [fst]. rewrite Hst.
      now exists (HTTPError st).
  - apply bind_raises_l. now exists IndexError.
Qed.

Lemma export_doc_raises (e : env) (export_path : PathLib.path) (ire lre : Re.regex)
    (doc : PageDetails) (mt : Re.rmatch) (url : text) (st : Z) (content : list Byte.byte) :
  In mt (Re.finditer ire (page_markdown doc)) ->
  Re.group (page_markdown doc) mt 1 = Some url ->
  http_get e url = Response st content -> is_error_status st = true ->
  raises (export_doc e export_path doc ire lre)
  /\ Forall no_page_write (fst (export_doc e export_path doc ire lre)).
Proof.
  intros Hin Hg Hget Hst.
  assert (Himg : raises (inline_images e (book_dir export_path doc) ire doc)).
  { unfold inline_images. apply for_each_raises with (x := mt).
    - now apply in_rev in Hin.
    - eapply inline_image_raises; eauto. }
  unfold export_doc. split.
  - apply bind_raises_r. intros _. now apply bind_raises_l.
  - unfold makedirs. destruct (makedirs_ok e _); [|constructor].
    unfold World.bind at 1. cbn [emit].
    match goal with
    | |- context [World.bind ?c ?k] =>
        pose proof (@bind_raises_events _ _ c k Himg) as Hev;
        destruct (World.bind c k) as [evs r]
    end.
    cbn [fst] in *. subst evs. constructor; [reflexivity|].
    apply inline_images_events.
Qed.

Lemma export_all_stops (e : env) (export_path : PathLib.path) (ire lre : Re.regex)
    (doc : PageDetails) (before after : list PageDetails) :
  raises (export_doc e export_path doc ire lre) ->
  raises (export_all e export_path ire lre (before ++ doc :: after))
  /\ export_all e export_path ire lre (before ++ doc :: after)
     = export_all e export_path ire lre (before ++ [doc]).
Proof.
  intros Hr. unfold export_all. split.
  - apply for_each_raises with (x := doc).
    + apply in_or_app. right. now left.
    + intros s. now apply bind_raises_l.
  - rewrite !for_each_app. apply bind_ext. intros s. cbn [for_each].
    apply bind_raises_any. now apply bind_raises_l.
Qed.

(** C8. When the response to the download of one of the page's images has a
    client or server error status, one from 400 to 599, [export_doc] raises,
    it has written no page file, and the run raises too and is the same
    whatever pages come after this one: none of them is processed.  These
    are the only statuses [raise_for_status] raises on: a response with any
    other status, 300 or 304 as well, counts as a success. *)
Theorem failed_download_aborts (e : env) (export_path : PathLib.path)
    (ire lre : Re.regex) (doc : PageDetails) (mt : Re.rmatch) (url : text)
    (st : Z) (content : list Byte.byte) :
  In mt (Re.finditer ire (page_markdown doc)) ->
  Re.group (page_markdown doc) mt 1 = Some url ->
  http_get e url = Response st content -> (400 <= st < 600)%Z ->
  (raises (export_doc e export_path doc ire lre)
   /\ Forall no_page_write (fst (export_doc e export_path doc ire lre))
   /\ forall before after,
        raises (run e export_path ire lre (before ++ doc :: after))
        /\ run e export_path ire lre (before ++ doc :: after)
           = run e export_path ire lre (before ++ [doc]))
  /\ (forall st', raises (raise_for_status st') <-> (400 <= st' < 600)%Z).
Proof.
  intros Hin Hg Hget Hrange.
  assert (Hstatus : forall st', is_error_status st' = true <-> (400 <= st' < 600)%Z).
  { intros st'. unfold is_error_status.
    rewrite andb_true_iff, Z.leb_le, Z.ltb_lt. reflexivity. }
  assert (Hst : is_error_status st = true) by now apply Hstatus.
  split.
  - destruct (@export_doc_raises e export_path ire lre doc mt url st content
                Hin Hg Hget Hst) as [Hr Hev].
    split; [assumption|]. split; [assumption|].
    intros before after.
    destruct (@export_all_stops e export_path ire lre doc before after Hr) as [Hall Heq].
    unfold run. rewrite Heq. split; [|reflexivity].
    do 3 (apply bind_raises_r; intros _).
    apply bind_raises_l. now rewrite <- Heq.
  - intros st'. rewrite <- Hstatus. unfold raise_for_status.
    destruct (is_error_status st'); split.
    + reflexivity.
    + intros _. now exists (HTTPError st').
    + intros [ex Hex]. discriminate.
    + discriminate.
Qed.

(** ** Worked pages *)

Lemma example_image_re_compiles :
  compile_template IMAGE_LINK_REGEX_TEMPLATE example_base = Re.Compiled example_image_re.
Proof. vm_compute. reflexivity. Qed.

Lemma example_link_re_compiles :
  compile_template INTERNAL_LINK_REGEX_TEMPLATE example_base = Re.Compiled example_link_re.
Proof. vm_compute. reflexivity. Qed.

(** ** Slices *)

Lemma slice_to (s : text) (n : nat) : PyStr.slice s None (Some (Z.of_nat n)) = firstn n s.
Proof.
  unfold PyStr.slice, PyStr.norm_index.
  destruct (Z.ltb_spec (Z.of_nat n) 0); [lia|].
  rewrite Nat.sub_0_r. cbn [skipn].
  destruct (Nat.le_gt_cases n (length s)) as [Hle|Hgt].
  - now replace (Z.to_nat (Z.min (Z.of_nat n) (Z.of_nat (length s)))) with n by lia.
  - replace (Z.to_nat (Z.min (Z.of_nat n) (Z.of_nat (length s)))) with (length s) by lia.
    rewrite firstn_all. symmetry. apply firstn_all2. lia.
Qed.

Lemma slice_from (s : text) (n : nat) : PyStr.slice s (Some (Z.of_nat n)) None = skipn n s.
Proof.
  unfold PyStr.slice, PyStr.norm_index.
  destruct (Z.ltb_spec (Z.of_nat n) 0); [lia|].
  destruct (Nat.le_gt_cases n (length s)) as [Hle|Hgt].
  - replace (Z.to_nat (Z.min (Z.of_nat n) (Z.of_nat (length s)))) with n by lia.
    apply firstn_all2. rewrite length_skipn. lia.
  - replace (Z.to_nat (Z.min (Z.of_nat n) (Z.of_nat (length s)))) with (length s) by lia.
    rewrite Nat.sub_diag, skipn_all. cbn [firstn]. symmetry. apply skipn_all2. lia.
Qed.

(** The snippet is right when the match starts at 60 or later ... *)
Lemma snippet_far (s : text) (start : nat) :
  60 <= start <= length s ->
  PyStr.slice s (Some (Z.of_nat start - 60)%Z) (Some (Z.of_nat start))
  = skipn (start - 60) (firstn start s).
Proof.
  intros H. unfold PyStr.slice, PyStr.norm_index.
  destruct (Z.ltb_spec (Z.of_nat start - 60) 0); [lia|].
  destruct (Z.ltb_spec (Z.of_nat start) 0); [lia|].
  replace (Z.to_nat (Z.min (Z.of_nat start - 60) (Z.of_nat (length s)))) with (start - 60) by lia.
  replace (Z.to_nat (Z.min (Z.of_nat start) (Z.of_nat (length s)))) with start by lia.
  rewrite skipn_firstn_comm. reflexivity.
Qed.

(** ... and empty when it starts before 60 in a text of 60 characters or
    more. *)
Lemma snippet_near (s : text) (start : nat) :
  start < 60 <= length s ->
  PyStr.slice s (Some (Z.of_nat start - 60)%Z) (Some (Z.of_nat start)) = [].
Proof.
  intros H. unfold PyStr.slice, PyStr.norm_index.
  destruct (Z.ltb_spec (Z.of_nat start - 60) 0); [|lia].
  destruct (Z.ltb_spec (Z.of_nat start) 0); [lia|].
  replace (Z.to_nat (Z.min (Z.of_nat start) (Z.of_nat (length s)))) with start by lia.
  replace (start - _) with 0 by lia. reflexivity.
Qed.

(** The text a round of the image loop leaves: the text before the match
    start, the embed, and the text from one character after the match end. *)
Lemma inline_image_text (e : env) (dir : PathLib.path) (md0 : text)
    (doc doc' : PageDetails) (mt : Re.rmatch) (evs : list event) :
  inline_image e dir md0 doc mt = (evs, Ok doc') ->
  exists image_filename,
    Re.group md0 mt 2 = Some image_filename
    /\ page_markdown doc'
       = firstn (Re.m_start mt) (page_markdown doc)
         ++ str "![](" ++ image_filename ++ str ")"
         ++ skipn (S (Re.m_end mt)) (page_markdown doc).
Proof.
  unfold inline_image. intros H.
  apply bind_ok in H as (? & image_url & ? & _ & H & _).
  apply bind_ok in H as (? & image_filename & ? & Hf & H & _).
  repeat (apply bind_ok in H as (? & ? & ? & _ & H & _)).
  injection H as _ <-. exists image_filename. split.
  - destruct (Re.group md0 mt 2); [now injection Hf as _ ->|discriminate].
  - cbn [page_markdown set_markdown]. rewrite slice_to.
    replace (Z.of_nat (Re.m_end mt) + 1)%Z with (Z.of_nat (S (Re.m_end mt))) by lia.
    now rewrite slice_from.
Qed.

(** C1, at a page with one image followed by a line break.  The pattern
    matches the span from 0 to 60; the specification's replacement of that
    span keeps the line break, the code's text has lost it. *)
Theorem image_inliner_eats_next_char :
  let md := page_markdown image_page in
  (exists mt, Re.finditer example_image_re md = [mt]
              /\ Re.m_start mt = 0 /\ Re.m_end mt = 60)
  /\ spec_inline_images example_image_re md = str "![](f.png)
next line"
  /\ (exists evs doc',
        inline_images env_ok (book_dir example_root image_page) example_image_re image_page
        = (evs, Ok doc')
        /\ page_markdown doc' = str "![](f.png)next line")
  /\ (exists evs doc' found,
        export_doc env_ok example_root image_page example_image_re example_link_re
        = (evs, Ok (doc', found))
        /\ last evs (EvEcho Plain [])
           = EvWriteText (PathLib.Path [] [str "export"; str "S"; str "B"; str "Intro.md"])
                         (str "# Intro

![](f.png)next line")).
Proof.
  cbv zeta. split; [|split; [|split]].
  - eexists. split; [vm_compute; reflexivity|]. split; reflexivity.
  - vm_compute. reflexivity.
  - eexists _, _. split; [vm_compute; reflexivity|]. reflexivity.
  - eexists _, _, _. split; [vm_compute; reflexivity|]. reflexivity.
Qed.

(** C2, at a page whose link starts at offset 13 of a text of 81 characters.
    The context to print is the 13 characters before the link, three lines;
    the code's snippet is empty, so the notice is all that is printed. *)
Theorem link_context_lost_near_start :
  let doc := add_title link_page in
  (exists mt, Re.finditer example_link_re (page_markdown doc) = [mt]
              /\ Re.m_start mt = 13)
  /\ length (page_markdown doc) = 81
  /\ spec_context (page_markdown doc) 13 = [str "# T"; []; str "See [p]("]
  /\ PyStr.slice (page_markdown doc) (Some (13 - 60)%Z) (Some 13%Z) = []
  /\ find_internal_links example_link_re doc
     = ([EvEcho BrightMagenta (str ">> Internal link found in [T] to [b]/[p]")], Ok true).
Proof.
  cbv zeta. split; [|split; [|split; [|split]]].
  - eexists. split; [vm_compute; reflexivity|reflexivity].
  - reflexivity.
  - reflexivity.
  - reflexivity.
  - vm_compute. reflexivity.
Qed.

(** The page of the specification's first scenario is written with two
    level-1 headings: the title and the page's own top heading. *)
Lemma exported_page_second_top_heading :
  exists evs doc' content,
    export_doc env_ok example_root hello_page example_image_re example_link_re
    = (evs, Ok (doc', false))
    /\ last evs (EvEcho Plain [])
       = EvWriteText (PathLib.Path [] [str "export"; str "S"; str "B"; str "Intro.md"]) content
    /\ content = str "# Intro

# Hello"
    /\ ~ single_top_heading content.
Proof.
  eexists _, _, _. split; [vm_compute; reflexivity|].
  split; [reflexivity|]. split; [reflexivity|].
  intros H. specialize (H 2 (str "# Hello") eq_refl eq_refl). discriminate.
Qed.

Lemma exported_page_begins_with_title_witness :
  exists evs doc' found,
    export_doc env_ok example_root hello_page example_image_re example_link_re
    = (evs, Ok (doc', found))
    /\ exists evs0 body,
         evs = evs0 ++ [EvWriteText (page_file (book_dir example_root hello_page) hello_page)
                                    (title_heading hello_page ++ body)]
         /\ body = str "# Hello".
Proof.
  destruct (export_doc env_ok example_root hello_page example_image_re example_link_re)
    as [evs [[doc' found]|ex]] eqn:E.
  - exists evs, doc', found. split; [reflexivity|].
    destruct (@exported_page_begins_with_title env_ok example_root hello_page
                example_image_re example_link_re evs doc' found E)
      as (evs0 & body & Hevs & _ & _ & (evs1 & doc1 & Himg & Hbody) & _).
    exists evs0, body. split; [exact Hevs|].
    vm_compute in Himg. injection Himg as _ <-. exact Hbody.
  - vm_compute in E. discriminate.
Defined.

Lemma internal_link_detector_witness :
  compile_template INTERNAL_LINK_REGEX_TEMPLATE example_base = Re.Compiled example_link_re
  /\ exists evs,
       find_internal_links example_link_re (add_title link_page) = (evs, Ok true)
       /\ match_exists example_link_re (page_markdown (add_title link_page)).
Proof.
  split; [exact example_link_re_compiles|].
  destruct (proj1 (@internal_link_detector example_base example_link_re
                     example_link_re_compiles) (add_title link_page))
    as (evs & found & Hf & Hiff & _).
  assert (Hfound : found = true).
  { vm_compute in Hf. now injection Hf as _ <-. }
  subst found. exists evs. split; [exact Hf|]. now apply Hiff.
Defined.

(** C8, at a page whose one image is answered with status 304.  That is no
    success status, yet [export_doc] does not raise and writes the page's
    file, and the run goes on to the next page and ends normally with both
    pages written. *)
Theorem not_modified_download_is_exported :
  In example_image_match (Re.finditer example_image_re (page_markdown image_page))
  /\ Re.group (page_markdown image_page) example_image_match 1
     = Some (str "http://w.x/uploads/i/f.png")
  /\ http_get env_304 (str "http://w.x/uploads/i/f.png") = Response 304 []
  /\ is_success_status 304 = false
  /\ ~ raises (export_doc env_304 example_root image_page example_image_re example_link_re)
  /\ existsb is_page_write
             (fst (export_doc env_304 example_root image_page example_image_re
                              example_link_re)) = true
  /\ snd (run env_304 example_root example_image_re example_link_re [image_page; link_page])
     = Ok tt
  /\ length (filter is_page_write
                    (fst (run env_304 example_root example_image_re example_link_re
                              [image_page; link_page]))) = 2.
Proof.
  split; [vm_compute; auto|].
  split; [vm_compute; reflexivity|].
  split; [reflexivity|].
  split; [reflexivity|].
  split; [intros [ex Hex]; vm_compute in Hex; discriminate|].
  split; [vm_compute; reflexivity|].
  split; vm_compute; reflexivity.
Qed.

Lemma failed_download_aborts_witness :
  In example_image_match (Re.finditer example_image_re (page_markdown image_page))
  /\ http_get env_404 (str "http://w.x/uploads/i/f.png") = Response 404 []
  /\ (400 <= 404 < 600)%Z
  /\ raises (export_doc env_404 example_root image_page example_image_re example_link_re)
  /\ run env_404 example_root example_image_re example_link_re [image_page; hello_page]
     = run env_404 example_root example_image_re example_link_re [image_page].
Proof.
  assert (Hin : In example_image_match
                   (Re.finditer example_image_re (page_markdown image_page)))
    by (vm_compute; auto).
  assert (Hrange : (400 <= 404 < 600)%Z) by lia.
  destruct (@failed_download_aborts env_404 example_root example_image_re example_link_re
              image_page example_image_match (str "http://w.x/uploads/i/f.png")
              404%Z [] Hin eq_refl eq_refl Hrange)
    as ((Hr & _ & Hrun) & _).
  split; [exact Hin|]. split; [reflexivity|]. split; [exact Hrange|]. split; [exact Hr|].
  exact (proj2 (Hrun [] [hello_page])).
Defined.

(** ** The output path *)

Lemma replace_from_slash (s : text) :
  PyStr.replace_from [slash] ["-"%char] s 0 = map dash s.
Proof.
  induction s as [|c s IH]; [reflexivity|].
  cbn [PyStr.replace_from PyStr.starts_with map length Nat.sub].
  rewrite andb_true_r, IH.
  change (dash c) with (if PyStr.eqc c slash then "-"%char else c).
  rewrite (eqc_sym c). now destruct (PyStr.eqc slash c).
Qed.

Lemma replace_slash (s : text) : PyStr.replace (str "/") (str "-") s = map dash s.
Proof. apply replace_from_slash. Qed.

Lemma map_dash_no_slash (s : text) : ~ In slash (map dash s).
Proof.
  intros H. apply in_map_iff in H as (c & Hc & _). unfold dash in Hc.
  destruct (PyStr.eqc c slash) eqn:E; [discriminate|].
  apply eqc_neq in E. congruence.
Qed.

Lemma safe_file_name_no_slash (title : text) : ~ In slash (safe_file_name title).
Proof.
  unfold safe_file_name. intros H. apply in_app_or in H as [H|H].
  - now apply map_dash_no_slash in H.
  - simpl in H. repeat (destruct H as [H|H]; [discriminate|]). destruct H.
Qed.

Lemma split_slash_plain (s : text) : forall cur,
  ~ In slash s -> PathLib.split_slash s cur = [rev cur ++ s].
Proof.
  induction s as [|c s IH]; intros cur H; cbn [PathLib.split_slash].
  - now rewrite app_nil_r.
  - destruct (PyStr.eqc c slash) eqn:E.
    + apply eqc_eq in E. subst c. exfalso. apply H. now left.
    + rewrite IH by (intros Hin; apply H; now right).
      cbn [rev]. now rewrite <- app_assoc.
Qed.

Lemma parse_safe_file_name (title : text) :
  PathLib.parse (safe_file_name title) = PathLib.Path [] [safe_file_name title].
Proof.
  pose proof (safe_file_name_no_slash title) as Hns.
  unfold PathLib.parse, PathLib.segments.
  rewrite split_slash_plain by assumption. cbn [rev app filter].
  assert (Hlen : 3 <= length (safe_file_name title)).
  { unfold safe_file_name. rewrite length_app. cbn. lia. }
  destruct (safe_file_name title) as [|a [|b [|c s]]] eqn:E; cbn in Hlen; try lia.
  cbn [PathLib.keep_segment PathLib.anchor_of].
  destruct (PyStr.eqc a slash) eqn:Ea; [|reflexivity].
  apply eqc_eq in Ea. subst a. exfalso. apply Hns. now left.
Qed.

Lemma page_file_component (dir : PathLib.path) (doc : PageDetails) :
  page_file dir doc
  = PathLib.Path (PathLib.anchor dir)
                 (PathLib.parts dir ++ [safe_file_name (page_title doc)]).
Proof.
  unfold page_file. rewrite replace_slash. fold (safe_file_name (page_title doc)).
  unfold PathLib.joinpath. now rewrite parse_safe_file_name.
Qed.

Lemma joinpath_relative (p : PathLib.path) (s : text) :
  PathLib.anchor_of s = [] ->
  PathLib.joinpath p s = PathLib.Path (PathLib.anchor p) (PathLib.parts p ++ PathLib.segments s).
Proof. intros H. unfold PathLib.joinpath, PathLib.parse. cbn. now rewrite H. Qed.

Lemma joinpath_absolute (p : PathLib.path) (s : text) :
  PathLib.anchor_of s <> [] -> PathLib.joinpath p s = PathLib.parse s.
Proof.
  intros H. unfold PathLib.joinpath, PathLib.parse. cbn.
  destruct (PathLib.anchor_of s); congruence.
Qed.

(** A shelf named [a/] gives the path of the shelf named [a]. *)
Lemma trailing_slash_adds_no_directory :
  let doc := mkPage (str "a/") (str "B") (str "T") [] false in
  In slash (shelf doc)
  /\ output_path example_root doc
     = PathLib.Path [] [str "export"; str "a"; str "B"; str "T.md"]
  /\ output_path example_root doc
     = output_path example_root (mkPage (str "a") (str "B") (str "T") [] false)
  /\ ~ slash_nests example_root doc.
Proof.
  cbv zeta. split; [simpl; auto|]. split; [reflexivity|]. split; [reflexivity|].
  intros H. assert (Hs : In slash (str "a/")) by (simpl; auto).
  specialize (H (or_introl Hs)). vm_compute in H. lia.
Qed.

(** C9, as amended.  The file name is the title with every [/] replaced by
    [-], followed by [.md]; it has no [/] and is one component of the path,
    the last.  Shelf and book are joined as they are: when neither begins
    with [/], the directories of the path are those of the root, then the
    segments of the shelf, then the segments of the book (the segments of a
    name: what lies between its slashes, without the empty ones and the
    single dots); a book that begins with [/] gives its own path instead. *)
Theorem output_path_components (export_path : PathLib.path) (doc : PageDetails) :
  PyStr.replace (str "/") (str "-") (page_title doc) ++ str ".md"
  = safe_file_name (page_title doc)
  /\ ~ In slash (safe_file_name (page_title doc))
  /\ output_path export_path doc
     = PathLib.Path (PathLib.anchor (book_dir export_path doc))
                    (PathLib.parts (book_dir export_path doc)
                     ++ [safe_file_name (page_title doc)])
  /\ (PathLib.anchor_of (shelf doc) = [] -> PathLib.anchor_of (book doc) = [] ->
      output_path export_path doc
      = PathLib.Path (PathLib.anchor export_path)
                     (PathLib.parts export_path
                      ++ PathLib.segments (shelf doc) ++ PathLib.segments (book doc)
                      ++ [safe_file_name (page_title doc)]))
  /\ (PathLib.anchor_of (book doc) <> [] ->
      book_dir export_path doc = PathLib.parse (book doc)).
Proof.
  split; [now rewrite replace_slash|]. split; [apply safe_file_name_no_slash|].
  split; [apply page_file_component|]. split.
  - intros Hs Hb. unfold output_path. rewrite page_file_component.
    unfold book_dir. rewrite (joinpath_relative _ _ Hs), (joinpath_relative _ _ Hb).
    cbn [PathLib.anchor PathLib.parts]. now rewrite <- !app_assoc.
  - intros Hb. unfold book_dir. now apply joinpath_absolute.
Qed.

Lemma output_path_components_witness :
  let doc := mkPage (str "a/b") (str "c//d/") (str "x/y") [] false in
  output_path example_root doc
  = PathLib.Path [] [str "export"; str "a"; str "b"; str "c"; str "d"; str "x-y.md"].
Proof.
  cbv zeta.
  rewrite (proj1 (proj2 (proj2 (proj2 (output_path_components example_root
             (mkPage (str "a/b") (str "c//d/") (str "x/y") [] false)))))
             eq_refl eq_refl).
  reflexivity.
Defined.

(** ** Base URLs as patterns *)

Lemma step_normal_simple (ml : bool) (ps : Re.pstate) (c : ascii) :
  simple c = true -> Re.step_normal ml ps c = Re.push ps (atom c).
Proof.
  unfold simple, atom. intros H.
  destruct (PyStr.eqc c ".") eqn:E.
  - apply eqc_eq in E. subst c. reflexivity.
  - rewrite orb_false_r in H. apply negb_true_iff in H. now apply step_normal_plain.
Qed.

Lemma parse_simple (ml : bool) (l rest : text) :
  forallb simple l = true ->
  forall items stack groups,
    Re.parse ml (l ++ rest) (Re.PState items stack groups Re.MNormal)
    = Re.parse ml rest (Re.PState (rev (map atom l) ++ items) stack groups Re.MNormal).
Proof.
  induction l as [|c l IH]; intros Hl items stack groups; [reflexivity|].
  cbn [forallb] in Hl. apply andb_prop in Hl as [Hc Hl].
  cbn [app Re.parse map rev]. unfold Re.step. cbn [Re.ps_mode].
  rewrite (step_normal_simple _ _ _ Hc). unfold Re.push.
  cbn [Re.ps_items Re.ps_stack Re.ps_groups].
  rewrite (IH Hl). now rewrite <- app_assoc.
Qed.

Lemma matches_seq_inv (r1 r2 : Re.regex) (st st' : Re.mstate) :
  Matches (Re.RSeq r1 r2) st st' ->
  exists st1, Matches r1 st st1 /\ Matches r2 st1 st'.
Proof. intros H. inversion H; subst. eauto. Qed.

Lemma matches_seq_list_app (rs1 rs2 : list Re.regex) : forall st st1 st2,
  Matches (seq_list rs1) st st1 -> Matches (seq_list rs2) st1 st2 ->
  Matches (seq_list (rs1 ++ rs2)) st st2.
Proof.
  induction rs1 as [|r rs1 IH]; intros st st1 st2 H1 H2; cbn [app seq_list fold_right] in *.
  - inversion H1; subst. exact H2.
  - apply matches_seq_inv in H1 as (st0 & Hr & Hrest).
    econstructor; [exact Hr|]. eapply IH; eauto.
Qed.

Lemma matches_atoms (base : text) : forall pos prev rest caps,
  forallb simple base = true ->
  Matches (seq_list (map atom base))
          (Re.MState pos prev (map undot base ++ rest) caps)
          (Re.MState (pos + length base) (last (map Some (map undot base)) prev) rest caps).
Proof.
  induction base as [|c base IH]; intros pos prev rest caps H.
  - cbn [map seq_list fold_right app length last]. rewrite Nat.add_0_r. constructor.
  - cbn [forallb] in H. apply andb_prop in H as [Hc H].
    cbn [map seq_list fold_right app length]. rewrite last_cons.
    assert (Hm : Matches (atom c)
                   (Re.MState pos prev (undot c :: map undot base ++ rest) caps)
                   (Re.MState (pos + 1) (Some (undot c)) (map undot base ++ rest) caps)).
    { unfold atom, undot, lit. destruct (PyStr.eqc c ".").
      - apply (@M_char Re.CsAny "x"%char (map undot base ++ rest)
                 (Re.MState pos prev ("x"%char :: map undot base ++ rest) caps));
          reflexivity.
      - apply (@M_char (Re.CsLit c) c (map undot base ++ rest)
                 (Re.MState pos prev (c :: map undot base ++ rest) caps));
          [reflexivity|]. cbn [Re.cs_match]. apply eqc_refl. }
    econstructor; [exact Hm|].
    replace (pos + S (length base)) with (pos + 1 + length base) by lia.
    apply IH. exact H.
Qed.

Lemma matches_computed (r : Re.regex) (st st' : Re.mstate) :
  Re.m r st (fun st1 => Some st1) = Some st' -> Matches r st st'.
Proof. intros H. apply m_sound in H as (st1 & Hm & [= <-]). exact Hm. Qed.

Lemma undot_no_dot (base : text) : ~ In "."%char (map undot base).
Proof.
  intros H. apply in_map_iff in H as (c & Hc & _). unfold undot in Hc.
  destruct (PyStr.eqc c ".") eqn:E; [discriminate|]. apply eqc_neq in E. congruence.
Qed.

Lemma not_substring_without_dot (base s : text) :
  In "."%char base -> ~ In "."%char s -> ~ is_substring base s.
Proof.
  intros Hb Hs (pre & post & ->). apply Hs.
  apply in_or_app. right. apply in_or_app. now left.
Qed.

Lemma match_exists_at_start (r : Re.regex) (s : text) (st' : Re.mstate) :
  Matches r (Re.MState 0 None s []) st' -> match_exists r s.
Proof. intros H. exists [], s, st'. split; [reflexivity|exact H]. Qed.

(** *** The internal-link pattern of a simple base URL *)

Lemma parse_internal_tail (acc : list Re.regex) :
  Re.parse false internal_tail (Re.PState acc [] 0 Re.MNormal)
  = Re.Compiled (Re.seq_of_items (rev internal_tail_items ++ acc)).
Proof. vm_compute. reflexivity. Qed.

Lemma internal_compiles (base : text) :
  forallb simple base = true ->
  compile_template INTERNAL_LINK_REGEX_TEMPLATE base = Re.Compiled (internal_regex base).
Proof.
  intros H. unfold compile_template, Re.compile. rewrite internal_template_text.
  rewrite (parse_simple false _ _ H), parse_internal_tail.
  rewrite seq_of_items_rev, app_nil_r, rev_app_distr, !rev_involutive. reflexivity.
Qed.

Lemma internal_tail_matches (pos : nat) (prev : option ascii) :
  exists st',
    Matches (seq_list internal_tail_items)
            (Re.MState pos prev (str "/books/b/page/p)") []) st'.
Proof.
  eexists. apply matches_computed. vm_compute. reflexivity.
Qed.

Lemma internal_matches_without_base (base : text) :
  forallb simple base = true -> In "."%char base ->
  matches_without_base INTERNAL_LINK_REGEX_TEMPLATE base.
Proof.
  intros Hs Hdot.
  exists (internal_regex base), (map undot base ++ str "/books/b/page/p)").
  split; [now apply internal_compiles|]. split.
  - apply not_substring_without_dot; [assumption|].
    intros H. apply in_app_or in H as [H|H]; [now apply undot_no_dot in H|].
    simpl in H. repeat (destruct H as [H|H]; [discriminate|]). destruct H.
  - destruct (internal_tail_matches (0 + length base)
                (last (map Some (map undot base)) None)) as [st' Ht].
    apply match_exists_at_start with (st' := st').
    unfold internal_regex. eapply matches_seq_list_app; [|exact Ht].
    now apply matches_atoms.
Qed.

(** *** The image pattern of a simple base URL *)

Lemma image_template_text (base : text) :
  PyStr.replace (str "__BASE_URL__") base IMAGE_LINK_REGEX_TEMPLATE
  = image_pre ++ base ++ image_mid ++ base ++ image_post.
Proof. reflexivity. Qed.

Lemma steps_image_pre :
  steps false image_pre (Re.PState [] [] 0 Re.MNormal)
  = Re.Next (Re.PState (rev image_pre_items) [] 0 Re.MNormal).
Proof. vm_compute. reflexivity. Qed.

Lemma steps_image_mid (acc : list Re.regex) :
  steps false image_mid (Re.PState acc [] 0 Re.MNormal)
  = Re.Next (Re.PState [] [(1, rev image_mid_items ++ acc)] 1 Re.MNormal).
Proof. vm_compute. reflexivity. Qed.

Lemma parse_image_post (acc before : list Re.regex) :
  Re.parse false image_post (Re.PState acc [(1, before)] 1 Re.MNormal)
  = Re.Compiled
      (Re.seq_of_items
         (lit ")"
          :: Re.RGroup 1 (Re.seq_of_items
                            (Re.RGroup 2 (seq_list image_name_items)
                             :: rev image_in_items ++ acc))
          :: before)).
Proof. vm_compute. reflexivity. Qed.

Lemma image_compiles (base : text) :
  forallb simple base = true ->
  compile_template IMAGE_LINK_REGEX_TEMPLATE base = Re.Compiled (image_regex base).
Proof.
  intros H. unfold compile_template, Re.compile. rewrite image_template_text.
  rewrite parse_app, steps_image_pre.
  rewrite (parse_simple false _ _ H).
  rewrite parse_app, steps_image_mid.
  rewrite (parse_simple false _ _ H).
  rewrite parse_image_post. f_equal.
  rewrite !seq_of_items_rev. unfold image_regex, image_group.
  cbn [rev]. rewrite app_nil_r, !rev_app_distr, !rev_involutive.
  rewrite <- !app_assoc. reflexivity.
Qed.

Lemma image_pre_matches (rest : text) :
  Matches (seq_list image_pre_items)
          (Re.MState 0 None (str "[![a](" ++ rest) [])
          (Re.MState 6 (Some "("%char) rest []).
Proof.
  unfold image_pre_items, lit. cbn [seq_list fold_right str list_ascii_of_string app].
  eapply M_seq; [eapply M_char; reflexivity|].
  eapply M_seq; [eapply M_char; reflexivity|].
  eapply M_seq; [eapply M_char; reflexivity|].
  eapply M_seq.
  { eapply (@M_rep true 1 None Re.CsAny ["a"%char]); [reflexivity|reflexivity|cbn; lia|exact I]. }
  eapply M_seq; [eapply M_char; reflexivity|].
  eapply M_seq; [eapply M_char; reflexivity|].
  apply M_eps.
Qed.

Lemma pick_cases (avoid : option ascii) : pick avoid = "a"%char \/ pick avoid = "b"%char.
Proof. destruct avoid as [c|]; cbn; [destruct (PyStr.eqc c "a")|]; auto. Qed.

Lemma pick_avoids (c : ascii) : pick (Some c) <> c.
Proof.
  cbn. destruct (PyStr.eqc c "a") eqn:E.
  - apply eqc_eq in E. subst c. discriminate.
  - apply eqc_neq in E. congruence.
Qed.

Lemma opt_eqc_eq (a b : option ascii) : opt_eqc a b = true -> a = b.
Proof.
  destruct a, b; cbn; try discriminate; auto. intros H. apply eqc_eq in H. now subst.
Qed.

Lemma guarded_spec (s e : ascii) (t : text) : forall prev X Y,
  guarded s e prev t = true -> t = X ++ "."%char :: Y ->
  last (map Some X) prev = Some s /\ hd_error Y = Some e.
Proof.
  induction t as [|c t IH]; intros prev X Y Hg Ht.
  - destruct X; discriminate.
  - cbn [guarded] in Hg. apply andb_prop in Hg as [Hc Hg].
    destruct X as [|x X]; cbn [app] in Ht; injection Ht as -> ->.
    + cbn in Hc. apply andb_prop in Hc as [H1 H2].
      apply opt_eqc_eq in H1, H2. cbn [map last]. auto.
    + cbn [map]. rewrite last_cons. eapply IH; eauto.
Qed.

Lemma guarded_app_nodot (s e : ascii) (l t : text) : forall prev,
  ~ In "."%char l ->
  guarded s e prev (l ++ t) = guarded s e (last (map Some l) prev) t.
Proof.
  induction l as [|c l IH]; intros prev H; [reflexivity|].
  cbn [app guarded map]. rewrite last_cons.
  destruct (PyStr.eqc c ".") eqn:E.
  - apply eqc_eq in E. subst c. exfalso. apply H. now left.
  - cbn [andb]. apply IH. intros Hin. apply H. now right.
Qed.

Lemma first_dot_split (base : text) : forall prev,
  In "."%char base ->
  exists u v,
    base = u ++ "."%char :: v
    /\ first_dot_prev prev base = last (map Some u) prev
    /\ first_dot_next base = hd_error v.
Proof.
  induction base as [|c base IH]; intros prev H; [destruct H|].
  cbn [first_dot_prev first_dot_next]. destruct (PyStr.eqc c ".") eqn:E.
  - apply eqc_eq in E. subst c. exists [], base. auto.
  - destruct H as [->|H]; [now rewrite eqc_refl in E|].
    destruct (IH (Some c) H) as (u & v & -> & Hp & Hn).
    exists (c :: u), v. cbn [map app]. rewrite last_cons. auto.
Qed.

Lemma image_text_guarded (base : text) :
  guarded (pick (first_dot_prev None base)) (pick (first_dot_next base)) None
          (image_text base) = true.
Proof.
  unfold image_text, file_name.
  set (B := map undot base). assert (HB : ~ In "."%char B) by apply undot_no_dot.
  clearbody B.
  destruct (pick_cases (first_dot_prev None base)) as [-> | ->],
           (pick_cases (first_dot_next base)) as [-> | ->];
    (rewrite guarded_app_nodot by (vm_compute; intuition discriminate);
     rewrite guarded_app_nodot by exact HB;
     rewrite guarded_app_nodot by (vm_compute; intuition discriminate);
     cbn [app guarded PyStr.eqc Ascii.eqb Bool.eqb opt_eqc hd_error andb map last
          str list_ascii_of_string];
     rewrite guarded_app_nodot by exact HB;
     reflexivity).
Qed.

Lemma last_app_default {X} (l1 l2 : list X) : forall d,
  last (l1 ++ l2) d = last l2 (last l1 d).
Proof.
  induction l1 as [|x l1 IH]; intros d; [reflexivity|].
  cbn [app]. now rewrite !last_cons.
Qed.

Lemma last_some (c : ascii) (u : text) (d : option ascii) :
  last (map Some (c :: u)) d = Some (last u c).
Proof.
  revert c d. induction u as [|x u IH]; intros c d; [reflexivity|].
  cbn [map]. rewrite last_cons. cbn [map] in IH. rewrite IH. now rewrite last_cons.
Qed.

Lemma image_text_without_base (base : text) :
  In "."%char base -> base <> ["."%char] -> ~ is_substring base (image_text base).
Proof.
  intros Hdot Hne (pre & post & Ht).
  destruct (@first_dot_split base None Hdot) as (u & v & Hb & Hp & Hn).
  pose proof (image_text_guarded base) as Hg.
  assert (Ht' : image_text base = (pre ++ u) ++ "."%char :: (v ++ post)).
  { rewrite Ht, Hb. now rewrite <- !app_assoc. }
  destruct (@guarded_spec _ _ _ None (pre ++ u) (v ++ post) Hg Ht') as [Hs He].
  destruct u as [|c u].
  - destruct v as [|d v]; [now subst base|].
    rewrite Hn in He. cbn in He. injection He as He. symmetry in He.
    now apply pick_avoids in He.
  - rewrite map_app, last_app_default in Hs.
    rewrite (last_some c u) in Hs, Hp. rewrite Hp in Hs.
    injection Hs as Hs. symmetry in Hs. now apply pick_avoids in Hs.
Qed.

Lemma image_mid_matches (pos : nat) (prev : option ascii) (s e : ascii) (rest : text) :
  (s = "a" \/ s = "b")%char -> (e = "a" \/ e = "b")%char ->
  Matches (seq_list image_mid_items)
          (Re.MState pos prev (str "/uploads/" ++ [s; "."%char; e; e; e] ++ str ")](" ++ rest) [])
          (Re.MState (17 + pos) (Some "("%char) rest []).
Proof.
  intros [-> | ->] [-> | ->]; apply matches_computed; vm_compute; reflexivity.
Qed.

Lemma image_name_matches (pos : nat) (prev : option ascii) (s e : ascii) :
  (s = "a" \/ s = "b")%char -> (e = "a" \/ e = "b")%char ->
  exists st',
    Matches (seq_list (image_in_items ++ [Re.RGroup 2 (seq_list image_name_items)]))
            (Re.MState pos prev (str "/uploads/i/" ++ [s; "."%char; e; e; e] ++ str ")") [])
            st'
    /\ Re.ms_rest st' = str ")".
Proof.
  intros [-> | ->] [-> | ->]; eexists;
    (split; [apply matches_computed; vm_compute; reflexivity|reflexivity]).
Qed.

Lemma image_regex_matches (base : text) :
  forallb simple base = true -> match_exists (image_regex base) (image_text base).
Proof.
  intros H. unfold image_regex, image_text, file_name.
  pose proof (pick_cases (first_dot_prev None base)) as Hs.
  pose proof (pick_cases (first_dot_next base)) as He.
  destruct (image_name_matches (17 + (6 + length base) + length base)
              (last (map Some (map undot base)) (Some "("%char)) Hs He)
    as (st3 & Hname & Hrest).
  eapply match_exists_at_start.
  eapply matches_seq_list_app; [apply image_pre_matches|].
  eapply matches_seq_list_app; [now apply matches_atoms|].
  eapply matches_seq_list_app; [now apply image_mid_matches|].
  cbn [seq_list fold_right].
  eapply M_seq.
  { unfold image_group. apply M_group.
    eapply matches_seq_list_app; [now apply matches_atoms|exact Hname]. }
  eapply M_seq; [|apply M_eps].
  eapply M_char; [exact Hrest|reflexivity].
Qed.

Lemma image_matches_without_base (base : text) :
  forallb simple base = true -> In "."%char base -> base <> ["."%char] ->
  matches_without_base IMAGE_LINK_REGEX_TEMPLATE base.
Proof.
  intros Hs Hdot Hne. exists (image_regex base), (image_text base).
  split; [now apply image_compiles|].
  split; [now apply image_text_without_base|now apply image_regex_matches].
Qed.

(** *** A base URL that ends with a dollar sign *)

Lemma eol_then_slash (r : Re.regex) (st st' : Re.mstate) :
  Matches (Re.RSeq (Re.REol false) (Re.RSeq (Re.RChar (Re.CsLit "/")) r)) st st' -> False.
Proof.
  intros H. apply matches_seq_inv in H as (st1 & Heol & H).
  apply matches_seq_inv in H as (st2 & Hc & _).
  inversion Heol as [| | | |ml st0 He| |]; subst.
  inversion Hc as [|cs c rest' st0 Hr Hm| | | | |]; subst.
  rewrite Hr in He. cbn [Re.cs_match] in Hm. apply eqc_eq in Hm. subst c.
  cbn in He. discriminate.
Qed.

Lemma dollar_internal_compiles :
  compile_template INTERNAL_LINK_REGEX_TEMPLATE dollar_base = Re.Compiled dollar_internal_re.
Proof. vm_compute. reflexivity. Qed.

Lemma dollar_image_compiles :
  compile_template IMAGE_LINK_REGEX_TEMPLATE dollar_base = Re.Compiled dollar_image_re.
Proof. vm_compute. reflexivity. Qed.

Lemma dollar_internal_no_match (s : text) : ~ match_exists dollar_internal_re s.
Proof.
  intros (pre & rest & st' & _ & Hm). unfold dollar_internal_re in Hm.
  do 3 (apply matches_seq_inv in Hm as (? & _ & Hm)).
  now apply eol_then_slash in Hm.
Qed.

Lemma dollar_image_no_match (s : text) : ~ match_exists dollar_image_re s.
Proof.
  intros (pre & rest & st' & _ & Hm). unfold dollar_image_re in Hm.
  do 9 (apply matches_seq_inv in Hm as (? & _ & Hm)).
  now apply eol_then_slash in Hm.
Qed.

(** With the base URL [w.x$] both patterns compile, and neither matches any
    text at all: after the [$] the pattern wants a [/]. *)
Lemma dollar_base_matches_nothing :
  In "."%char dollar_base
  /\ (exists r, compile_template INTERNAL_LINK_REGEX_TEMPLATE dollar_base = Re.Compiled r)
  /\ (exists r, compile_template IMAGE_LINK_REGEX_TEMPLATE dollar_base = Re.Compiled r)
  /\ ~ matches_without_base INTERNAL_LINK_REGEX_TEMPLATE dollar_base
  /\ ~ matches_without_base IMAGE_LINK_REGEX_TEMPLATE dollar_base.
Proof.
  split; [simpl; auto|].
  split; [eexists; apply dollar_internal_compiles|].
  split; [eexists; apply dollar_image_compiles|].
  split; intros (r & s & Hc & _ & Hm).
  - rewrite dollar_internal_compiles in Hc. injection Hc as <-.
    now apply dollar_internal_no_match in Hm.
  - rewrite dollar_image_compiles in Hc. injection Hc as <-.
    now apply dollar_image_no_match in Hm.
Qed.

(** C10, as amended.  For a base URL made of dots and of characters that are
    literal in a pattern, with a dot in it, there is a text that does not
    contain the base URL and that the compiled internal-link pattern
    matches; and there is one for the image pattern too, unless the base URL
    is the single dot. *)
Theorem simple_base_url_matches_other_text (base : text) :
  forallb simple base = true -> In "."%char base ->
  matches_without_base INTERNAL_LINK_REGEX_TEMPLATE base
  /\ (base <> ["."%char] -> matches_without_base IMAGE_LINK_REGEX_TEMPLATE base).
Proof.
  intros Hs Hdot. split.
  - now apply internal_matches_without_base.
  - intros Hne. now apply image_matches_without_base.
Qed.

Lemma simple_base_url_matches_other_text_witness :
  matches_without_base INTERNAL_LINK_REGEX_TEMPLATE example_base
  /\ matches_without_base IMAGE_LINK_REGEX_TEMPLATE example_base.
Proof.
  assert (Hs : forallb simple example_base = true) by reflexivity.
  assert (Hd : In "."%char example_base) by (simpl; auto 20).
  destruct (@simple_base_url_matches_other_text example_base Hs Hd) as [H1 H2].
  split; [exact H1|]. apply H2. discriminate.
Defined.

(** * More of the program *)

(** ** Where a match lies in the text *)

Lemma matches_consumed (r : Re.regex) (st st' : Re.mstate) :
  Matches r st st' ->
  exists l, Re.ms_rest st = l ++ Re.ms_rest st'
            /\ Re.ms_pos st' = Re.ms_pos st + length l.
Proof.
  induction 1 as [st|cs c rest' st Hr Hc|greedy lo hi cs l rest' st Hr Hall Hlo Hhi
                  |ml st Hb|ml st He|n r st st' Hm IH|r1 r2 st st1 st2 H1 IH1 H2 IH2].
  - exists []. cbn. split; [reflexivity|lia].
  - exists [c]. cbn. now rewrite Hr.
  - exists l. cbn. now rewrite Hr.
  - exists []. cbn. split; [reflexivity|lia].
  - exists []. cbn. split; [reflexivity|lia].
  - destruct IH as (l & Hl & Hp). exists l. cbn. auto.
  - destruct IH1 as (l1 & Hl1 & Hp1). destruct IH2 as (l2 & Hl2 & Hp2).
    exists (l1 ++ l2). rewrite Hl1, Hl2, Hp2, Hp1, length_app, <- app_assoc.
    split; [reflexivity|lia].
Qed.

Lemma match_at_span (r : Re.regex) (pos : nat) (prev : option ascii) (rest : text)
    (mt : Re.rmatch) :
  Re.match_at r pos prev rest = Some mt ->
  Re.m_start mt = pos /\ pos <= Re.m_end mt <= pos + length rest.
Proof.
  unfold Re.match_at. intros H. apply m_sound in H as (st' & Hm & [= <-]).
  apply matches_consumed in Hm as (l & Hl & Hp). cbn in *.
  split; [reflexivity|]. rewrite Hp. apply (f_equal (@length _)) in Hl.
  rewrite length_app in Hl. lia.
Qed.

Lemma finditer_from_spans (r : Re.regex) (rest : text) : forall pos prev skip,
  Forall (fun mt => pos <= Re.m_start mt /\ Re.m_start mt <= Re.m_end mt
                    /\ Re.m_end mt <= pos + length rest)
         (Re.finditer_from r rest pos prev skip).
Proof.
  induction rest as [|c rest IH]; intros pos prev skip; cbn [Re.finditer_from].
  - destruct skip; [|constructor].
    destruct (Re.match_at r pos prev []) eqn:E; [|constructor].
    apply match_at_span in E as (Hs & He). repeat constructor; lia.
  - assert (Htail : forall sk, Forall
              (fun mt => pos <= Re.m_start mt /\ Re.m_start mt <= Re.m_end mt
                         /\ Re.m_end mt <= pos + length (c :: rest))
              (Re.finditer_from r rest (S pos) (Some c) sk)).
    { intros sk. eapply Forall_impl; [|apply IH]. cbn [length]. intros mt. lia. }
    destruct skip; [|apply Htail].
    destruct (Re.match_at r pos prev (c :: rest)) eqn:E; [|apply Htail].
    apply match_at_span in E as (Hs & He). constructor; [lia|apply Htail].
Qed.

Lemma finditer_spans (r : Re.regex) (s : text) :
  Forall (fun mt => Re.m_start mt <= Re.m_end mt /\ Re.m_end mt <= length s)
         (Re.finditer r s).
Proof.
  eapply Forall_impl; [|apply (finditer_from_spans r s 0 None 0)].
  intros mt. cbn. lia.
Qed.

(** ** The image loop, round by round *)

Lemma inline_image_ok (e : env) (dir : PathLib.path) (md0 : text)
    (doc doc' : PageDetails) (mt : Re.rmatch) (evs : list event) :
  inline_image e dir md0 doc mt = (evs, Ok doc') ->
  exists url image_filename st content,
    Re.group md0 mt 1 = Some url /\ Re.group md0 mt 2 = Some image_filename
    /\ http_get e url = Response st content /\ is_error_status st = false
    /\ open_ok e (PathLib.joinpath dir image_filename) = true
    /\ evs = [EvEcho Blue (str "Found embedded image in " ++ book doc ++ str " => "
                           ++ page_title doc ++ str ": " ++ image_filename);
              EvGet url;
              EvWriteBytes (PathLib.joinpath dir image_filename) content].
Proof.
  unfold inline_image. intros H.
  apply bind_ok in H as (ev1 & url & ? & Hu & H & ->).
  apply bind_ok in H as (ev2 & image_filename & ? & Hf & H & ->).
  apply bind_ok in H as (ev3 & [] & ? & Hecho & H & ->).
  apply bind_ok in H as (ev4 & [st content] & ? & Hget & H & ->).
  apply bind_ok in H as (ev5 & [] & ? & Hst & H & ->).
  apply bind_ok in H as (ev6 & [] & ? & Hw & H & ->).
  injection H as <- _.
  destruct (Re.group md0 mt 1) as [u|]; [|discriminate]. injection Hu as <- <-.
  destruct (Re.group md0 mt 2) as [f|]; [|discriminate]. injection Hf as <- <-.
  injection Hecho as <-.
  unfold requests_get in Hget.
  apply bind_ok in Hget as (? & [] & ? & Hemit & Hresp & ->). injection Hemit as <-.
  destruct (http_get e u) as [|st' content'] eqn:Eget; [discriminate|].
  injection Hresp as <- -> ->.
  unfold raise_for_status in Hst. cbn [fst] in Hst.
  destruct (is_error_status st) eqn:Est; [discriminate|]. injection Hst as <-.
  unfold write_bytes in Hw. cbn [snd] in Hw.
  destruct (open_ok e _) eqn:Eopen; [|discriminate]. injection Hw as <-.
  exists u, f, st, content. repeat split; auto.
Qed.

Lemma for_each_events {X S} (I : S -> Prop) (f : X -> list event) (xs : list X)
    (body : S -> X -> M S) :
  (forall s x evs1 s1, In x xs -> I s -> body s x = (evs1, Ok s1) -> evs1 = f x /\ I s1) ->
  forall s evs s',
    I s -> for_each xs body s = (evs, Ok s') -> evs = flat_map f xs /\ I s'.
Proof.
  induction xs as [|x xs IH]; intros Hb s evs s' Hs H; cbn [for_each] in H.
  - injection H as <- <-. auto.
  - apply bind_ok in H as (evs1 & s1 & evs2 & H1 & H2 & ->).
    destruct (Hb s x evs1 s1 (or_introl eq_refl) Hs H1) as [-> Hs1].
    destruct (IH (fun s x evs1 s1 Hin => Hb s x evs1 s1 (or_intror Hin)) s1 evs2 s' Hs1 H2)
      as [-> Hs'].
    auto.
Qed.

(** In a loop that ends well every round ended well. *)
Lemma for_each_every_round {X S} (xs : list X) (body : S -> X -> M S) : forall s evs s',
  for_each xs body s = (evs, Ok s') ->
  forall x, In x xs -> exists s0 evs1 s1, body s0 x = (evs1, Ok s1).
Proof.
  induction xs as [|y xs IH]; intros s evs s' H x Hin; [destruct Hin|].
  cbn [for_each] in H. apply bind_ok in H as (evs1 & s1 & evs2 & H1 & H2 & _).
  destruct Hin as [->|Hin]; eauto.
Qed.

(** X1. When the image pattern matches nowhere in the page's text, the image
    loop does nothing: no request, no file, no notice, and the page is
    returned as it was. *)
Theorem no_image_no_effect (e : env) (dir : PathLib.path) (r : Re.regex)
    (doc : PageDetails) :
  ~ match_exists r (page_markdown doc) ->
  inline_images e dir r doc = ([], Ok doc).
Proof.
  intros H. unfold inline_images.
  destruct (Re.finditer r (page_markdown doc)) as [|mt ms] eqn:E; [reflexivity|].
  exfalso. apply H. apply finditer_match_exists. rewrite E. discriminate.
Qed.

Lemma no_image_no_effect_witness :
  inline_images env_404 (book_dir example_root hello_page) example_image_re hello_page
  = ([], Ok hello_page).
Proof.
  apply no_image_no_effect. intros H. apply finditer_match_exists in H.
  apply H. vm_compute. reflexivity.
Defined.

Lemma image_events_gets (e : env) (dir : PathLib.path) (doc : PageDetails)
    (ms : list Re.rmatch) :
  length (filter is_get (flat_map (image_events e dir doc) ms)) = length ms.
Proof. induction ms as [|x xs IH]; [reflexivity|]. simpl. now rewrite IH. Qed.

Lemma image_loop_run (e : env) (dir : PathLib.path) (r : Re.regex)
    (doc doc' : PageDetails) (evs : list event) :
  inline_images e dir r doc = (evs, Ok doc') ->
  evs = flat_map (image_events e dir doc) (rev (Re.finditer r (page_markdown doc)))
  /\ same_page doc doc'.
Proof.
  unfold inline_images. intros H. set (md := page_markdown doc) in *.
  assert (Hbody : forall s x evs1 s1, In x (rev (Re.finditer r md)) -> same_page doc s ->
            inline_image e dir md s x = (evs1, Ok s1) ->
            evs1 = image_events e dir doc x /\ same_page doc s1).
  { intros s x evs1 s1 _ Hs Hx. split; [|eapply inline_image_same_page; eauto].
    apply inline_image_ok in Hx
      as (url & f & st & content & Hu & Hf & Hget & _ & _ & ->).
    destruct Hs as (_ & Hbook & Htitle & _).
    unfold image_events, group_text, response_content. fold md.
    now rewrite Hu, Hf, Hget, Hbook, Htitle. }
  assert (Hdoc : same_page doc doc) by (repeat split).
  exact (@for_each_events _ _ (same_page doc) (image_events e dir doc) _ _ Hbody
           doc evs doc' Hdoc H).
Qed.

(** X2. When the image loop ends well, its events are, for each match from
    the rightmost to the leftmost, the notice, the request for the match's
    full-size URL and the write of the response into the page's directory
    under the match's file name: one download per match.  Every response
    had a status that is no error, and the page keeps its shelf, book, title
    and draft flag. *)
Theorem image_loop_events (e : env) (dir : PathLib.path) (r : Re.regex)
    (doc doc' : PageDetails) (evs : list event) :
  inline_images e dir r doc = (evs, Ok doc') ->
  evs = flat_map (image_events e dir doc) (rev (Re.finditer r (page_markdown doc)))
  /\ length (filter is_get evs) = length (Re.finditer r (page_markdown doc))
  /\ (forall mt, In mt (Re.finditer r (page_markdown doc)) ->
        exists url st content,
          Re.group (page_markdown doc) mt 1 = Some url
          /\ http_get e url = Response st content /\ is_error_status st = false)
  /\ same_page doc doc'.
Proof.
  intros H. destruct (@image_loop_run e dir r doc doc' evs H) as [Hevs Hsame].
  split; [exact Hevs|]. split; [|split; [|exact Hsame]].
  - rewrite Hevs, <- (length_rev (Re.finditer r (page_markdown doc))).
    apply image_events_gets.
  - intros mt Hin. apply in_rev in Hin. unfold inline_images in H.
    destruct (@for_each_every_round _ _ _ _ _ _ _ H mt Hin) as (s0 & evs1 & s1 & H1).
    apply inline_image_ok in H1 as (url & f & st & content & Hu & _ & Hget & Hst & _).
    exists url, st, content. auto.
Qed.

Lemma image_loop_events_witness :
  exists evs doc',
    inline_images env_ok (book_dir example_root image_page) example_image_re image_page
    = (evs, Ok doc')
    /\ evs = [EvEcho Blue (str "Found embedded image in B => Intro: f.png");
              EvGet (str "http://w.x/uploads/i/f.png");
              EvWriteBytes (PathLib.Path [] [str "export"; str "S"; str "B"; str "f.png"]) []].
Proof.
  destruct (inline_images env_ok (book_dir example_root image_page) example_image_re
              image_page) as [evs [doc'|ex]] eqn:E.
  - exists evs, doc'. split; [reflexivity|].
    rewrite (proj1 (@image_loop_events _ _ _ _ _ _ E)). vm_compute. reflexivity.
  - vm_compute in E. discriminate.
Defined.

(** ** The text the image loop leaves *)

Lemma firstn_add {X} (c k : nat) (l : list X) :
  firstn (c + k) l = firstn c l ++ firstn k (skipn c l).
Proof.
  revert l. induction c as [|c IH]; intros l; [reflexivity|].
  destruct l as [|x l]; [cbn; now rewrite firstn_nil|]. cbn. now rewrite IH.
Qed.

Lemma spaced_tail (m : Re.rmatch) (ms : list Re.rmatch) : spaced (m :: ms) -> spaced ms.
Proof. destruct ms; cbn; tauto. Qed.

Lemma image_loop_text_from (e : env) (dir : PathLib.path) (md : text)
    (ms : list Re.rmatch) :
  Forall (fun mt => Re.m_start mt <= Re.m_end mt /\ Re.m_end mt <= length md) ms ->
  spaced ms ->
  forall c doc0 doc' evs,
    match ms with [] => c <= length md | m :: _ => c <= Re.m_start m end ->
    page_markdown doc0 = md ->
    for_each (rev ms) (inline_image e dir md) doc0 = (evs, Ok doc') ->
    page_markdown doc' = firstn c md ++ splice md c (map (eaten_span md) ms).
Proof.
  induction ms as [|m ms IH]; intros Hb Hsp c doc0 doc' evs Hc Hmd H.
  - cbn in H. injection H as _ <-. cbn [map splice]. now rewrite firstn_skipn.
  - inversion Hb as [|? ? [Hse Hel] Hb']; subst.
    cbn [rev] in H. rewrite for_each_app in H.
    apply bind_ok in H as (evs1 & d1 & evs2 & H1 & H2 & _).
    cbn [for_each] in H2. apply bind_ok in H2 as (evs3 & d2 & ? & H2 & Hret & _).
    injection Hret as _ <-.
    assert (Hc' : match ms with
                  | [] => Nat.min (S (Re.m_end m)) (length (page_markdown doc0))
                          <= length (page_markdown doc0)
                  | m' :: _ => S (Re.m_end m) <= Re.m_start m'
                  end).
    { destruct ms as [|m' ms']; [lia|]. cbn in Hsp. lia. }
    apply inline_image_text in H2 as (fname & Hf & Htext). rewrite Htext.
    set (md := page_markdown doc0) in *.
    assert (Hd1 : page_markdown d1
                  = firstn (S (Re.m_end m)) md
                    ++ splice md (S (Re.m_end m)) (map (eaten_span md) ms)).
    { destruct ms as [|m' ms'].
      - cbn in H1. injection H1 as _ <-. cbn [map splice]. now rewrite firstn_skipn.
      - eapply IH; eauto; [now apply spaced_tail in Hsp | reflexivity]. }
    assert (Hfirst : firstn (Re.m_start m) (page_markdown d1) = firstn (Re.m_start m) md).
    { rewrite Hd1, firstn_app, firstn_firstn, length_firstn.
      replace (Nat.min (Re.m_start m) (S (Re.m_end m))) with (Re.m_start m) by lia.
      replace (Re.m_start m - Nat.min (S (Re.m_end m)) (length md)) with 0 by lia.
      cbn [firstn]. now rewrite app_nil_r. }
    assert (Hskip : skipn (S (Re.m_end m)) (page_markdown d1)
                    = splice md (S (Re.m_end m)) (map (eaten_span md) ms)).
    { rewrite Hd1, skipn_app, length_firstn.
      destruct (Nat.le_gt_cases (S (Re.m_end m)) (length md)) as [Hle|Hgt].
      - replace (Nat.min (S (Re.m_end m)) (length md)) with (S (Re.m_end m)) by lia.
        rewrite Nat.sub_diag, skipn_O.
        rewrite skipn_all2 by (rewrite length_firstn; lia). reflexivity.
      - destruct ms as [|m' ms'].
        + cbn [map splice]. rewrite (skipn_all2 md) by lia.
          rewrite skipn_nil, app_nil_r. apply skipn_all2. rewrite length_firstn. lia.
        + exfalso. inversion Hb' as [|? ? [Hs' He'] _]; subst. cbn in Hsp. lia. }
    rewrite Hfirst, Hskip. cbn [map splice eaten_span]. unfold bare_embed at 1.
    rewrite Hf, (app_assoc (firstn c md)), <- firstn_add.
    replace (c + (Re.m_start m - c)) with (Re.m_start m) by lia.
    now rewrite <- !app_assoc.
Qed.

(** X3. When the image loop ends well and no match starts where the one
    before it ends, the text it leaves is the original text with, for every
    match, the span from the match start to one character past the match end
    replaced by the embed of the match's file name: working from the right
    keeps the offsets of the matches further left valid. *)
Theorem image_loop_text (e : env) (dir : PathLib.path) (r : Re.regex)
    (doc doc' : PageDetails) (evs : list event) :
  inline_images e dir r doc = (evs, Ok doc') ->
  spaced (Re.finditer r (page_markdown doc)) ->
  page_markdown doc'
  = splice (page_markdown doc) 0
           (map (eaten_span (page_markdown doc)) (Re.finditer r (page_markdown doc))).
Proof.
  unfold inline_images. intros H Hsp.
  rewrite (@image_loop_text_from e dir (page_markdown doc)
             (Re.finditer r (page_markdown doc)) (finditer_spans r _) Hsp
             0 doc doc' evs); auto.
  destruct (Re.finditer r (page_markdown doc)); lia.
Qed.

Lemma image_loop_text_witness :
  exists evs doc',
    inline_images env_ok (book_dir example_root gallery_page) example_image_re gallery_page
    = (evs, Ok doc')
    /\ page_markdown doc' = str "One ![](f.png)and
![](g.jpg)end".
Proof.
  destruct (inline_images env_ok (book_dir example_root gallery_page) example_image_re
              gallery_page) as [evs [doc'|ex]] eqn:E.
  - exists evs, doc'. split; [reflexivity|].
    rewrite (@image_loop_text _ _ _ _ _ _ E); [vm_compute; reflexivity|].
    vm_compute. repeat split; lia.
  - vm_compute in E. discriminate.
Defined.

(** ** The events of the link scan *)

Lemma echo_lines_run (ls : list text) :
  for_each ls (fun (_ : unit) snippet_line => echo Plain (str "    " ++ snippet_line)) tt
  = (map (fun snippet_line => EvEcho Plain (str "    " ++ snippet_line)) ls, Ok tt).
Proof.
  unfold echo, emit.
  induction ls as [|l ls IH]; cbn [for_each map]; [reflexivity|].
  unfold World.bind at 1. rewrite IH. reflexivity.
Qed.

Lemma report_link_run (doc : PageDetails) (found : bool) (mt : Re.rmatch) (g1 g2 : text) :
  Re.group (page_markdown doc) mt 1 = Some g1 ->
  Re.group (page_markdown doc) mt 2 = Some g2 ->
  report_link doc found mt = (link_events doc mt, Ok true).
Proof.
  intros H1 H2. unfold report_link, link_events, group_text. rewrite H1, H2.
  cbn [lift_group]. rewrite echo_lines_run.
  unfold World.bind, ret, echo, emit. cbn [app]. now rewrite app_nil_r.
Qed.

Lemma finditer_groups (r : Re.regex) (s : text) (mt : Re.rmatch) (n : nat) :
  defines_group n r = true -> In mt (Re.finditer r s) ->
  exists g, Re.group s mt n = Some g.
Proof.
  intros Hg Hin. unfold Re.finditer in Hin.
  apply finditer_from_match_at in Hin as (pos & prev & rest & Hm).
  exact (@match_at_group r pos prev rest s mt n Hm Hg).
Qed.

Lemma link_loop_run (doc : PageDetails) (ms : list Re.rmatch) :
  (forall mt, In mt ms ->
     (exists g1, Re.group (page_markdown doc) mt 1 = Some g1)
     /\ exists g2, Re.group (page_markdown doc) mt 2 = Some g2) ->
  forall found,
    for_each ms (report_link doc) found
    = (flat_map (link_events doc) ms, Ok (match ms with [] => found | _ => true end)).
Proof.
  induction ms as [|m ms IH]; intros Hg found; [reflexivity|].
  cbn [for_each flat_map].
  destruct (Hg m (or_introl eq_refl)) as [[g1 H1] [g2 H2]].
  rewrite (@report_link_run doc found m g1 g2 H1 H2).
  unfold World.bind at 1. rewrite IH by (intros mt Hin; apply Hg; now right).
  now destruct ms.
Qed.

Lemma notices_of_links (doc : PageDetails) (ms : list Re.rmatch) :
  length (filter is_notice (flat_map (link_events doc) ms)) = length ms.
Proof.
  induction ms as [|m ms IH]; [reflexivity|].
  cbn [flat_map]. rewrite filter_app, length_app, IH. unfold link_events.
  cbn [filter is_notice length].
  match goal with
  | |- S (length (filter is_notice (map ?f ?l))) + _ = _ =>
      replace (filter is_notice (map f l)) with (@nil event); [reflexivity|]
  end.
  match goal with |- _ = filter _ (map _ ?ls) => induction ls as [|x xs IHl] end;
    [reflexivity|exact IHl].
Qed.

(** X4. For the internal-link pattern of any base URL, what the scan of a
    page prints is, for every match from left to right, one notice naming
    the page and the two captured slugs, followed by the lines of the
    snippet, each indented by four spaces; so there are as many notices as
    matches. *)
Theorem link_scan_events (base : text) (lre : Re.regex) (doc : PageDetails) :
  compile_template INTERNAL_LINK_REGEX_TEMPLATE base = Re.Compiled lre ->
  find_internal_links lre doc
  = (flat_map (link_events doc) (Re.finditer lre (page_markdown doc)),
     Ok (negb (Nat.eqb (length (Re.finditer lre (page_markdown doc))) 0)))
  /\ length (filter is_notice (fst (find_internal_links lre doc)))
     = length (Re.finditer lre (page_markdown doc)).
Proof.
  intros Hc. destruct (internal_pattern_groups _ Hc) as [Hg1 Hg2].
  assert (H : find_internal_links lre doc
              = (flat_map (link_events doc) (Re.finditer lre (page_markdown doc)),
                 Ok (negb (Nat.eqb (length (Re.finditer lre (page_markdown doc))) 0)))).
  { unfold find_internal_links. rewrite link_loop_run.
    - now destruct (Re.finditer lre (page_markdown doc)).
    - intros mt Hin. split; eapply finditer_groups; eauto. }
  split; [exact H|]. rewrite H. apply notices_of_links.
Qed.

Lemma link_scan_events_witness :
  find_internal_links example_link_re (add_title link_page)
  = (flat_map (link_events (add_title link_page))
              (Re.finditer example_link_re (page_markdown (add_title link_page))),
     Ok (negb (Nat.eqb (length (Re.finditer example_link_re
                                  (page_markdown (add_title link_page)))) 0)))
  /\ length (filter is_notice (fst (find_internal_links example_link_re (add_title link_page))))
     = length (Re.finditer example_link_re (page_markdown (add_title link_page))).
Proof.
  apply (@link_scan_events example_base). vm_compute. reflexivity.
Defined.

Lemma snippet_any (s : text) (start : nat) :
  start <= length s ->
  PyStr.slice s (Some (Z.of_nat start - 60)%Z) (Some (Z.of_nat start))
  = context_of s start.
Proof.
  intros H. unfold context_of, context_offset.
  destruct (Nat.leb_spec 60 start) as [Hfar|Hnear].
  - apply snippet_far. lia.
  - unfold PyStr.slice, PyStr.norm_index.
    destruct (Z.ltb_spec (Z.of_nat start - 60) 0); [|lia].
    destruct (Z.ltb_spec (Z.of_nat start) 0); [lia|].
    replace (Z.to_nat (Z.min (Z.of_nat start) (Z.of_nat (length s)))) with start by lia.
    replace (Z.to_nat (Z.max 0 (Z.of_nat start - 60 + Z.of_nat (length s))))
      with (length s + start - 60) by lia.
    now rewrite skipn_firstn_comm.
Qed.

(** X5. For the internal-link pattern of any base URL and any match of the
    scan, the lines printed under the notice are the lines of the text from
    [context_offset] to the start of the match.  That is the 60 characters
    before the match when it starts at 60 or later, nothing when it starts
    before 60 in a text of 60 characters or more, and all the text before the
    match when the text and the start together are no longer than 60. *)
Theorem link_context (base : text) (lre : Re.regex) (doc : PageDetails)
    (mt : Re.rmatch) (found : bool) :
  compile_template INTERNAL_LINK_REGEX_TEMPLATE base = Re.Compiled lre ->
  In mt (Re.finditer lre (page_markdown doc)) ->
  let md := page_markdown doc in
  let start := Re.m_start mt in
  (exists g1 g2,
     Re.group md mt 1 = Some g1 /\ Re.group md mt 2 = Some g2
     /\ report_link doc found mt
        = (EvEcho BrightMagenta (str ">> Internal link found in [" ++ page_title doc
                                 ++ str "] to [" ++ g1 ++ str "]/[" ++ g2 ++ str "]")
           :: map (fun l => EvEcho Plain (str "    " ++ l))
                  (PyStr.splitlines (context_of md start)),
           Ok true))
  /\ (60 <= start ->
      length (context_of md start) = 60
      /\ firstn start md = firstn (start - 60) md ++ context_of md start)
  /\ (start < 60 <= length md -> context_of md start = [])
  /\ (length md + start <= 60 -> context_of md start = firstn start md).
Proof.
  intros Hc Hin md start. subst md start.
  destruct (internal_pattern_groups _ Hc) as [Hg1 Hg2].
  destruct (@finditer_groups lre (page_markdown doc) mt 1 Hg1 Hin) as [g1 H1].
  destruct (@finditer_groups lre (page_markdown doc) mt 2 Hg2 Hin) as [g2 H2].
  pose proof (finditer_spans lre (page_markdown doc)) as Hsp.
  rewrite Forall_forall in Hsp. specialize (Hsp mt Hin).
  assert (Hstart : Re.m_start mt <= length (page_markdown doc)) by lia.
  set (md := page_markdown doc) in *. set (start := Re.m_start mt) in *.
  split; [|split; [|split]].
  - exists g1, g2. split; [exact H1|]. split; [exact H2|].
    rewrite (@report_link_run doc found mt g1 g2 H1 H2).
    unfold link_events, group_text. fold md start. rewrite H1, H2.
    now rewrite (@snippet_any md start Hstart).
  - intros Hfar. unfold context_of, context_offset.
    destruct (Nat.leb_spec 60 start); [|lia]. split.
    + rewrite length_skipn, length_firstn. lia.
    + rewrite <- (firstn_skipn (start - 60) (firstn start md)) at 1.
      rewrite firstn_firstn. now replace (Nat.min (start - 60) start) with (start - 60) by lia.
  - intros Hnear. unfold context_of, context_offset.
    destruct (Nat.leb_spec 60 start); [lia|].
    apply skipn_all2. rewrite length_firstn. lia.
  - intros Hshort. unfold context_of, context_offset.
    destruct (Nat.leb_spec 60 start); [lia|].
    now replace (length md + start - 60) with 0 by lia.
Qed.

Lemma link_context_witness :
  compile_template INTERNAL_LINK_REGEX_TEMPLATE example_base = Re.Compiled example_link_re
  /\ In far_link_match (Re.finditer example_link_re (page_markdown far_link_page))
  /\ 60 <= Re.m_start far_link_match
  /\ length (context_of (page_markdown far_link_page) 94) = 60.
Proof.
  assert (Hin : In far_link_match
                   (Re.finditer example_link_re (page_markdown far_link_page)))
    by (vm_compute; auto).
  assert (Hfar : 60 <= Re.m_start far_link_match) by (cbn; lia).
  split; [exact example_link_re_compiles|]. split; [exact Hin|]. split; [exact Hfar|].
  exact (proj1 (proj1 (proj2 (@link_context example_base example_link_re far_link_page
                                far_link_match false example_link_re_compiles Hin))
                      Hfar)).
Defined.

(** ** The run *)

Lemma export_all_from (e : env) (export_path : PathLib.path) (ire lre : Re.regex)
    (docs : list PageDetails) : forall b0 evs b,
  for_each docs
    (fun manual_required doc =>
       r <- export_doc e export_path doc ire lre ;;
       ret (snd r || manual_required)) b0 = (evs, Ok b) ->
  evs = flat_map (fun d => fst (export_doc e export_path d ire lre)) docs
  /\ b = existsb (page_flag e export_path ire lre) docs || b0
  /\ Forall (fun d => ~ raises (export_doc e export_path d ire lre)) docs.
Proof.
  induction docs as [|d ds IH]; intros b0 evs b H; cbn [for_each] in H.
  - injection H as <- <-. repeat split. constructor.
  - apply bind_ok in H as (evs1 & b1 & evs2 & H1 & H2 & ->).
    apply bind_ok in H1 as (evs3 & [d' f] & evs4 & H3 & H4 & ->).
    injection H4 as <- <-. cbn [snd] in *.
    apply IH in H2 as (-> & -> & Hall).
    cbn [flat_map existsb]. unfold page_flag at 2. rewrite H3. cbn [fst snd].
    rewrite app_nil_r. split; [reflexivity|]. split.
    + now destruct f, (existsb (page_flag e export_path ire lre) ds), b0.
    + constructor; [|exact Hall]. intros [ex Hex]. rewrite H3 in Hex. discriminate.
Qed.

(** X6. A run that ends normally has printed the three progress lines, then
    done what [export_doc] does for every page, in the order of the list,
    and last printed the cleanup line exactly when [export_doc] returned
    true for one of the pages: the flag of the run is the disjunction of the
    pages' flags. *)
Theorem run_events (e : env) (export_path : PathLib.path) (ire lre : Re.regex)
    (docs : list PageDetails) (evs : list event) :
  run e export_path ire lre docs = (evs, Ok tt) ->
  evs = progress_lines
        ++ flat_map (fun d => fst (export_doc e export_path d ire lre)) docs
        ++ (if existsb (page_flag e export_path ire lre) docs then [cleanup_line] else [])
  /\ export_all e export_path ire lre docs
     = (flat_map (fun d => fst (export_doc e export_path d ire lre)) docs,
        Ok (existsb (page_flag e export_path ire lre) docs)).
Proof.
  unfold run. intros H.
  apply bind_ok in H as (e1 & [] & r1 & H1 & H & ->).
  apply bind_ok in H as (e2 & [] & r2 & H2 & H & ->).
  apply bind_ok in H as (e3 & [] & r3 & H3 & H & ->).
  apply bind_ok in H as (e4 & b & r4 & H4 & H & ->).
  injection H1 as <-. injection H2 as <-. injection H3 as <-.
  pose proof H4 as H4'. unfold export_all in H4'.
  apply export_all_from in H4' as (-> & -> & _). rewrite orb_false_r in *.
  split; [|exact H4].
  destruct (existsb (page_flag e export_path ire lre) docs).
  - injection H as <-. reflexivity.
  - injection H as <-. reflexivity.
Qed.

Lemma run_events_witness :
  exists evs,
    run env_ok example_root example_image_re example_link_re
        [hello_page; link_page] = (evs, Ok tt)
    /\ last evs (EvEcho Plain []) = cleanup_line
    /\ length evs = 9.
Proof.
  destruct (run env_ok example_root example_image_re example_link_re
              [hello_page; link_page]) as [evs [[]|ex]] eqn:E.
  - exists evs. split; [reflexivity|].
    rewrite (proj1 (@run_events _ _ _ _ _ _ E)). vm_compute. split; reflexivity.
  - vm_compute in E. discriminate.
Defined.

(** ** The base URL *)






Lemma rstrip_keeps (c a : ascii) (s : text) :
  a <> c -> PyStr.rstrip c (s ++ [a]) = s ++ [a].
Proof.
  intros Hac. induction s as [|x s IH]; cbn [app PyStr.rstrip].
  - destruct (PyStr.eqc a c) eqn:E; [|reflexivity]. apply eqc_eq in E. contradiction.
  - rewrite IH. now destruct s.
Qed.

(** X8. A base URL that is plain characters and dots followed by a closing
    parenthesis gives a pattern whose parentheses do not balance: [main]
    raises the pattern error at once, before it prints or exports
    anything. *)
Theorem unbalanced_base_url (e : env) (b : text) (export_path : PathLib.path)
    (docs : list PageDetails) :
  forallb simple b = true ->
  main e (b ++ str ")") export_path docs = Some ([], Raised ReCompileError).
Proof.
  intros Hb. unfold main. change (str ")") with [")"%char].
  rewrite (@rstrip_keeps slash ")"%char b) by discriminate.
  assert (Hc : compile_template IMAGE_LINK_REGEX_TEMPLATE (b ++ [")"%char]) = Re.ReError).
  { unfold compile_template, Re.compile. rewrite image_template_text.
    rewrite parse_app, steps_image_pre. rewrite <- app_assoc.
    rewrite (@parse_simple false b _ Hb). reflexivity. }
  now rewrite Hc.
Qed.

Lemma unbalanced_base_url_witness :
  main env_ok (str "http://w.x)") example_root [hello_page]
  = Some ([], Raised ReCompileError).
Proof.
  apply (@unbalanced_base_url env_ok (str "http://w.x") example_root [hello_page]).
  reflexivity.
Defined.

(** ** One page, from the directory to the file *)

(** X9. The order of what [export_doc] does for a page it exports: it makes
    the book's directory; for every image match from the rightmost to the
    leftmost it prints the notice, requests the image and writes it; it
    prints the notices of the internal links of the final text from left to
    right; and last it writes the final text, with the title line in front,
    to the page's file, named after the title the page came with.  The flag
    it returns says whether the link pattern matched in the final text. *)
Theorem export_doc_trace (e : env) (export_path : PathLib.path) (base : text)
    (ire lre : Re.regex) (doc doc' : PageDetails) (evs : list event) (found : bool) :
  compile_template INTERNAL_LINK_REGEX_TEMPLATE base = Re.Compiled lre ->
  export_doc e export_path doc ire lre = (evs, Ok (doc', found)) ->
  let dir := book_dir export_path doc in
  evs = EvMakedirs dir
        :: flat_map (image_events e dir doc) (rev (Re.finditer ire (page_markdown doc)))
        ++ flat_map (link_events doc') (Re.finditer lre (page_markdown doc'))
        ++ [EvWriteText (page_file dir doc) (page_markdown doc')]
  /\ same_page doc doc'
  /\ firstn (length (title_heading doc)) (page_markdown doc') = title_heading doc
  /\ found = negb (Nat.eqb (length (Re.finditer lre (page_markdown doc'))) 0).
Proof.
  intros Hc H dir.
  destruct (internal_pattern_groups _ Hc) as [Hg1 Hg2].
  apply export_doc_ok in H as (evs_img & doc1 & evs_links & Himg & Hdoc' & Hlinks & ->).
  fold dir in Himg.
  destruct (@image_loop_run e dir ire doc doc1 evs_img Himg) as [-> Hsame].
  assert (Hsame' : same_page doc doc').
  { subst doc'. destruct Hsame as (? & ? & ? & ?). now repeat split. }
  assert (Htitle : title_heading doc1 = title_heading doc).
  { destruct Hsame as (_ & _ & Ht & Hd). unfold title_heading. now rewrite Ht, Hd. }
  unfold find_internal_links in Hlinks.
  rewrite link_loop_run in Hlinks
    by (intros mt Hin; split; eapply finditer_groups; eauto).
  injection Hlinks as <- <-.
  assert (Hfile : page_file dir doc' = page_file dir doc).
  { unfold page_file. destruct Hsame' as (_ & _ & -> & _). reflexivity. }
  fold dir. rewrite Hfile. split; [|split; [exact Hsame'|split]].
  - cbn [app]. now rewrite <- !app_assoc.
  - subst doc'. unfold add_title, set_markdown. cbn [page_markdown page_title draft].
    change (title_heading (mkPage (shelf doc1) (book doc1) (page_title doc1)
                                  (normalize_headers (page_markdown doc1)) (draft doc1)))
      with (title_heading doc1).
    rewrite Htitle, firstn_app, firstn_all, Nat.sub_diag. cbn [firstn].
    now rewrite app_nil_r.
  - now destruct (Re.finditer lre (page_markdown doc')).
Qed.

Lemma export_doc_trace_witness :
  exists evs doc' found,
    export_doc env_ok example_root image_page example_image_re example_link_re
    = (evs, Ok (doc', found))
    /\ evs = [EvMakedirs (PathLib.Path [] [str "export"; str "S"; str "B"]);
              EvEcho Blue (str "Found embedded image in B => Intro: f.png");
              EvGet (str "http://w.x/uploads/i/f.png");
              EvWriteBytes (PathLib.Path [] [str "export"; str "S"; str "B"; str "f.png"]) [];
              EvWriteText (PathLib.Path [] [str "export"; str "S"; str "B"; str "Intro.md"])
                          (page_markdown doc')].
Proof.
  destruct (export_doc env_ok example_root image_page example_image_re example_link_re)
    as [evs [[doc' found]|ex]] eqn:E.
  - exists evs, doc', found. split; [reflexivity|].
    destruct (@export_doc_trace env_ok example_root example_base example_image_re
                example_link_re image_page doc' evs found example_link_re_compiles E)
      as (Hevs & _).
    rewrite Hevs. vm_compute in E. injection E as _ <- _. vm_compute. reflexivity.
  - vm_compute in E. discriminate.
Defined.

(** ** The groups of the image pattern *)





(** ** When a page is exported *)





(** ** When a page fails *)




Lemma export_all_failure (e : env) (export_path : PathLib.path) (ire lre : Re.regex)
    (docs : list PageDetails) : forall b0,
  raises (for_each docs
            (fun manual_required doc =>
               r <- export_doc e export_path doc ire lre ;;
               ret (snd r || manual_required)) b0) ->
  exists before doc after,
    docs = before ++ doc :: after
    /\ Forall (fun d => ~ raises (export_doc e export_path d ire lre)) before
    /\ raises (export_doc e export_path doc ire lre)
    /\ fst (for_each docs
              (fun manual_required doc =>
                 r <- export_doc e export_path doc ire lre ;;
                 ret (snd r || manual_required)) b0)
       = flat_map (fun d => fst (export_doc e export_path d ire lre)) before
         ++ fst (export_doc e export_path doc ire lre).
Proof.
  induction docs as [|d ds IH]; intros b0 [ex Hex]; [discriminate|].
  cbn [for_each] in *.
  destruct (export_doc e export_path d ire lre) as [evs [[d' f]|ex1]] eqn:Ed.
  - unfold World.bind at 2 in Hex. unfold World.bind at 2.
    cbn [ret snd app] in *. rewrite app_nil_r in *.
    unfold World.bind at 1 in Hex. unfold World.bind at 1.
    destruct (IH (f || b0)) as (before & doc & after & -> & Hb & Hd & Hfst).
    { destruct (for_each ds _ (f || b0)) as [evs2 r2]. cbn [snd] in Hex. now exists ex. }
    exists (d :: before), doc, after. split; [reflexivity|]. split.
    + constructor; [|exact Hb]. intros [ex2 Hex2]. rewrite Ed in Hex2. discriminate.
    + split; [exact Hd|]. cbn [flat_map]. rewrite Ed. cbn [fst].
      rewrite <- app_assoc, <- Hfst.
      now destruct (for_each (before ++ doc :: after) _ (f || b0)).
  - exists [], d, ds. split; [reflexivity|]. split; [constructor|].
    rewrite Ed. split; [now exists ex1|reflexivity].
Qed.

(** X12. A run that raises has stopped at the first page for which
    [export_doc] raises: the pages before it were exported in full, and
    after the three progress lines the run has done what [export_doc] did
    for those pages and for the failing one, and nothing for the pages after
    it; no cleanup line is printed. *)
Theorem run_failure_point (e : env) (export_path : PathLib.path) (ire lre : Re.regex)
    (docs : list PageDetails) :
  raises (run e export_path ire lre docs) ->
  exists before doc after,
    docs = before ++ doc :: after
    /\ Forall (fun d => ~ raises (export_doc e export_path d ire lre)) before
    /\ raises (export_doc e export_path doc ire lre)
    /\ fst (run e export_path ire lre docs)
       = progress_lines
         ++ flat_map (fun d => fst (export_doc e export_path d ire lre)) before
         ++ fst (export_doc e export_path doc ire lre).
Proof.
  unfold run, export_all, echo, emit. intros [ex Hex].
  unfold World.bind at 1 2 3 in Hex. unfold World.bind at 1 2 3.
  match type of Hex with
  | context [World.bind ?c ?k] =>
      destruct c as [evs [b|ex1]] eqn:Eall
  end.
  - exfalso. unfold World.bind in Hex. destruct b; cbn in Hex; discriminate.
  - destruct (@export_all_failure e export_path ire lre docs false)
      as (before & doc & after & Hdocs & Hb & Hd & Hfst).
    { rewrite Eall. now exists ex1. }
    exists before, doc, after. rewrite Eall in Hfst. cbn [fst] in Hfst.
    repeat (split; [assumption|]). unfold World.bind. cbn [fst]. now rewrite Hfst.
Qed.

Lemma run_failure_point_witness :
  raises (run env_404 example_root example_image_re example_link_re
              [hello_page; image_page; link_page])
  /\ exists before doc after,
       [hello_page; image_page; link_page] = before ++ doc :: after
       /\ raises (export_doc env_404 example_root doc example_image_re example_link_re).
Proof.
  assert (Hr : raises (run env_404 example_root example_image_re example_link_re
                           [hello_page; image_page; link_page]))
    by (exists (HTTPError 404); vm_compute; reflexivity).
  split; [exact Hr|].
  destruct (@run_failure_point env_404 example_root example_image_re example_link_re
              [hello_page; image_page; link_page] Hr)
    as (before & doc & after & Hdocs & _ & Hd & _).
  exists before, doc, after. split; assumption.
Defined.

(** ** Pages that share a file *)

(** X13. Two pages of the same shelf and book are written to the same file
    exactly when their titles are the same once every slash is a dash: a
    page titled [A/B] and one titled [A-B] share a file, and whichever is
    exported later replaces the other. *)
Theorem same_file_iff (export_path : PathLib.path) (d1 d2 : PageDetails) :
  shelf d1 = shelf d2 -> book d1 = book d2 ->
  (output_path export_path d1 = output_path export_path d2
   <-> map dash (page_title d1) = map dash (page_title d2)).
Proof.
  intros Hs Hb. unfold output_path.
  assert (Hdir : book_dir export_path d1 = book_dir export_path d2)
    by (unfold book_dir; now rewrite Hs, Hb).
  rewrite Hdir, !page_file_component. unfold safe_file_name. split.
  - intros H. injection H as H. apply app_inv_head in H. injection H as H.
    now apply app_inv_tail in H.
  - now intros ->.
Qed.

Lemma same_file_iff_witness :
  output_path example_root slash_page = output_path example_root dash_page.
Proof.
  apply (proj2 (@same_file_iff example_root slash_page dash_page eq_refl eq_refl)).
  reflexivity.
Defined.

(** ** The file name of an image *)

Lemma matches_eps_inv (st st' : Re.mstate) : Matches Re.REps st st' -> st' = st.
Proof. now inversion 1. Qed.

Lemma matches_char_inv (cs : Re.charset) (st st' : Re.mstate) :
  Matches (Re.RChar cs) st st' ->
  exists c rest', Re.ms_rest st = c :: rest' /\ Re.cs_match cs c = true
                  /\ st' = advance st [c] rest'.
Proof. inversion 1; subst. eauto. Qed.

Lemma matches_rep_inv (greedy : bool) (lo : nat) (hi : option nat) (cs : Re.charset)
    (st st' : Re.mstate) :
  Matches (Re.RRep greedy lo hi cs) st st' ->
  exists l rest', Re.ms_rest st = l ++ rest' /\ forallb (Re.cs_match cs) l = true
                  /\ lo <= length l /\ hi_ok hi (length l)
                  /\ st' = advance st l rest'.
Proof. inversion 1; subst. eexists _, _. eauto. Qed.

Lemma matches_group_inv (n : nat) (r : Re.regex) (st st' : Re.mstate) :
  Matches (Re.RGroup n r) st st' ->
  exists s1, Matches r st s1
             /\ st' = Re.MState (Re.ms_pos s1) (Re.ms_prev s1) (Re.ms_rest s1)
                                ((n, (Re.ms_pos st, Re.ms_pos s1)) :: Re.ms_caps s1).
Proof. inversion 1; subst. eauto. Qed.

Lemma matches_seq_list_split (rs1 rs2 : list Re.regex) : forall st st2,
  Matches (seq_list (rs1 ++ rs2)) st st2 ->
  exists st1, Matches (seq_list rs1) st st1 /\ Matches (seq_list rs2) st1 st2.
Proof.
  induction rs1 as [|r rs1 IH]; intros st st2 H.
  - exists st. split; [constructor|exact H].
  - cbn [app seq_list fold_right] in H. apply matches_seq_inv in H as (s1 & H1 & H2).
    apply IH in H2 as (s2 & H2 & H3). exists s2. split; [|exact H3].
    cbn [seq_list fold_right]. econstructor; eauto.
Qed.

Lemma skipn_length_app {X} (l r : list X) : skipn (length l) (l ++ r) = r.
Proof. induction l; [reflexivity|assumption]. Qed.

Lemma firstn_length_app {X} (l r : list X) : firstn (length l) (l ++ r) = l.
Proof. induction l as [|x l IH]; [reflexivity|]. cbn. now rewrite IH. Qed.

(** A match reads the subject from where it stands. *)
Lemma matches_in_text (s : text) (r : Re.regex) (st st' : Re.mstate) :
  Matches r st st' ->
  Re.ms_rest st = skipn (Re.ms_pos st) s ->
  Re.ms_rest st' = skipn (Re.ms_pos st') s.
Proof.
  intros Hm Hst. apply matches_consumed in Hm as (l & Hl & Hp).
  rewrite Hp, Nat.add_comm, <- skipn_skipn, <- Hst, Hl. symmetry. apply skipn_length_app.
Qed.

Lemma finditer_from_at (r : Re.regex) (mt : Re.rmatch) (rest : text) :
  forall pos prev skip,
    In mt (Re.finditer_from r rest pos prev skip) ->
    exists pre rest' prev',
      rest = pre ++ rest' /\ Re.match_at r (pos + length pre) prev' rest' = Some mt.
Proof.
  induction rest as [|c rest IH]; intros pos prev skip Hin; cbn [Re.finditer_from] in Hin.
  - destruct skip; [|destruct Hin].
    destruct (Re.match_at r pos prev []) eqn:E; [|destruct Hin].
    destruct Hin as [<-|[]]. exists [], [], prev. rewrite Nat.add_0_r. auto.
  - assert (Htail : forall sk, In mt (Re.finditer_from r rest (S pos) (Some c) sk) ->
              exists pre rest' prev',
                c :: rest = pre ++ rest'
                /\ Re.match_at r (pos + length pre) prev' rest' = Some mt).
    { intros sk H. apply IH in H as (pre & rest' & prev' & -> & Hm).
      exists (c :: pre), rest', prev'. split; [reflexivity|].
      cbn [length]. now rewrite Nat.add_succ_r. }
    destruct skip; [|eapply Htail; eauto].
    destruct (Re.match_at r pos prev (c :: rest)) eqn:E; [|eapply Htail; eauto].
    destruct Hin as [<-|Hin]; [|eapply Htail; eauto].
    exists [], (c :: rest), prev. rewrite Nat.add_0_r. auto.
Qed.

Lemma set_no_slash (l : text) :
  forallb (Re.cs_match (Re.CsSet true [slash])) l = true -> ~ In slash l.
Proof.
  intros H Hin. rewrite forallb_forall in H. specialize (H _ Hin).
  vm_compute in H. discriminate.
Qed.

Lemma word_no_slash (l : text) :
  forallb (Re.cs_match Re.CsWord) l = true -> ~ In slash l.
Proof.
  intros H Hin. rewrite forallb_forall in H. specialize (H _ Hin). discriminate.
Qed.

Lemma parse_file_name (l : text) :
  ~ In slash l -> 2 <= length l -> PathLib.parse l = PathLib.Path [] [l].
Proof.
  intros Hns Hlen. unfold PathLib.parse, PathLib.segments.
  rewrite split_slash_plain by assumption. cbn [rev app filter].
  destruct l as [|a [|b s]]; cbn in Hlen; try lia.
  assert (Ea : PyStr.eqc a slash = false).
  { destruct (PyStr.eqc a slash) eqn:Ea; [|reflexivity].
    apply eqc_eq in Ea. subst a. exfalso. apply Hns. now left. }
  destruct s; cbn [PathLib.keep_segment PathLib.anchor_of]; now rewrite Ea.
Qed.

(** What a match of the image pattern of a simple base URL captured. *)
Lemma image_match_groups (base md : text) (mt : Re.rmatch) :
  In mt (Re.finditer (image_regex base) md) ->
  exists url_dir stem ext,
    Re.group md mt 1 = Some (url_dir ++ slash :: stem ++ "."%char :: ext)
    /\ Re.group md mt 2 = Some (stem ++ "."%char :: ext)
    /\ ~ In slash stem /\ length ext = 3 /\ forallb Re.is_word ext = true.
Proof.
  intros Hin. unfold Re.finditer in Hin.
  apply finditer_from_at in Hin as (pre & rest & prev & Hmd & Hat).
  cbn [Nat.add] in Hat. unfold Re.match_at in Hat.
  apply m_sound in Hat as (st' & Hm & [= <-]).
  set (st0 := Re.MState (length pre) prev rest []) in *.
  assert (H0 : Re.ms_rest st0 = skipn (Re.ms_pos st0) md).
  { subst md. cbn. symmetry. apply skipn_length_app. }
  unfold image_regex in Hm.
  replace (image_pre_items ++ map atom base ++ image_mid_items
           ++ [image_group base; lit ")"])
    with ((image_pre_items ++ map atom base ++ image_mid_items)
          ++ [image_group base; lit ")"]) in Hm by (now rewrite <- !app_assoc).
  apply matches_seq_list_split in Hm as (st1 & Hpre & Hm).
  pose proof (matches_in_text md Hpre H0) as H1.
  cbn [seq_list fold_right] in Hm.
  apply matches_seq_inv in Hm as (sg & Hg & Hm).
  apply matches_seq_inv in Hm as (sl & Hl & Hm).
  apply matches_eps_inv in Hm. subst st'.
  apply matches_char_inv in Hl as (c & rl & _ & _ & ->).
  unfold image_group in Hg. apply matches_group_inv in Hg as (si & Hi & ->).
  replace (map atom base ++ image_in_items ++ [Re.RGroup 2 (seq_list image_name_items)])
    with ((map atom base ++ map lit (str "/uploads/")
           ++ [Re.RRep false 0 None Re.CsAny])
          ++ [lit slash] ++ [Re.RGroup 2 (seq_list image_name_items)]) in Hi
    by (unfold image_in_items; now rewrite <- !app_assoc).
  apply matches_seq_list_split in Hi as (sd & Hd & Hi).
  apply matches_seq_list_split in Hi as (sy & Hs & Hi).
  cbn [seq_list fold_right] in Hs, Hi.
  apply matches_seq_inv in Hs as (sy' & Hs & Hs').
  apply matches_eps_inv in Hs'. subst sy'.
  apply matches_char_inv in Hs as (cslash & rs & Hrs & Hcs & ->).
  change (PyStr.eqc slash cslash = true) in Hcs. apply eqc_eq in Hcs. subst cslash.
  apply matches_seq_inv in Hi as (s2 & H2 & Hi).
  apply matches_eps_inv in Hi. subst si.
  apply matches_group_inv in H2 as (sn & Hn & ->).
  unfold image_name_items in Hn. cbn [seq_list fold_right] in Hn.
  apply matches_seq_inv in Hn as (sa & Ha & Hn).
  apply matches_seq_inv in Hn as (sb & Hb & Hn).
  apply matches_seq_inv in Hn as (sc & Hc & Hn).
  apply matches_eps_inv in Hn. subst sn.
  apply matches_rep_inv in Ha as (stem & ra & Hra & Hstem & _ & _ & ->).
  apply matches_char_inv in Hb as (cdot & rb & Hrb & Hcd & ->).
  change (PyStr.eqc "."%char cdot = true) in Hcd. apply eqc_eq in Hcd. subst cdot.
  apply matches_rep_inv in Hc as (ext & rc & Hrc & Hext & Hlo & Hhi & ->).
  cbn in Hhi. cbn [advance Re.ms_rest Re.ms_pos Re.ms_caps] in *.
  apply matches_consumed in Hd as (url_dir & Hud & Hpd).
  subst ra rb. rewrite Hrs in Hud. subst rs.
  exists url_dir, stem, ext.
  assert (Hlen : length ext = 3) by lia.
  split; [|split; [|split; [now apply set_no_slash|split; [exact Hlen|exact Hext]]]].
  - unfold Re.group. cbn [Re.m_caps Re.lookup_group Nat.eqb].
    rewrite <- H1, Hud. f_equal.
    replace (Re.ms_pos sd + length [slash] + length stem + length ["."%char] + length ext
             - Re.ms_pos st1)
      with (length (url_dir ++ slash :: stem ++ "."%char :: ext))
      by (rewrite length_app; cbn [length]; rewrite length_app; cbn [length]; lia).
    replace (url_dir ++ slash :: stem ++ "."%char :: ext ++ rc)
      with ((url_dir ++ slash :: stem ++ "."%char :: ext) ++ rc)
      by (rewrite <- !app_assoc; cbn [app]; now rewrite <- !app_assoc).
    apply firstn_length_app.
  - unfold Re.group. cbn [Re.m_caps Re.lookup_group Nat.eqb]. f_equal.
    assert (Hsy : stem ++ "."%char :: ext ++ rc
                  = skipn (Re.ms_pos sd + length [slash]) md).
    { replace (Re.ms_pos sd + length [slash]) with (length (url_dir ++ [slash]) + Re.ms_pos st1)
        by (rewrite length_app; cbn [length]; lia).
      rewrite <- skipn_skipn, <- H1, Hud.
      replace (url_dir ++ slash :: stem ++ "."%char :: ext ++ rc)
        with ((url_dir ++ [slash]) ++ stem ++ "."%char :: ext ++ rc)
        by (now rewrite <- app_assoc).
      symmetry. apply skipn_length_app. }
    rewrite <- Hsy.
    replace (Re.ms_pos sd + length [slash] + length stem + length ["."%char] + length ext
             - (Re.ms_pos sd + length [slash]))
      with (length (stem ++ "."%char :: ext))
      by (rewrite length_app; cbn [length]; lia).
    replace (stem ++ "."%char :: ext ++ rc) with ((stem ++ "."%char :: ext) ++ rc)
      by (now rewrite <- app_assoc).
    apply firstn_length_app.
Qed.

(** X14. For the image pattern of a base URL of plain characters and dots,
    the file name of every match (group 2) is the end of the match's URL
    (group 1) after its last slash; it has no slash in it and ends in a dot
    and three word characters.  So the path the image is written to is the
    page's directory with the file name as one more component: the image
    lands beside the page's file. *)
Theorem image_file_in_page_dir (base : text) (ire : Re.regex) (md : text)
    (mt : Re.rmatch) (dir : PathLib.path) :
  forallb simple base = true ->
  compile_template IMAGE_LINK_REGEX_TEMPLATE base = Re.Compiled ire ->
  In mt (Re.finditer ire md) ->
  exists url_dir stem ext,
    let image_filename := stem ++ "."%char :: ext in
    Re.group md mt 1 = Some (url_dir ++ slash :: image_filename)
    /\ Re.group md mt 2 = Some image_filename
    /\ ~ In slash image_filename
    /\ length ext = 3 /\ forallb Re.is_word ext = true
    /\ PathLib.joinpath dir image_filename
       = PathLib.Path (PathLib.anchor dir) (PathLib.parts dir ++ [image_filename]).
Proof.
  intros Hb Hc Hin. rewrite (image_compiles base Hb) in Hc. injection Hc as <-.
  apply image_match_groups in Hin as (url_dir & stem & ext & H1 & H2 & Hs & Hl & Hw).
  exists url_dir, stem, ext. cbv zeta.
  assert (Hns : ~ In slash (stem ++ "."%char :: ext)).
  { intros H. apply in_app_or in H as [H|[H|H]]; [now apply Hs|discriminate|].
    now apply (@word_no_slash ext Hw). }
  repeat (split; [assumption|]).
  unfold PathLib.joinpath. rewrite parse_file_name; [reflexivity|exact Hns|].
  rewrite length_app. cbn [length]. lia.
Qed.

Lemma image_file_in_page_dir_witness :
  In example_image_match (Re.finditer example_image_re (page_markdown image_page))
  /\ exists stem ext,
       Re.group (page_markdown image_page) example_image_match 2
       = Some (stem ++ "."%char :: ext)
       /\ length ext = 3
       /\ PathLib.joinpath (book_dir example_root image_page) (stem ++ "."%char :: ext)
          = PathLib.Path (PathLib.anchor (book_dir example_root image_page))
                         (PathLib.parts (book_dir example_root image_page)
                          ++ [stem ++ "."%char :: ext]).
Proof.
  assert (Hin : In example_image_match
                   (Re.finditer example_image_re (page_markdown image_page)))
    by (vm_compute; auto).
  assert (Hb : forallb simple example_base = true) by (vm_compute; reflexivity).
  split; [exact Hin|].
  destruct (@image_file_in_page_dir example_base example_image_re
              (page_markdown image_page) example_image_match
              (book_dir example_root image_page) Hb example_image_re_compiles Hin)
    as (url_dir & stem & ext & _ & H2 & _ & Hl & _ & Hp).
  exists stem, ext. split; [exact H2|]. split; [exact Hl|exact Hp].
Defined.

(** ** What a match of the internal-link pattern is made of *)

Lemma matches_lits_inv (s : text) (rs : list Re.regex) : forall st st',
  Matches (seq_list (map lit s ++ rs)) st st' ->
  exists st1,
    Re.ms_rest st = s ++ Re.ms_rest st1
    /\ Re.ms_pos st1 = Re.ms_pos st + length s
    /\ Re.ms_caps st1 = Re.ms_caps st
    /\ Matches (seq_list rs) st1 st'.
Proof.
  induction s as [|a s IH]; intros st st' H.
  - exists st. cbn. rewrite Nat.add_0_r. auto.
  - cbn [map app seq_list fold_right] in H.
    apply matches_seq_inv in H as (s1 & Hc & H).
    apply matches_char_inv in Hc as (c & r & Hr & Hm & ->).
    change (PyStr.eqc a c = true) in Hm. apply eqc_eq in Hm. subst c.
    apply IH in H as (st1 & Hrest & Hpos & Hcaps & H).
    cbn [advance Re.ms_rest Re.ms_pos Re.ms_caps length] in *.
    exists st1. rewrite Hr, Hrest, Hpos, Hcaps. repeat split; [lia|exact H].
Qed.

Lemma matches_atoms_inv (base : text) (rs : list Re.regex) : forall st st',
  Matches (seq_list (map atom base ++ rs)) st st' ->
  exists b st1,
    Re.ms_rest st = b ++ Re.ms_rest st1
    /\ Forall2 fits base b
    /\ Re.ms_pos st1 = Re.ms_pos st + length b
    /\ Re.ms_caps st1 = Re.ms_caps st
    /\ Matches (seq_list rs) st1 st'.
Proof.
  induction base as [|a base IH]; intros st st' H.
  - exists [], st. cbn. rewrite Nat.add_0_r. auto.
  - cbn [map app seq_list fold_right] in H.
    apply matches_seq_inv in H as (s1 & Hc & H).
    assert (Hc' : exists c r, Re.ms_rest st = c :: r /\ fits a c /\ s1 = advance st [c] r).
    { unfold atom, fits in *. destruct (PyStr.eqc a ".") eqn:Ea.
      - apply matches_char_inv in Hc as (c & r & Hr & Hm & ->).
        exists c, r. repeat split; auto. intros ->. discriminate.
      - apply matches_char_inv in Hc as (c & r & Hr & Hm & ->).
        change (PyStr.eqc a c = true) in Hm. apply eqc_eq in Hm.
        exists c, r. repeat split; auto. }
    destruct Hc' as (c & r & Hr & Hfit & ->).
    apply IH in H as (b & st1 & Hrest & Hb & Hpos & Hcaps & H).
    cbn [advance Re.ms_rest Re.ms_pos Re.ms_caps length] in *.
    exists (c :: b), st1. rewrite Hr, Hrest, Hpos, Hcaps. cbn [length app].
    repeat split; [now constructor|lia|exact H].
Qed.

Lemma any_no_newline (l : text) :
  forallb (Re.cs_match Re.CsAny) l = true -> ~ In newline l.
Proof.
  intros H Hin. rewrite forallb_forall in H. specialize (H _ Hin). discriminate.
Qed.

(** A group holding one lazy [.+]. *)
Lemma matches_slug_inv (n : nat) (st st' : Re.mstate) :
  Matches (Re.RGroup n (Re.RSeq (Re.RRep false 1 None Re.CsAny) Re.REps)) st st' ->
  exists slug,
    Re.ms_rest st = slug ++ Re.ms_rest st'
    /\ slug <> [] /\ ~ In newline slug
    /\ Re.ms_pos st' = Re.ms_pos st + length slug
    /\ Re.ms_caps st' = (n, (Re.ms_pos st, Re.ms_pos st + length slug)) :: Re.ms_caps st.
Proof.
  intros H. apply matches_group_inv in H as (s1 & H & ->).
  apply matches_seq_inv in H as (s2 & H & He). apply matches_eps_inv in He. subst s2.
  apply matches_rep_inv in H as (slug & r & Hr & Hall & Hlo & _ & ->).
  cbn [advance Re.ms_rest Re.ms_pos Re.ms_caps]. exists slug.
  repeat split; auto using any_no_newline.
  intros ->. cbn in Hlo. lia.
Qed.

Lemma skipn_prefix {X} (a r s : list X) (n : nat) :
  s = a ++ r -> n = length a -> skipn n s = r.
Proof. intros -> ->. apply skipn_length_app. Qed.

(** X16. For the internal-link pattern of a base URL of plain characters and
    dots, the text of every match of the scan is the base URL (any character
    but a newline where it has a dot), [/books/], the book slug, [/page/],
    the page slug and a closing parenthesis; the two slugs are groups 1 and
    2, the ones the notice names, and neither is empty or has a newline. *)
Theorem link_match_anatomy (base : text) (lre : Re.regex) (md : text) (mt : Re.rmatch) :
  forallb simple base = true ->
  compile_template INTERNAL_LINK_REGEX_TEMPLATE base = Re.Compiled lre ->
  In mt (Re.finditer lre md) ->
  exists b book_slug page_slug,
    firstn (Re.m_end mt - Re.m_start mt) (skipn (Re.m_start mt) md)
    = b ++ str "/books/" ++ book_slug ++ str "/page/" ++ page_slug ++ str ")"
    /\ Forall2 fits base b
    /\ Re.group md mt 1 = Some book_slug /\ Re.group md mt 2 = Some page_slug
    /\ book_slug <> [] /\ page_slug <> []
    /\ ~ In newline book_slug /\ ~ In newline page_slug.
Proof.
  intros Hb Hc Hin. rewrite (internal_compiles base Hb) in Hc. injection Hc as <-.
  unfold Re.finditer in Hin.
  apply finditer_from_at in Hin as (pre & rest & prev & Hmd & Hat).
  cbn [Nat.add] in Hat. unfold Re.match_at in Hat.
  apply m_sound in Hat as (st' & Hm & [= <-]).
  unfold internal_regex in Hm.
  change internal_tail_items
    with (map lit (str "/books/")
          ++ Re.RGroup 1 (Re.RSeq (Re.RRep false 1 None Re.CsAny) Re.REps)
          :: map lit (str "/page/")
          ++ [Re.RGroup 2 (Re.RSeq (Re.RRep false 1 None Re.CsAny) Re.REps); lit ")"])
    in Hm.
  apply matches_atoms_inv in Hm as (b & s1 & Hr0 & Hfit & Hp1 & Hc1 & Hm).
  apply matches_lits_inv in Hm as (s2 & Hr1 & Hp2 & Hc2 & Hm).
  cbn [seq_list fold_right] in Hm.
  apply matches_seq_inv in Hm as (s3 & Hg1 & Hm).
  apply matches_slug_inv in Hg1 as (g1 & Hr2 & Hne1 & Hnl1 & Hp3 & Hc3).
  change (fold_right Re.RSeq Re.REps ?l) with (seq_list l) in Hm.
  apply matches_lits_inv in Hm as (s4 & Hr3 & Hp4 & Hc4 & Hm).
  cbn [seq_list fold_right] in Hm.
  apply matches_seq_inv in Hm as (s5 & Hg2 & Hm).
  apply matches_slug_inv in Hg2 as (g2 & Hr4 & Hne2 & Hnl2 & Hp5 & Hc5).
  apply matches_seq_inv in Hm as (s6 & Hl & Hm).
  apply matches_eps_inv in Hm. subst st'.
  apply matches_char_inv in Hl as (c & r & Hr5 & Hcl & ->).
  change (PyStr.eqc ")"%char c = true) in Hcl. apply eqc_eq in Hcl. subst c.
  cbn [advance Re.ms_rest Re.ms_pos Re.ms_caps Re.m_start Re.m_end Re.m_caps length] in *.
  assert (L7 : length (str "/books/") = 7) by reflexivity.
  assert (L6 : length (str "/page/") = 6) by reflexivity.
  assert (L1 : length (str ")") = 1) by reflexivity.
  assert (Hrest : rest = b ++ str "/books/" ++ g1 ++ str "/page/" ++ g2 ++ str ")" ++ r).
  { rewrite Hr0, Hr1, Hr2, Hr3, Hr4, Hr5. reflexivity. }
  assert (Hlen : Re.ms_pos s5 + 1 - length pre
                 = length (b ++ str "/books/" ++ g1 ++ str "/page/" ++ g2 ++ str ")")).
  { rewrite !length_app. lia. }
  exists b, g1, g2.
  split; [|split; [exact Hfit|split; [|split; [|auto]]]].
  - rewrite Hlen, (@skipn_prefix _ pre rest md (length pre) Hmd eq_refl), Hrest.
    replace (b ++ str "/books/" ++ g1 ++ str "/page/" ++ g2 ++ str ")" ++ r)
      with ((b ++ str "/books/" ++ g1 ++ str "/page/" ++ g2 ++ str ")") ++ r)
      by (now rewrite <- !app_assoc).
    apply firstn_length_app.
  - unfold Re.group. rewrite Hc5, Hc4, Hc3. cbn [Re.m_caps Re.lookup_group Nat.eqb]. f_equal.
    replace (Re.ms_pos s2 + length g1 - Re.ms_pos s2) with (length g1) by lia.
    rewrite (@skipn_prefix _ (pre ++ b ++ str "/books/")
               (g1 ++ str "/page/" ++ g2 ++ str ")" ++ r) md (Re.ms_pos s2)).
    + apply firstn_length_app.
    + rewrite Hmd, Hrest. now rewrite <- !app_assoc.
    + rewrite !length_app. lia.
  - unfold Re.group. rewrite Hc5. cbn [Re.m_caps Re.lookup_group Nat.eqb]. f_equal.
    replace (Re.ms_pos s4 + length g2 - Re.ms_pos s4) with (length g2) by lia.
    rewrite (@skipn_prefix _ (pre ++ b ++ str "/books/" ++ g1 ++ str "/page/")
               (g2 ++ str ")" ++ r) md (Re.ms_pos s4)).
    + apply firstn_length_app.
    + rewrite Hmd, Hrest. now rewrite <- !app_assoc.
    + rewrite !length_app. lia.
Qed.

Lemma link_match_anatomy_witness :
  In far_link_match (Re.finditer example_link_re (page_markdown far_link_page))
  /\ exists b book_slug page_slug,
       firstn (Re.m_end far_link_match - Re.m_start far_link_match)
              (skipn (Re.m_start far_link_match) (page_markdown far_link_page))
       = b ++ str "/books/" ++ book_slug ++ str "/page/" ++ page_slug ++ str ")"
       /\ Re.group (page_markdown far_link_page) far_link_match 1 = Some book_slug
       /\ Re.group (page_markdown far_link_page) far_link_match 2 = Some page_slug.
Proof.
  assert (Hin : In far_link_match
                   (Re.finditer example_link_re (page_markdown far_link_page)))
    by (vm_compute; auto).
  assert (Hb : forallb simple example_base = true) by (vm_compute; reflexivity).
  split; [exact Hin|].
  destruct (@link_match_anatomy example_base example_link_re
              (page_markdown far_link_page) far_link_match
              Hb example_link_re_compiles Hin)
    as (b & g1 & g2 & Ht & _ & H1 & H2 & _).
  exists b, g1, g2. split; [exact Ht|]. split; [exact H1|exact H2].
Defined.

(** ** The heading patterns, line by line *)

(** X15. The pattern of [header_re] for a level from 1 on is the start of a
    line followed by that many hashes and a space.  It is found in a text
    exactly when one of the text's lines begins with the hashes and the
    space, and substituting the heading text of another level for it
    rewrites those lines, each at its start only, and no other: the lines
    stay as many and every line that is no heading of the level stays as it
    is. *)
Theorem header_pattern_by_lines (x y : nat) (md : text) :
  Re.compile true (str "^" ++ header_text (S x)) = Re.Compiled (header_re (S x))
  /\ (Re.search (header_re (S x)) md <> None
      <-> exists l, In l (lines md) /\ heading_level l = Some (S x))
  /\ Re.sub (header_re (S x)) (header_text y) md
     = unlines (map (rw (S x) y) (lines md))
  /\ (forall l, heading_level l = Some (S x) ->
                rw (S x) y l = header_text y ++ skipn (S x + 1) l)
  /\ (forall l, heading_level l <> Some (S x) -> rw (S x) y l = l)
  /\ length (lines (Re.sub (header_re (S x)) (header_text y) md)) = length (lines md).
Proof.
  split; [now rewrite header_re_compiles, header_re_tree|].
  split; [|split; [apply sub_header|split; [|split]]].
  - rewrite <- has_level_iff, <- search_header.
    destruct (Re.search (header_re (S x)) md); cbn; split; congruence.
  - intros l. apply rw_hit.
  - intros l. apply rw_miss.
  - rewrite sub_header, lines_unlines, length_map; [reflexivity| |].
    + pose proof (lines_nonempty md). destruct (lines md); [congruence|discriminate].
    + apply Forall_forall. intros l Hl. apply in_map_iff in Hl as (l0 & <- & Hl0).
      apply rw_no_newline.
      pose proof (lines_no_newline md) as Hall. rewrite Forall_forall in Hall. auto.
Qed.
